(** * A shallow embedding of the auto-complete tries

    The repository holds three Go programs built around a trie keyed by
    code point (Go [rune]):

    - the benchmark program with [TrieA1] (the "contextual" trie, which
      also carries a bigram table) and [TriesA2] (the frequency trie);
    - the terminal front end, whose [Tries] is the same code as [TriesA2];
    - the line-oriented demo [main.go], a trie without frequencies.

    Go values are modelled as follows.

    - [int] is a 64-bit two's complement integer: a [Z] kept in range by
      [wrap], which every increment and addition of the source goes
      through.
    - [string] is a sequence of bytes: Rocq's [string].  A [range] loop over
      a string decodes UTF-8 ([range_string]); [string(r)] of a rune or of
      a rune slice encodes UTF-8 ([string_of_rune], [string_of_runes]).
    - [rune] is a [Z].
    - [float64] is IEEE 754 binary64, as specified by the Standard
      Library's [SpecFloat] with precision 53 and maximal exponent 1024.
    - [map[string]...] is a [gmap]; the tables are only looked up and
      updated, never iterated.
    - [map[rune]*Node] is iterated by [range], in an order Go leaves
      unspecified.  The children of a node are therefore a list of
      (rune, child) pairs and the list order stands for the iteration
      order.  Statements are made for every trie, hence for every order.
    - [sort.Slice] belongs to Go's library.  It is a parameter
      ([SortSlice]) with the contract its documentation gives: the result
      is a permutation, and it is ordered when [less] is a transitive
      ordering.  [insertion_SortSlice] is one implementation.
    - a run-time panic is the outcome [Panics].

    Of the benchmark's [main] the metric [measureSuggestionQuality] is
    modelled; the timing, [getMemoryUsage] and the printing depend on the
    run-time system and are left out.  The front end's [main] is modelled
    as a transition [FrontEnd.onEvent] on the four variables of its loop,
    with [strings.Fields], [strings.Join] and [utf8.DecodeRuneInString]
    as Go's library defines them; drawing on the terminal is left out,
    since no variable of the loop depends on it. *)

From Stdlib Require Import ZArith QArith Qabs Qpower Qfield Lqa Ascii Floats.SpecFloat.
From Stdlib Require String.
From stdpp Require Import gmap strings list fin_maps sorting.

#[local] Open Scope Z_scope.

(** ** Machine integers *)

Definition rune : Type := Z.

Definition int_min : Z := - 2 ^ 63.
Definition int_max : Z := 2 ^ 63 - 1.

(** Two's complement wrap-around of Go's [int] on 64-bit platforms. *)
Definition wrap (z : Z) : Z := (z + 2 ^ 63) mod 2 ^ 64 - 2 ^ 63.

(** ** Strings and runes *)

Definition byte_val (a : ascii) : Z := Z.of_N (N_of_ascii a).
Definition byte_of (z : Z) : ascii := ascii_of_N (Z.to_N z).

Definition RuneError : rune := 0xFFFD.

(** The lead bytes of multi-byte sequences: the length of the sequence and
    the range the second byte has to lie in. *)
Definition acceptRange (b0 : Z) : option (Z * Z * Z) :=
  if (0xC2 <=? b0) && (b0 <=? 0xDF) then Some (2, 0x80, 0xBF)
  else if b0 =? 0xE0 then Some (3, 0xA0, 0xBF)
  else if (0xE1 <=? b0) && (b0 <=? 0xEC) then Some (3, 0x80, 0xBF)
  else if b0 =? 0xED then Some (3, 0x80, 0x9F)
  else if (0xEE <=? b0) && (b0 <=? 0xEF) then Some (3, 0x80, 0xBF)
  else if b0 =? 0xF0 then Some (4, 0x90, 0xBF)
  else if (0xF1 <=? b0) && (b0 <=? 0xF3) then Some (4, 0x80, 0xBF)
  else if b0 =? 0xF4 then Some (4, 0x80, 0x8F)
  else None.

Definition between (lo hi b : Z) : bool := (lo <=? b) && (b <=? hi).
Definition continuation (b : Z) : bool := between 0x80 0xBF b.

(** [for _, char := range s]: the runes a range loop yields.  An invalid or
    truncated sequence yields [RuneError] and the loop advances by one
    byte. *)
Fixpoint range_string (s : string) : list rune :=
  match s with
  | EmptyString => []
  | String a0 s0 =>
    let b0 := byte_val a0 in
    if b0 <? 0x80 then b0 :: range_string s0 else
    match acceptRange b0 with
    | None => RuneError :: range_string s0
    | Some (sz, lo, hi) =>
      match s0 with
      | EmptyString => RuneError :: range_string s0
      | String a1 s1 =>
        let b1 := byte_val a1 in
        if negb (between lo hi b1) then RuneError :: range_string s0
        else if sz =? 2 then
          Z.lor (Z.shiftl (Z.land b0 0x1F) 6) (Z.land b1 0x3F) :: range_string s1
        else
        match s1 with
        | EmptyString => RuneError :: range_string s0
        | String a2 s2 =>
          let b2 := byte_val a2 in
          if negb (continuation b2) then RuneError :: range_string s0
          else if sz =? 3 then
            Z.lor (Z.lor (Z.shiftl (Z.land b0 0x0F) 12)
                         (Z.shiftl (Z.land b1 0x3F) 6))
                  (Z.land b2 0x3F) :: range_string s2
          else
          match s2 with
          | EmptyString => RuneError :: range_string s0
          | String a3 s3 =>
            let b3 := byte_val a3 in
            if negb (continuation b3) then RuneError :: range_string s0
            else
              Z.lor (Z.lor (Z.lor (Z.shiftl (Z.land b0 0x07) 18)
                                  (Z.shiftl (Z.land b1 0x3F) 12))
                           (Z.shiftl (Z.land b2 0x3F) 6))
                    (Z.land b3 0x3F) :: range_string s3
          end
        end
      end
    end
  end.

Definition bytes (l : list Z) : string := String.string_of_list_ascii (map byte_of l).

(** [string(r)] for a rune: its UTF-8 encoding; a value that is no Unicode
    scalar value becomes the encoding of U+FFFD. *)
Definition string_of_rune (r : rune) : string :=
  if (0 <=? r) && (r <? 0x80) then bytes [r]
  else if (0x80 <=? r) && (r <? 0x800) then
    bytes [Z.lor 0xC0 (Z.shiftr r 6); Z.lor 0x80 (Z.land r 0x3F)]
  else if (0x800 <=? r) && (r <? 0x10000) && negb (between 0xD800 0xDFFF r) then
    bytes [Z.lor 0xE0 (Z.shiftr r 12);
           Z.lor 0x80 (Z.land (Z.shiftr r 6) 0x3F);
           Z.lor 0x80 (Z.land r 0x3F)]
  else if (0x10000 <=? r) && (r <=? 0x10FFFF) then
    bytes [Z.lor 0xF0 (Z.shiftr r 18);
           Z.lor 0x80 (Z.land (Z.shiftr r 12) 0x3F);
           Z.lor 0x80 (Z.land (Z.shiftr r 6) 0x3F);
           Z.lor 0x80 (Z.land r 0x3F)]
  else bytes [0xEF; 0xBF; 0xBD].

(** [string(path)] for a rune slice: the concatenation of the encodings. *)
Fixpoint string_of_runes (path : list rune) : string :=
  match path with
  | [] => EmptyString
  | r :: path' => String.append (string_of_rune r) (string_of_runes path')
  end.

(** [strings.HasPrefix(s, prefix)]: [s] begins with the bytes of [prefix]. *)
Fixpoint HasPrefix (s prefix : string) {struct prefix} : bool :=
  match prefix with
  | EmptyString => true
  | String a prefix' =>
    match s with
    | EmptyString => false
    | String b s' => Ascii.eqb a b && HasPrefix s' prefix'
    end
  end.

(** A string is valid UTF-8 when converting it to runes and back, as in
    [string([]rune(s))], gives the string itself: no byte was replaced by
    U+FFFD. *)
Definition valid_utf8 (s : string) : Prop := string_of_runes (range_string s) = s.

(** ** Outcomes and slices *)

(** A Go call either returns or panics. *)
Inductive outcome (A : Type) : Type :=
  | Returns (a : A)
  | Panics.
Arguments Returns {A} a.
Arguments Panics {A}.

(** [len(s)] as an [int]. *)
Definition len {A} (s : list A) : Z := Z.of_nat (length s).

(** The slice expression [s[:k]] where [k <= len(s)] is already known: the
    indices are in range when [0 <= k], and otherwise the run time panics
    with "slice bounds out of range". *)
Definition slice_to {A} (s : list A) (k : Z) : outcome (list A) :=
  if k <? 0 then Panics else Returns (take (Z.to_nat k) s).

(** ** [float64] *)

Definition float64 : Type := spec_float.
Definition f64_prec : Z := 53.
Definition f64_emax : Z := 1024.

(** The conversion [float64(n)] of an [int], rounding to nearest even. *)
Definition float64_of_int (n : Z) : float64 :=
  binary_normalize f64_prec f64_emax n 0 false.

(** [x / y], [x > y] and [x >= y] on [float64]. *)
Definition float64_div (x y : float64) : float64 := SFdiv f64_prec f64_emax x y.
Definition float64_gt (x y : float64) : bool := SFltb y x.
Definition float64_ge (x y : float64) : bool := SFleb y x.

(** The rational number a finite [float64] stands for (0 for the others). *)
Definition float64_to_Q (x : float64) : Q :=
  match x with
  | S754_finite s m e => (inject_Z (if s then Z.neg m else Z.pos m) * 2 ^ e)%Q
  | _ => 0%Q
  end.

(** The order of the numbers of [float64]: sign class first, then exponent,
    then mantissa. *)
Definition float64_key (x : float64) : Z * Z * Z :=
  match x with
  | S754_infinity true => (-2, 0, 0)
  | S754_finite true m e => (-1, - e, - Z.pos m)
  | S754_zero _ => (0, 0, 0)
  | S754_finite false m e => (1, e, Z.pos m)
  | S754_infinity false => (2, 0, 0)
  | S754_nan => (3, 0, 0)
  end.

Definition key_lt (a b : Z * Z * Z) : Prop :=
  a.1.1 < b.1.1 ∨
  (a.1.1 = b.1.1 ∧ (a.1.2 < b.1.2 ∨ (a.1.2 = b.1.2 ∧ a.2 < b.2))).

(** ** [sort.Slice] *)

(** What Go's documentation asks of [less]: a transitive ordering, on the
    elements that are sorted. *)
Definition transitive_ordering {A} (less : A → A → bool) (l : list A) : Prop :=
  (∀ a, a ∈ l → less a a = false) ∧
  (∀ a b c, a ∈ l → b ∈ l → c ∈ l →
     less a b = true → less b c = true → less a c = true) ∧
  (∀ a b c, a ∈ l → b ∈ l → c ∈ l →
     less a b = false → less b c = false → less a c = false).

(** [ordered_by less l]: no element of [l] has to come before an earlier
    one. *)
Definition ordered_by {A} (less : A → A → bool) (l : list A) : Prop :=
  StronglySorted (λ a b, less b a = false) l.

(** [sort.Slice(x, less)], where [less] is given on elements rather than on
    indices.  The sort is not stable and the order of equal elements is not
    specified. *)
Class SortSlice : Type := {
  sort_Slice : ∀ A : Type, (A → A → bool) → list A → list A;
  sort_Slice_perm : ∀ A (less : A → A → bool) (l : list A),
    sort_Slice A less l ≡ₚ l;
  sort_Slice_ordered : ∀ A (less : A → A → bool) (l : list A),
    transitive_ordering less l → ordered_by less (sort_Slice A less l)
}.
Arguments sort_Slice {_ A} less l.

(** An implementation: insertion sort. *)
Fixpoint insert_by {A} (less : A → A → bool) (x : A) (l : list A) : list A :=
  match l with
  | [] => [x]
  | y :: l' => if less x y then x :: y :: l' else y :: insert_by less x l'
  end.

Definition insertion_sort (A : Type) (less : A → A → bool) (l : list A) : list A :=
  foldr (insert_by less) [] l.

(** ** Children of a node *)

(** [node.children[char]] with its [exists] flag. *)
Fixpoint child_lookup {N} (char : rune) (cs : list (rune * N)) : option N :=
  match cs with
  | [] => None
  | (c, n) :: cs' => if c =? char then Some n else child_lookup char cs'
  end.

(** [node.children[char] = n]. *)
Fixpoint child_store {N} (char : rune) (n : N) (cs : list (rune * N)) : list (rune * N) :=
  match cs with
  | [] => [(char, n)]
  | (c, n') :: cs' =>
    if c =? char then (c, n) :: cs' else (c, n') :: child_store char n cs'
  end.

(** ** Algorithm 1: the contextual trie *)

#[local] Unset Elimination Schemes.
Inductive TrieNodeA1 : Type := mkTrieNodeA1 {
  children : list (rune * TrieNodeA1);
  isEnd : bool;
  frequency : Z
}.
#[local] Set Elimination Schemes.

Record TrieA1 : Type := mkTrieA1 {
  root : TrieNodeA1;
  bigramTable : gmap string (gmap string Z)
}.

(** The elements of the slices that [collectCompletions] and the ranking
    return. *)
Record completion : Type := mkCompletion { cword : string; cfrequency : Z }.
Record suggestion : Type := mkSuggestion { word : string; probability : float64 }.

Definition NewTrieNodeA1 : TrieNodeA1 :=
  {| children := []; isEnd := false; frequency := 0 |}.

Definition NewTrieA1 : TrieA1 :=
  {| root := NewTrieNodeA1; bigramTable := ∅ |}.

(** [m[key]] on a [map[string]int]: 0 when the key is missing. *)
Definition count_of (m : gmap string Z) (key : string) : Z := default 0 (m !! key).

Module TrieA1.

(** The walk of [Insert] along the runes of the word, from [node]. *)
Fixpoint insertRunes (path : list rune) (node : TrieNodeA1) : TrieNodeA1 :=
  match path with
  | [] =>
    {| children := children node;
       isEnd := true;
       frequency := wrap (frequency node + 1) |}
  | char :: path' =>
    let child :=
      match child_lookup char (children node) with
      | Some child => child
      | None => NewTrieNodeA1
      end in
    {| children := child_store char (insertRunes path' child) (children node);
       isEnd := isEnd node;
       frequency := frequency node |}
  end.

Definition Insert (t : TrieA1) (word : string) : TrieA1 :=
  {| root := insertRunes (range_string word) (root t);
     bigramTable := bigramTable t |}.

(** One iteration of the loop of [BuildBigramTable]. *)
Definition addBigram (word1 word2 : string)
    (table : gmap string (gmap string Z)) : gmap string (gmap string Z) :=
  let contextData :=
    match table !! word1 with
    | Some contextData => contextData
    | None => {[ "_total" := 0 ]}
    end in
  let contextData := <[ word2 := wrap (count_of contextData word2 + 1) ]> contextData in
  let contextData :=
    <[ "_total" := wrap (count_of contextData "_total" + 1) ]> contextData in
  <[ word1 := contextData ]> table.

(** [for i := 0; i < len(corpus)-1; i++]. *)
Definition bigramLoop (corpus : list string)
    (table : gmap string (gmap string Z)) : gmap string (gmap string Z) :=
  foldl (λ table i,
           match corpus !! i, corpus !! S i with
           | Some word1, Some word2 => addBigram word1 word2 table
           | _, _ => table
           end)
        table (seq 0 (Z.to_nat (len corpus - 1))).

Definition BuildBigramTable (t : TrieA1) (corpus : list string) : TrieA1 :=
  {| root := root t; bigramTable := bigramLoop corpus (bigramTable t) |}.

(** The walk of [searchPrefix]; [None] is the nil pointer. *)
Fixpoint descend (path : list rune) (node : TrieNodeA1) : option TrieNodeA1 :=
  match path with
  | [] => Some node
  | char :: path' =>
    match child_lookup char (children node) with
    | Some child => descend path' child
    | None => None
    end
  end.

Definition searchPrefix (t : TrieA1) (prefix : string) : option TrieNodeA1 :=
  descend (range_string prefix) (root t).

(** The closure [dfs] of [collectCompletions]; [results] is the captured
    variable it appends to. *)
Fixpoint dfs (currentNode : TrieNodeA1) (path : list rune)
    (results : list completion) : list completion :=
  let results :=
    if isEnd currentNode
    then results ++ [{| cword := string_of_runes path;
                        cfrequency := frequency currentNode |}]
    else results in
  (fix range_children (cs : list (rune * TrieNodeA1)) (results : list completion) :=
     match cs with
     | [] => results
     | (char, childNode) :: cs' =>
       range_children cs' (dfs childNode (path ++ [char]) results)
     end) (children currentNode) results.

Definition collectCompletions (t : TrieA1) (node : TrieNodeA1) (prefix : string)
    : list completion :=
  dfs node (range_string prefix) [].

Definition byProbability (a b : suggestion) : bool :=
  float64_gt (probability a) (probability b).

Definition rankByContextualProbability {sorter : SortSlice} (t : TrieA1) (prefix : string)
    (completions : list completion) : list suggestion :=
  match bigramTable t !! prefix with
  | Some contextData =>
    let totalFrequency := count_of contextData "_total" in
    let ranked :=
      foldl (λ ranked completion,
               let bigramFreq := count_of contextData (cword completion) in
               let probability :=
                 float64_div (float64_of_int bigramFreq)
                             (float64_of_int totalFrequency) in
               ranked ++ [{| word := cword completion; probability := probability |}])
            [] completions in
    sort_Slice byProbability ranked
  | None =>
    let totalFreq :=
      foldl (λ totalFreq completion, wrap (totalFreq + cfrequency completion))
            0 completions in
    let ranked :=
      foldl (λ ranked completion,
               let probability :=
                 float64_div (float64_of_int (cfrequency completion))
                             (float64_of_int totalFreq) in
               ranked ++ [{| word := cword completion; probability := probability |}])
            [] completions in
    sort_Slice byProbability ranked
  end.

Definition Autocomplete {sorter : SortSlice} (t : TrieA1) (prefix : string) (k : Z)
    : outcome (list suggestion) :=
  match searchPrefix t prefix with
  | None => Returns []
  | Some node =>
    let completions := collectCompletions t node prefix in
    let rankedCompletions := rankByContextualProbability t prefix completions in
    let k := if k >? len rankedCompletions then len rankedCompletions else k in
    slice_to rankedCompletions k
  end.

End TrieA1.

(** The elements the two loops of [rankByContextualProbability] append, and
    the total of its second branch. *)
Definition contextual_suggestion (contextData : gmap string Z) (c : completion)
    : suggestion :=
  {| word := cword c;
     probability :=
       float64_div (float64_of_int (count_of contextData (cword c)))
                   (float64_of_int (count_of contextData "_total")) |}.

Definition frequency_suggestion (totalFreq : Z) (c : completion) : suggestion :=
  {| word := cword c;
     probability :=
       float64_div (float64_of_int (cfrequency c)) (float64_of_int totalFreq) |}.

Definition totalFreq_of (completions : list completion) : Z :=
  foldl (λ totalFreq completion, wrap (totalFreq + cfrequency completion))
        0 completions.

(** What the traversal of [collectCompletions] finds below a node, in the
    order of the traversal. *)
Fixpoint completions_below (node : TrieNodeA1) (path : list rune) : list completion :=
  (if isEnd node
   then [{| cword := string_of_runes path; cfrequency := frequency node |}]
   else []) ++
  (fix range_children (cs : list (rune * TrieNodeA1)) :=
     match cs with
     | [] => []
     | (char, child) :: cs' =>
       completions_below child (path ++ [char]) ++ range_children cs'
     end) (children node).

(** The helper of the tests: insert every word, then count the bigrams. *)
Definition buildAlg1Trie (corpus : list string) : TrieA1 :=
  TrieA1.BuildBigramTable (foldl TrieA1.Insert NewTrieA1 corpus) corpus.

(** The corpus of the benchmark's [main]. *)
Definition corpus : list string :=
  ["hello"; "hell"; "helicopter"; "hero"; "world";
   "how"; "are"; "you"; "hello"; "war"; "hello"].

(** Observations on a trie: the frequency and the end-of-word flag stored
    for a word, and the paths of all nodes (the node set). *)
Definition frequencyOf (t : TrieA1) (w : string) : Z :=
  match TrieA1.searchPrefix t w with
  | Some node => frequency node
  | None => 0
  end.

Definition stored (t : TrieA1) (w : string) : bool :=
  match TrieA1.searchPrefix t w with
  | Some node => isEnd node
  | None => false
  end.

Fixpoint node_paths (node : TrieNodeA1) (path : list rune) : list (list rune) :=
  path ::
  (fix range_children (cs : list (rune * TrieNodeA1)) :=
     match cs with
     | [] => []
     | (char, child) :: cs' => node_paths child (path ++ [char]) ++ range_children cs'
     end) (children node).

(** The sum of all frequency counters below a node. *)
Fixpoint weight (node : TrieNodeA1) : Z :=
  frequency node +
  (fix range_children (cs : list (rune * TrieNodeA1)) :=
     match cs with
     | [] => 0
     | (_, child) :: cs' => weight child + range_children cs'
     end) (children node).

Definition Zsum (l : list Z) : Z := foldr Z.add 0 l.

(** A node that ends a word or has a child. *)
Definition live (node : TrieNodeA1) : Prop :=
  isEnd node = true ∨ children node ≠ [].

(** The shape [Insert] maintains: the counter of a node is at least 1 where
    a word ends and 0 elsewhere, and every node other than the root ends a
    word or has a child. *)
Fixpoint node_ok (node : TrieNodeA1) : Prop :=
  (if isEnd node then 1 ≤ frequency node else frequency node = 0) ∧
  (fix range_children (cs : list (rune * TrieNodeA1)) :=
     match cs with
     | [] => True
     | (_, child) :: cs' => (live child ∧ node_ok child) ∧ range_children cs'
     end) (children node).

Definition children_weight (cs : list (rune * TrieNodeA1)) : Z :=
  Zsum (map (λ entry, weight entry.2) cs).

(** Every aggregate of the table is at least 1 and at most [bound]. *)
Definition table_ok (bound : Z) (table : gmap string (gmap string Z)) : Prop :=
  ∀ word1 contextData, table !! word1 = Some contextData →
    1 ≤ count_of contextData "_total" ≤ bound.

(** One change of the iteration order of a children map, somewhere in the
    trie. *)
Inductive reorder : TrieNodeA1 → TrieNodeA1 → Prop :=
  | reorder_here cs cs' e f :
      cs ≡ₚ cs' →
      reorder (mkTrieNodeA1 cs e f) (mkTrieNodeA1 cs' e f)
  | reorder_child cs1 char child child' cs2 e f :
      reorder child child' →
      reorder (mkTrieNodeA1 (cs1 ++ (char, child) :: cs2) e f)
              (mkTrieNodeA1 (cs1 ++ (char, child') :: cs2) e f).

(** [built n m t]: the trie [t] results from [NewTrieA1] by [n] calls of
    [Insert] and calls of [BuildBigramTable] that counted [m] bigrams, with
    its maps iterated in any order. *)
Inductive built : nat → nat → TrieA1 → Prop :=
  | built_New : built 0 0 NewTrieA1
  | built_Insert n m t word :
      built n m t → built (S n) m (TrieA1.Insert t word)
  | built_BuildBigramTable n m t corpus :
      built n m t →
      built n (m + (length corpus - 1))%nat (TrieA1.BuildBigramTable t corpus)
  | built_reorder n m t root' :
      built n m t → reorder (root t) root' →
      built n m {| root := root'; bigramTable := bigramTable t |}.

(** The sum of the successor counts of one predecessor: all entries of its
    map but the aggregate. *)
Definition map_sum (m : gmap string Z) : Z :=
  map_fold (λ _ count acc, count + acc) 0 m.

Definition successor_sum (contextData : gmap string Z) : Z :=
  map_sum (delete "_total" contextData).

(** The aggregate of a predecessor is the sum of its successor counts; the
    counts are not negative and the aggregate is at most [bound]. *)
Definition context_sums (bound : Z) (contextData : gmap string Z) : Prop :=
  (∀ word2 count, contextData !! word2 = Some count → 0 ≤ count) ∧
  count_of contextData "_total" = successor_sum contextData ∧
  count_of contextData "_total" ≤ bound.

(** ** The ranking strategies as the specification words them *)

Definition sum_frequencies (completions : list completion) : Z :=
  foldr (λ c acc, cfrequency c + acc) 0 completions.

(** Frequency ranking: probability(word) = frequency(word) / sum of the
    frequencies of all completions, in descending order. *)
Definition spec_frequency_ranking {sorter : SortSlice} (completions : list completion)
    : list suggestion :=
  sort_Slice TrieA1.byProbability
    (map (λ c, {| word := cword c;
                  probability :=
                    float64_div (float64_of_int (cfrequency c))
                                (float64_of_int (sum_frequencies completions)) |})
         completions).

(** Contextual ranking: with an entry for the preceding word, probability(word)
    = bigramCount(precedingWord -> word) / bigramTotal(precedingWord); without
    one, or without a preceding word, frequency ranking. *)
Definition spec_contextual_ranking {sorter : SortSlice} (table : gmap string (gmap string Z))
    (precedingWord : option string) (completions : list completion)
    : list suggestion :=
  match precedingWord ≫= (λ w, table !! w) with
  | Some contextData =>
    sort_Slice TrieA1.byProbability
      (map (λ c, {| word := cword c;
                    probability :=
                      float64_div (float64_of_int (count_of contextData (cword c)))
                                  (float64_of_int (count_of contextData "_total")) |})
           completions)
  | None => spec_frequency_ranking completions
  end.

(** Autocomplete(prefix, precedingWord, k) of the specification. *)
Definition spec_Autocomplete {sorter : SortSlice} (t : TrieA1) (prefix : string)
    (precedingWord : option string) (k : Z) : list suggestion :=
  match TrieA1.searchPrefix t prefix with
  | None => []
  | Some node =>
    take (Z.to_nat k)
      (spec_contextual_ranking (bigramTable t) precedingWord
         (TrieA1.collectCompletions t node prefix))
  end.

(** The sum of the probabilities of a list, as the rational numbers the
    [float64] values stand for, and its distance from 1. *)
Definition probability_sum (l : list suggestion) : Q :=
  foldr (λ s acc, (float64_to_Q (probability s) + acc)%Q) 0%Q l.

Definition sums_to_one_within (tolerance : Q) (l : list suggestion) : Prop :=
  (Qabs (probability_sum l - 1) <= tolerance)%Q.

(** ** Algorithm 2: the frequency trie *)

Module TriesA2.

#[local] Unset Elimination Schemes.
Inductive NodeA2 : Type := mkNodeA2 {
  children : list (rune * NodeA2);
  isEndOfWord : bool;
  frequency : Z
}.
#[local] Set Elimination Schemes.

Record TriesA2 : Type := mkTriesA2 { root : NodeA2 }.

Definition initTriesA2 : TriesA2 :=
  {| root := {| isEndOfWord := false; children := []; frequency := 0 |} |}.

Fixpoint insertRunes (path : list rune) (current : NodeA2) : NodeA2 :=
  match path with
  | [] =>
    {| children := children current;
       isEndOfWord := true;
       frequency := wrap (frequency current + 1) |}
  | char :: path' =>
    let node :=
      match child_lookup char (children current) with
      | Some node => node
      | None => {| isEndOfWord := false; children := []; frequency := 0 |}
      end in
    {| children := child_store char (insertRunes path' node) (children current);
       isEndOfWord := isEndOfWord current;
       frequency := frequency current |}
  end.

Definition Insert (t : TriesA2) (word : string) : TriesA2 :=
  {| root := insertRunes (range_string word) (root t) |}.

Fixpoint descend (path : list rune) (current : NodeA2) : option NodeA2 :=
  match path with
  | [] => Some current
  | char :: path' =>
    match child_lookup char (children current) with
    | Some node => descend path' node
    | None => None
    end
  end.

Definition getFrequency (t : TriesA2) (word : string) : Z :=
  match descend (range_string word) (root t) with
  | Some current => frequency current
  | None => 0
  end.

(** [results] is the slice behind the pointer. *)
Fixpoint collectWordsA2 (node : NodeA2) (prefix : string) (results : list string)
    : list string :=
  let results := if isEndOfWord node then results ++ [prefix] else results in
  (fix range_children (cs : list (rune * NodeA2)) (results : list string) :=
     match cs with
     | [] => results
     | (char, child) :: cs' =>
       range_children cs'
         (collectWordsA2 child (String.append prefix (string_of_rune char)) results)
     end) (children node) results.

Definition Autocomplete {sorter : SortSlice} (t : TriesA2) (prefix : string) : list string :=
  match descend (range_string prefix) (root t) with
  | None => []
  | Some current =>
    let results := collectWordsA2 current prefix [] in
    let results :=
      sort_Slice (λ a b, getFrequency t a >? getFrequency t b) results in
    (* Limit to top 10 suggestions *)
    if len results >? 10 then take 10 results else results
  end.

End TriesA2.

Definition buildAlg2Trie (corpus : list string) : TriesA2.TriesA2 :=
  foldl TriesA2.Insert TriesA2.initTriesA2 corpus.

(** ** The trie of the terminal front end *)

Module Tries.

#[local] Unset Elimination Schemes.
Inductive Node : Type := mkNode {
  children : list (rune * Node);
  isEndOfWord : bool;
  frequency : Z
}.
#[local] Set Elimination Schemes.

Record Tries : Type := mkTries { root : Node }.

Definition initTries : Tries :=
  {| root := {| isEndOfWord := false; children := []; frequency := 0 |} |}.

Fixpoint insertRunes (path : list rune) (current : Node) : Node :=
  match path with
  | [] =>
    {| children := children current;
       isEndOfWord := true;
       frequency := wrap (frequency current + 1) |}
  | char :: path' =>
    let node :=
      match child_lookup char (children current) with
      | Some node => node
      | None => {| isEndOfWord := false; children := []; frequency := 0 |}
      end in
    {| children := child_store char (insertRunes path' node) (children current);
       isEndOfWord := isEndOfWord current;
       frequency := frequency current |}
  end.

Definition Insert (t : Tries) (word : string) : Tries :=
  {| root := insertRunes (range_string word) (root t) |}.

Fixpoint descend (path : list rune) (current : Node) : option Node :=
  match path with
  | [] => Some current
  | char :: path' =>
    match child_lookup char (children current) with
    | Some node => descend path' node
    | None => None
    end
  end.

Definition getFrequency (t : Tries) (word : string) : Z :=
  match descend (range_string word) (root t) with
  | Some current => frequency current
  | None => 0
  end.

Fixpoint collectWords (node : Node) (prefix : string) (results : list string)
    : list string :=
  let results := if isEndOfWord node then results ++ [prefix] else results in
  (fix range_children (cs : list (rune * Node)) (results : list string) :=
     match cs with
     | [] => results
     | (char, child) :: cs' =>
       range_children cs'
         (collectWords child (String.append prefix (string_of_rune char)) results)
     end) (children node) results.

Definition Autocomplete {sorter : SortSlice} (t : Tries) (prefix : string) : list string :=
  match descend (range_string prefix) (root t) with
  | None => []
  | Some current =>
    let results := collectWords current prefix [] in
    let results :=
      sort_Slice (λ a b, getFrequency t a >? getFrequency t b) results in
    (* Limit to top 10 suggestions *)
    if len results >? 10 then take 10 results else results
  end.

End Tries.

(** ** Unicode scalar values *)

(** The values [string(r)] encodes as they are: the code points outside the
    surrogate range. *)
Definition scalar_value (r : rune) : bool :=
  ((0 <=? r) && (r <? 0xD800)) || ((0xE000 <=? r) && (r <=? 0x10FFFF)).

(** The runes that two, three and four bytes decode to in [range_string],
    and their bits above the lowest six. *)
Definition rune2 (b0 b1 : Z) : rune :=
  Z.lor (Z.shiftl (Z.land b0 0x1F) 6) (Z.land b1 0x3F).

Definition rune3 (b0 b1 b2 : Z) : rune :=
  Z.lor (Z.lor (Z.shiftl (Z.land b0 0x0F) 12) (Z.shiftl (Z.land b1 0x3F) 6))
        (Z.land b2 0x3F).

Definition rune4 (b0 b1 b2 b3 : Z) : rune :=
  Z.lor (Z.lor (Z.lor (Z.shiftl (Z.land b0 0x07) 18) (Z.shiftl (Z.land b1 0x3F) 12))
               (Z.shiftl (Z.land b2 0x3F) 6))
        (Z.land b3 0x3F).

Definition high2 (b0 : Z) : Z := Z.land b0 0x1F.

Definition high3 (b0 b1 : Z) : Z :=
  Z.lor (Z.shiftl (Z.land b0 0x0F) 6) (Z.land b1 0x3F).

Definition high4 (b0 b1 b2 : Z) : Z :=
  Z.lor (Z.lor (Z.shiftl (Z.land b0 0x07) 12) (Z.shiftl (Z.land b1 0x3F) 6))
        (Z.land b2 0x3F).

(** A check of [f] on the [2 ^ depth] integers from [lo]. *)
Fixpoint forall_range (depth : nat) (lo : Z) (f : Z → bool) : bool :=
  match depth with
  | O => f lo
  | S d => forall_range d lo f && forall_range d (lo + 2 ^ Z.of_nat d) f
  end.

Definition is_byte (b : Z) : bool := (0 <=? b) && (b <? 256).

(** The last byte [string_of_rune] writes, for the lowest six bits [l] of the
    rune. *)
Definition last_byte_decodes (l : Z) : bool :=
  let b := Z.lor 0x80 l in
  is_byte b && continuation b && (Z.land b 0x3F =? l).

(** The bytes [string_of_rune] writes before the last one, for the bits [q]
    of the rune above the lowest six: a lead byte and continuation bytes
    that [range_string] accepts and decodes to [q]. *)
Definition encoding_decodes (q : Z) : bool :=
  if q <? 0x2 then true
  else if q <? 0x20 then
    let b0 := Z.lor 0xC0 q in
    (0xC2 <=? b0) && (b0 <=? 0xDF) && (high2 b0 =? q)
  else if q <? 0x400 then
    let b0 := Z.lor 0xE0 (Z.shiftr q 6) in
    let b1 := Z.lor 0x80 (Z.land q 0x3F) in
    between 0x360 0x37F q ||
    match acceptRange b0 with
    | Some (sz, lo, hi) =>
      (sz =? 3) && (0x80 <=? b0) && is_byte b0 && is_byte b1 && between lo hi b1 &&
      (high3 b0 b1 =? q)
    | None => false
    end
  else if q <? 0x4400 then
    let b0 := Z.lor 0xF0 (Z.shiftr q 12) in
    let b1 := Z.lor 0x80 (Z.land (Z.shiftr q 6) 0x3F) in
    let b2 := Z.lor 0x80 (Z.land q 0x3F) in
    match acceptRange b0 with
    | Some (sz, lo, hi) =>
      (sz =? 4) && (0x80 <=? b0) && is_byte b0 && is_byte b1 && between lo hi b1 &&
      is_byte b2 && continuation b2 && (high4 b0 b1 b2 =? q)
    | None => false
    end
  else true.

(** The scalar values, by their bits above the lowest six. *)
Definition scalar_high (q : Z) : bool :=
  ((0 <=? q) && (q <? 0x360)) || ((0x380 <=? q) && (q <? 0x4400)).

(** What [range_string] decodes from a lead byte and the bytes it accepts
    after it is a scalar value. *)
Definition decoding_scalar (b0 : Z) : bool :=
  match acceptRange b0 with
  | None => true
  | Some (sz, lo, hi) =>
    if sz =? 2 then scalar_high (high2 b0)
    else
      forall_range 8 0 (λ b1,
        negb (between lo hi b1) ||
        if sz =? 3 then scalar_high (high3 b0 b1)
        else
          forall_range 6 0x80 (λ b2, scalar_high (high4 b0 b1 b2)))
  end.

(** A string that is empty or begins with a byte that is no continuation
    byte. *)
Definition starts_rune (s : string) : bool :=
  match s with
  | EmptyString => true
  | String a _ => negb (continuation (byte_val a))
  end.

(** ** Words and keys of a trie *)

(** The keys of every children map are scalar values, each at most once:
    a Go map holds a key once, and the keys come from range loops. *)
Fixpoint well_keyed (node : TrieNodeA1) : Prop :=
  NoDup (map fst (children node)) ∧
  (fix range_children (cs : list (rune * TrieNodeA1)) :=
     match cs with
     | [] => True
     | (char, child) :: cs' =>
       (scalar_value char = true ∧ well_keyed child) ∧ range_children cs'
     end) (children node).

(** The words that end at or below a node, each as the runes from the node
    on and with its counter, in the order of the traversals. *)
Fixpoint stored_below (node : TrieNodeA1) : list (list rune * Z) :=
  (if isEnd node then [([], frequency node)] else []) ++
  (fix range_children (cs : list (rune * TrieNodeA1)) :=
     match cs with
     | [] => []
     | (char, child) :: cs' =>
       map (λ e, (char :: e.1, e.2)) (stored_below child) ++ range_children cs'
     end) (children node).

(** [inserted words node]: [node] is the root of a trie after [Insert] was
    called with the words of the list, one after the other, on a new trie,
    with its maps iterated in any order. *)
Inductive inserted : list string → TrieNodeA1 → Prop :=
  | inserted_New : inserted [] NewTrieNodeA1
  | inserted_Insert words node word :
      inserted words node →
      inserted (words ++ [word]) (TrieA1.insertRunes (range_string word) node)
  | inserted_reorder words node node' :
      inserted words node → reorder node node' → inserted words node'.

(** How many of the words range over the runes [path]. *)
Definition occurrences (words : list string) (path : list rune) : Z :=
  len (filter (λ w, range_string w = path) words).

(** What a walk observes at its end: the end-of-word flag and the counter,
    or nothing. *)
Definition observe (o : option TrieNodeA1) : bool * Z :=
  match o with Some n => (isEnd n, frequency n) | None => (false, 0) end.

(** ** Bigrams of a corpus *)

(** The adjacent pairs (corpus[i], corpus[i+1]). *)
Fixpoint pairs (corpus : list string) : list (string * string) :=
  match corpus with
  | [] => []
  | word1 :: rest =>
    match rest with
    | [] => []
    | word2 :: _ => (word1, word2) :: pairs rest
    end
  end.

(** How often [word2] comes right after [word1] in the corpus. *)
Definition bigram_count (corpus : list string) (word1 word2 : string) : Z :=
  len (filter (λ p, p = (word1, word2)) (pairs corpus)).

(** [t.bigramTable[word1][word2]], which reads 0 from a nil map. *)
Definition successor_count (table : gmap string (gmap string Z))
    (word1 word2 : string) : Z :=
  count_of (default ∅ (table !! word1)) word2.

(** ** The frequency tries as contextual tries *)

(** [NodeA2] and the [Node] of the front end have the fields of
    [TrieNodeA1]; [shapeA2] and [shapeTUI] give the node with the same
    fields, so that what is shown for one type of node holds for all. *)
Fixpoint shapeA2 (node : TriesA2.NodeA2) : TrieNodeA1 :=
  {| children :=
       (fix range_children (cs : list (rune * TriesA2.NodeA2)) :=
          match cs with
          | [] => []
          | (char, child) :: cs' => (char, shapeA2 child) :: range_children cs'
          end) (TriesA2.children node);
     isEnd := TriesA2.isEndOfWord node;
     frequency := TriesA2.frequency node |}.

Fixpoint shapeTUI (node : Tries.Node) : TrieNodeA1 :=
  {| children :=
       (fix range_children (cs : list (rune * Tries.Node)) :=
          match cs with
          | [] => []
          | (char, child) :: cs' => (char, shapeTUI child) :: range_children cs'
          end) (Tries.children node);
     isEnd := Tries.isEndOfWord node;
     frequency := Tries.frequency node |}.

(** ** Constants of [float64] *)

(** The constants [0.0] and [1.0]. *)
Definition float64_zero : float64 := S754_zero false.
Definition float64_one : float64 := S754_finite false 4503599627370496 (-52).

(** A number that is neither an infinity nor a NaN. *)
Definition float64_finite (x : float64) : bool :=
  match x with
  | S754_zero _ | S754_finite _ _ _ => true
  | _ => false
  end.

(** ** The metrics of the benchmark *)

(** The inner loop of [measureSuggestionQuality]: the first suggestion equal
    to [idw] counts one hit and ends the loop. *)
Fixpoint countHit (idw : string) (got : list string) (hitCount : Z) : Z :=
  match got with
  | [] => hitCount
  | gw :: got' =>
    if String.eqb gw idw then wrap (hitCount + 1) else countHit idw got' hitCount
  end.

Definition measureSuggestionQuality (got ideal : list string) : float64 :=
  if len ideal =? 0 then float64_one
  else
    let hitCount := foldl (λ hitCount idw, countHit idw got hitCount) 0 ideal in
    float64_div (float64_of_int hitCount) (float64_of_int (len ideal)).

(** The entries of [ideal] that occur in [got], each as often as it is
    listed in [ideal]. *)
Definition hits (got ideal : list string) : list string :=
  filter (λ idw, idw ∈ got) ideal.

(** Every count of the table is at most the aggregate of its predecessor,
    and the aggregates are between 1 and [bound]. *)
Definition counts_bounded (bound : Z) (table : gmap string (gmap string Z)) : Prop :=
  ∀ word1 contextData, table !! word1 = Some contextData →
    1 ≤ count_of contextData "_total" ≤ bound ∧
    ∀ word2, 0 ≤ count_of contextData word2 ≤ count_of contextData "_total".

(** ** The trie of the line-oriented demo ([main.go]) *)

Module MainTries.

#[local] Unset Elimination Schemes.
Inductive Node : Type := mkNode {
  children : list (rune * Node);
  isEndOfWord : bool
}.
#[local] Set Elimination Schemes.

Record Tries : Type := mkTries { root : Node }.

Definition initTries : Tries :=
  {| root := {| isEndOfWord := false; children := [] |} |}.

Fixpoint insertRunes (path : list rune) (current : Node) : Node :=
  match path with
  | [] => {| children := children current; isEndOfWord := true |}
  | char :: path' =>
    let node :=
      match child_lookup char (children current) with
      | Some node => node
      | None => {| isEndOfWord := false; children := [] |}
      end in
    {| children := child_store char (insertRunes path' node) (children current);
       isEndOfWord := isEndOfWord current |}
  end.

Definition Insert (t : Tries) (word : string) : Tries :=
  {| root := insertRunes (range_string word) (root t) |}.

Fixpoint descend (path : list rune) (current : Node) : option Node :=
  match path with
  | [] => Some current
  | char :: path' =>
    match child_lookup char (children current) with
    | Some node => descend path' node
    | None => None
    end
  end.

Definition Search (t : Tries) (word : string) : bool :=
  match descend (range_string word) (root t) with
  | Some current => isEndOfWord current
  | None => false
  end.

(** [results] is the slice behind the pointer. *)
Fixpoint collectWords (node : Node) (prefix : string) (results : list string)
    : list string :=
  let results := if isEndOfWord node then results ++ [prefix] else results in
  (fix range_children (cs : list (rune * Node)) (results : list string) :=
     match cs with
     | [] => results
     | (char, child) :: cs' =>
       range_children cs'
         (collectWords child (String.append prefix (string_of_rune char)) results)
     end) (children node) results.

Definition Autocomplete (t : Tries) (prefix : string) : list string :=
  match descend (range_string prefix) (root t) with
  | None => [] (* Prefix not found *)
  | Some current => collectWords current prefix []
  end.

End MainTries.

(** The node of [main.go] has the fields of [TrieNodeA1] but the counter:
    [plain node] is [node] without its counters. *)
Fixpoint plain (node : TrieNodeA1) : MainTries.Node :=
  {| MainTries.children :=
       (fix range_children (cs : list (rune * TrieNodeA1)) :=
          match cs with
          | [] => []
          | (char, child) :: cs' => (char, plain child) :: range_children cs'
          end) (children node);
     MainTries.isEndOfWord := isEnd node |}.

(** [holds words t]: [t] is a trie of [main.go] after [Insert] was called
    with the words of the list on the trie of [initTries], with its maps
    iterated in any order. *)
Definition holds (words : list string) (t : MainTries.Tries) : Prop :=
  ∃ node, inserted words node ∧ MainTries.root t = plain node.

(** ** [unicode], [utf8] and [strings] *)

(** [unicode.IsSpace]: the code points with the White_Space property. *)
Definition IsSpace (r : rune) : bool :=
  between 0x09 0x0D r || (r =? 0x20) || (r =? 0x85) || (r =? 0xA0) ||
  (r =? 0x1680) || between 0x2000 0x200A r || between 0x2028 0x2029 r ||
  (r =? 0x202F) || (r =? 0x205F) || (r =? 0x3000).

(** [utf8.DecodeRuneInString]: the first rune of a string and the number of
    bytes it takes, as in one step of a range loop. *)
Definition DecodeRuneInString (s : string) : rune * nat :=
  match s with
  | EmptyString => (RuneError, 0%nat)
  | String a0 s0 =>
    let b0 := byte_val a0 in
    if b0 <? 0x80 then (b0, 1%nat) else
    match acceptRange b0 with
    | None => (RuneError, 1%nat)
    | Some (sz, lo, hi) =>
      match s0 with
      | EmptyString => (RuneError, 1%nat)
      | String a1 s1 =>
        let b1 := byte_val a1 in
        if negb (between lo hi b1) then (RuneError, 1%nat)
        else if sz =? 2 then (rune2 b0 b1, 2%nat)
        else
        match s1 with
        | EmptyString => (RuneError, 1%nat)
        | String a2 s2 =>
          let b2 := byte_val a2 in
          if negb (continuation b2) then (RuneError, 1%nat)
          else if sz =? 3 then (rune3 b0 b1 b2, 3%nat)
          else
          match s2 with
          | EmptyString => (RuneError, 1%nat)
          | String a3 s3 =>
            let b3 := byte_val a3 in
            if negb (continuation b3) then (RuneError, 1%nat)
            else (rune4 b0 b1 b2 b3, 4%nat)
          end
        end
      end
    end
  end.

(** The loop of [strings.FieldsFunc(s, unicode.IsSpace)], byte by byte:
    [skip] is the number of bytes left of the rune at hand, [start] the
    field that has begun ([None] for [start < 0]), [spans] the fields that
    have ended. *)
Fixpoint fieldsLoop (s : string) (skip : nat) (start : option string)
    (spans : list string) : list string :=
  match s with
  | EmptyString =>
    match start with
    | Some field => spans ++ [field]
    | None => spans
    end
  | String a s' =>
    match skip with
    | S skip' =>
      fieldsLoop s' skip' (option_map (λ field, String.append field (String a "")) start)
                 spans
    | O =>
      let '(r, width) := DecodeRuneInString s in
      if IsSpace r then
        fieldsLoop s' (width - 1) None
                   (match start with
                    | Some field => spans ++ [field]
                    | None => spans
                    end)
      else
        fieldsLoop s' (width - 1)
                   (Some (String.append (default EmptyString start) (String a "")))
                   spans
    end
  end.

(** [strings.Fields(s)]: the substrings of [s] between runs of white
    space. *)
Definition Fields (s : string) : list string := fieldsLoop s 0 None [].

(** [strings.Join(elems, sep)]. *)
Fixpoint Join (elems : list string) (sep : string) : string :=
  match elems with
  | [] => EmptyString
  | e :: rest =>
    match rest with
    | [] => e
    | _ :: _ => String.append e (String.append sep (Join rest sep))
    end
  end.

(** [s[:len(s)-1]] for a string that is not empty: all bytes but the
    last. *)
Fixpoint drop_last_byte (s : string) : string :=
  match s with
  | EmptyString => EmptyString
  | String a s' =>
    match s' with
    | EmptyString => EmptyString
    | String _ _ => String a (drop_last_byte s')
    end
  end.

(** [len(s)] of a string, in bytes. *)
Definition strlen (s : string) : Z := Z.of_nat (String.length s).

(** ** The loop of the front end *)

Module FrontEnd.

(** The keys that the loop tells apart, and the events of termbox: a key
    event with its key and character, or an event of another type. *)
Inductive Key : Type :=
  | KeyEsc | KeyBackspace | KeyBackspace2 | KeySpace | KeyTab | KeyEnter | KeyOther.

Inductive Event : Type :=
  | EventKey (Key : Key) (Ch : rune)
  | EventOther.

(** The variables of [main]. *)
Record state : Type := mkState {
  trie : Tries.Tries;
  fullSentence : string;
  currentWord : string;
  suggestions : list string
}.

(** The loop goes on, or [main] returns. *)
Inductive control : Type :=
  | Continue (s : state)
  | Return (s : state).

Definition state_of (c : control) : state :=
  match c with Continue s | Return s => s end.

(** [main] before the loop. *)
Definition words : list string :=
  ["hello"; "hell"; "helicopter"; "hero"; "world"; "how"; "are"; "you"].

Definition initial : state :=
  {| trie := foldl Tries.Insert Tries.initTries words;
     fullSentence := EmptyString;
     currentWord := EmptyString;
     suggestions := [] |}.

(** The cases [KeySpace] and [KeyEnter]: finalize the current word. *)
Definition finalize (s : state) : state :=
  if decide (currentWord s ≠ EmptyString) then
    {| fullSentence :=
         String.append (fullSentence s) (String.append (currentWord s) " ");
       trie :=
         if Tries.getFrequency (trie s) (currentWord s) =? 0
         then Tries.Insert (trie s) (currentWord s)
         else trie s;
       currentWord := EmptyString;
       suggestions := suggestions s |}
  else s.

(** The cases [KeyBackspace] and [KeyBackspace2]. *)
Definition backspace (s : state) : state :=
  if strlen (currentWord s) >? 0 then
    {| trie := trie s;
       fullSentence := fullSentence s;
       currentWord := drop_last_byte (currentWord s);
       suggestions := suggestions s |}
  else if strlen (fullSentence s) >? 0 then
    let words := Fields (fullSentence s) in
    if len words >? 0 then
      {| trie := trie s;
         fullSentence := Join (removelast words) " ";
         currentWord := List.last words EmptyString;
         suggestions := suggestions s |}
    else s
  else s.

(** One pass through the loop after [PollEvent] returned [ev]. *)
Definition onEvent {sorter : SortSlice} (s : state) (ev : Event) : control :=
  match ev with
  | EventOther => Continue s
  | EventKey key ch =>
    let update (s' : state) : control :=
      Continue {| trie := trie s';
                  fullSentence := fullSentence s';
                  currentWord := currentWord s';
                  suggestions := Tries.Autocomplete (trie s') (currentWord s') |} in
    match key with
    | KeyEsc => Return s
    | KeyBackspace | KeyBackspace2 => update (backspace s)
    | KeySpace => update (finalize s)
    | KeyTab =>
      update (match suggestions s with
              | top :: _ =>
                {| trie := trie s;
                   fullSentence := fullSentence s;
                   currentWord := top;
                   suggestions := suggestions s |}
              | [] => s
              end)
    | KeyEnter => Return (finalize s)
    | KeyOther =>
      update (if ch =? 0 then s
              else {| trie := trie s;
                      fullSentence := fullSentence s;
                      currentWord := String.append (currentWord s) (string_of_rune ch);
                      suggestions := suggestions s |})
    end
  end.

(** The loop on the events that [PollEvent] returns one after the other. *)
Fixpoint run {sorter : SortSlice} (s : state) (events : list Event) : control :=
  match events with
  | [] => Continue s
  | ev :: events' =>
    match onEvent s ev with
    | Continue s' => run s' events'
    | Return s' => Return s'
    end
  end.

End FrontEnd.

(** Every counter of the trie is 0 where no word ends and 1 where one
    does. *)
Definition binary (node : TrieNodeA1) : Prop :=
  ∀ path,
    observe (TrieA1.descend path node) = (false, 0) ∨
    observe (TrieA1.descend path node) = (true, 1).

(** What every pass through the loop keeps: the counters are 0 or 1, and
    the suggestions begin with the current word. *)
Definition consistent (s : FrontEnd.state) : Prop :=
  binary (shapeTUI (Tries.root (FrontEnd.trie s))) ∧
  Forall (λ w, HasPrefix w (FrontEnd.currentWord s) = true) (FrontEnd.suggestions s).

(** The sentence after the words of a list were finalized one after the
    other: each word followed by a space. *)
Fixpoint typed (words : list string) : string :=
  match words with
  | [] => EmptyString
  | w :: words' => String.append w (String.append " " (typed words'))
  end.

(** A word as the front end can finalize it: not empty, and with no white
    space among its runes. *)
Definition spaceless (w : string) : Prop :=
  w ≠ EmptyString ∧ Forall (λ r, IsSpace r = false) (range_string w).


(** * Lemmas *)

(** ** UTF-8 *)

Example range_ascii : range_string "he" = [104; 101].
Proof. reflexivity. Qed.

Example range_two_bytes : range_string (bytes [0xC3; 0xA9]) = [0xE9].
Proof. reflexivity. Qed.

Example range_three_bytes : range_string (bytes [0xE2; 0x82; 0xAC]) = [0x20AC].
Proof. reflexivity. Qed.

Example range_four_bytes :
  range_string (bytes [0xF0; 0x9F; 0x98; 0x80]) = [0x1F600].
Proof. reflexivity. Qed.

Example range_invalid : range_string (bytes [0xFF; 0x68]) = [RuneError; 104].
Proof. reflexivity. Qed.

Example range_truncated : range_string (bytes [0xE2; 0x82]) = [RuneError; RuneError].
Proof. reflexivity. Qed.

Example string_of_runes_euro :
  string_of_runes [104; 0x20AC; 0x1F600] =
  bytes [104; 0xE2; 0x82; 0xAC; 0xF0; 0x9F; 0x98; 0x80].
Proof. reflexivity. Qed.

Lemma byte_of_val a : byte_of (byte_val a) = a.
Proof. unfold byte_of, byte_val. by rewrite N2Z.id, ascii_N_embedding. Qed.

Lemma byte_val_range a : 0 ≤ byte_val a < 256.
Proof.
  unfold byte_val. pose proof (N_ascii_bounded a) as Hb. lia.
Qed.

(** A string of ASCII bytes is valid UTF-8. *)
Lemma valid_utf8_ascii (s : string) :
  Forall (λ a, byte_val a < 0x80) (String.list_ascii_of_string s) → valid_utf8 s.
Proof.
  unfold valid_utf8. induction s as [|a s IH]; simpl; [done|].
  intros [Ha Hs]%Forall_cons.
  pose proof (byte_val_range a) as Hr.
  destruct (Z.ltb_spec (byte_val a) 128) as [_|?]; [|lia].
  simpl. unfold string_of_rune.
  destruct (Z.leb_spec 0 (byte_val a)) as [_|?]; [|lia].
  destruct (Z.ltb_spec (byte_val a) 128) as [_|?]; [|lia].
  unfold bytes. simpl map. rewrite byte_of_val. simpl.
  change (String a (string_of_runes (range_string s)) = String a s).
  by rewrite IH.
Qed.

Example valid_utf8_two_bytes : valid_utf8 (bytes [0x68; 0xC3; 0xA9]).
Proof. reflexivity. Qed.

Example invalid_utf8_byte :
  string_of_runes (range_string (bytes [0xFF])) = bytes [0xEF; 0xBF; 0xBD].
Proof. reflexivity. Qed.

(** ** Strings *)

Lemma append_cons (a : ascii) (s x : string) :
  String.append (String a s) x = String a (String.append s x).
Proof. reflexivity. Qed.

Lemma append_empty (x : string) : String.append EmptyString x = x.
Proof. reflexivity. Qed.

Lemma HasPrefix_append (p x : string) : HasPrefix (String.append p x) p = true.
Proof.
  induction p as [|a p IH]; [done|].
  rewrite append_cons. simpl. by rewrite Ascii.eqb_refl, IH.
Qed.

Lemma append_assoc (a b c : string) :
  String.append (String.append a b) c = String.append a (String.append b c).
Proof.
  induction a as [|x a IH]; [done|]. rewrite !append_cons. by rewrite IH.
Qed.

Lemma string_of_runes_app (p q : list rune) :
  string_of_runes (p ++ q) = String.append (string_of_runes p) (string_of_runes q).
Proof.
  induction p as [|r p IH]; simpl; [done|]. rewrite IH. symmetry. apply append_assoc.
Qed.

(** ** Machine integers *)

Lemma wrap_in_range z : int_min ≤ z ≤ int_max → wrap z = z.
Proof.
  unfold wrap, int_min, int_max. intros Hz.
  rewrite Z.mod_small; lia.
Qed.

Lemma wrap_range z : int_min ≤ wrap z ≤ int_max.
Proof.
  unfold wrap, int_min, int_max.
  pose proof (Z.mod_pos_bound (z + 2 ^ 63) (2 ^ 64)). lia.
Qed.

(** ** Children *)

Section children.
Context {N : Type}.
Implicit Types (cs : list (rune * N)) (n : N) (c : rune).

Lemma child_lookup_store_eq c n cs : child_lookup c (child_store c n cs) = Some n.
Proof.
  induction cs as [|[c0 n0] cs IH]; simpl.
  - by rewrite Z.eqb_refl.
  - destruct (Z.eqb_spec c0 c) as [->|Hne]; simpl.
    + by rewrite Z.eqb_refl.
    + by destruct (Z.eqb_spec c0 c).
Qed.

Lemma child_lookup_store_ne c c' n cs :
  c ≠ c' → child_lookup c' (child_store c n cs) = child_lookup c' cs.
Proof.
  intros Hne. induction cs as [|[c0 n0] cs IH]; simpl.
  - by destruct (Z.eqb_spec c c').
  - destruct (Z.eqb_spec c0 c) as [->|Hne0]; simpl.
    + by destruct (Z.eqb_spec c c').
    + by destruct (Z.eqb_spec c0 c').
Qed.

(** Storing under a key that is present replaces one entry in place. *)
Lemma child_store_present c n n' cs :
  child_lookup c cs = Some n →
  ∃ cs1 cs2, cs = cs1 ++ (c, n) :: cs2 ∧ child_store c n' cs = cs1 ++ (c, n') :: cs2.
Proof.
  induction cs as [|[c0 n0] cs IH]; simpl; [done|].
  destruct (Z.eqb_spec c0 c) as [->|Hne].
  - intros [= ->]. by exists [], cs.
  - intros (cs1 & cs2 & -> & ->)%IH. by exists ((c0, n0) :: cs1), cs2.
Qed.

(** Storing under a key that is absent adds one entry. *)
Lemma child_store_absent c n' cs :
  child_lookup c cs = None → child_store c n' cs = cs ++ [(c, n')].
Proof.
  induction cs as [|[c0 n0] cs IH]; simpl; [done|].
  destruct (Z.eqb_spec c0 c) as [->|Hne]; [done|].
  intros ->%IH. done.
Qed.
End children.

(** ** [Insert] *)

Lemma node_paths_unfold node path :
  node_paths node path =
  path :: concat (map (λ entry, node_paths entry.2 (path ++ [entry.1])) (children node)).
Proof.
  destruct node as [cs e f]; simpl. f_equal.
  induction cs as [|[c child] cs IH]; simpl; [done|]. by rewrite IH.
Qed.

Lemma descend_New path :
  default NewTrieNodeA1 (TrieA1.descend path NewTrieNodeA1) = NewTrieNodeA1.
Proof. by destruct path. Qed.

(** The node that [Insert] reaches and updates. *)
Lemma descend_insertRunes path : ∀ node,
  TrieA1.descend path (TrieA1.insertRunes path node) =
  let target := default NewTrieNodeA1 (TrieA1.descend path node) in
  Some {| children := children target;
          isEnd := true;
          frequency := wrap (frequency target + 1) |}.
Proof.
  induction path as [|c path IH]; intros node; simpl; [done|].
  rewrite child_lookup_store_eq, IH. simpl.
  destruct (child_lookup c (children node)) as [child|]; [done|].
  by rewrite descend_New.
Qed.

(** What is stored at every other path stays what it is; a path that is new
    holds no word. *)
Lemma descend_insertRunes_other path : ∀ path' node,
  path' ≠ path →
  let observe (o : option TrieNodeA1) :=
    match o with Some n => (isEnd n, frequency n) | None => (false, 0) end in
  observe (TrieA1.descend path' (TrieA1.insertRunes path node)) =
  observe (TrieA1.descend path' node).
Proof.
  induction path as [|c path IH]; intros path' node Hne; simpl.
  - destruct path' as [|c' path']; [done|]. done.
  - destruct path' as [|c' path']; [done|]. simpl.
    destruct (decide (c = c')) as [<-|Hc].
    + rewrite child_lookup_store_eq.
      assert (Hne' : path' ≠ path) by congruence.
      specialize (IH path'). simpl in IH. rewrite IH by done.
      destruct (child_lookup c (children node)) as [child|]; [done|].
      by destruct path'.
    + by rewrite child_lookup_store_ne.
Qed.

(** Inserting along a path that exists creates no node. *)
Lemma node_paths_insertRunes path : ∀ node p0,
  is_Some (TrieA1.descend path node) →
  node_paths (TrieA1.insertRunes path node) p0 = node_paths node p0.
Proof.
  induction path as [|c path IH]; intros node p0 Hsome.
  - by rewrite !node_paths_unfold.
  - simpl in Hsome. rewrite !(node_paths_unfold _ p0). simpl.
    destruct (child_lookup c (children node)) as [child|] eqn:Hchild;
      [|by destruct Hsome].
    destruct (child_store_present c child (TrieA1.insertRunes path child) _ Hchild)
      as (cs1 & cs2 & -> & ->).
    rewrite !map_app. simpl. by rewrite IH.
Qed.

(** ** Insertion sort implements [sort.Slice] *)

Section insertion_sort.
Context {A : Type} (less : A → A → bool).

Lemma insert_by_perm x l : insert_by less x l ≡ₚ x :: l.
Proof.
  induction l as [|y l IH]; simpl; [done|].
  destruct (less x y); [done|].
  rewrite IH. apply Permutation_swap.
Qed.

Lemma insertion_sort_perm l : insertion_sort A less l ≡ₚ l.
Proof.
  induction l as [|x l IH]; simpl; [done|].
  fold (insertion_sort A less l). by rewrite insert_by_perm, IH.
Qed.

Lemma transitive_ordering_perm l l' :
  l ≡ₚ l' → transitive_ordering less l → transitive_ordering less l'.
Proof.
  intros Hp (Hirr & Htr & Hntr).
  repeat split; intros *; rewrite <- !Hp; eauto.
Qed.

Lemma transitive_ordering_tail x l :
  transitive_ordering less (x :: l) → transitive_ordering less l.
Proof.
  intros (Hirr & Htr & Hntr).
  repeat split; intros; [apply Hirr|eapply Htr|eapply Hntr];
    try eassumption; by constructor.
Qed.

Lemma insert_by_ordered x l :
  transitive_ordering less (x :: l) →
  ordered_by less l → ordered_by less (insert_by less x l).
Proof.
  unfold ordered_by. intros Hto Hl.
  induction l as [|y l IH]; simpl.
  - repeat constructor.
  - destruct Hto as (Hirr & Htr & Hntr).
    apply StronglySorted_inv in Hl as [Hl Hy].
    destruct (less x y) eqn:Hxy.
    + assert (Hyx : less y x = false).
      { destruct (less y x) eqn:Hyx; [|done].
        rewrite <- (Hirr x) by set_solver.
        symmetry. apply (Htr x y x); set_solver. }
      constructor; [by constructor|].
      constructor; [done|].
      rewrite Forall_forall in Hy |- *. intros z Hz.
      apply (Hntr z y x); [set_solver..| |done]. by apply Hy.
    + constructor.
      * apply IH; [|done].
        repeat split; intros;
          [apply Hirr|eapply Htr|eapply Hntr]; try eassumption; set_solver.
      * rewrite insert_by_perm. by constructor.
Qed.

Lemma insertion_sort_ordered l :
  transitive_ordering less l → ordered_by less (insertion_sort A less l).
Proof.
  induction l as [|x l IH]; intros Hto; simpl.
  - constructor.
  - fold (insertion_sort A less l). apply insert_by_ordered.
    + eapply transitive_ordering_perm; [|done].
      by rewrite insertion_sort_perm.
    + apply IH. by eapply transitive_ordering_tail.
Qed.
End insertion_sort.

(** Insertion sort as the [sort.Slice] of the examples. *)
Definition insertion_SortSlice : SortSlice :=
  {| sort_Slice := insertion_sort;
     sort_Slice_perm := @insertion_sort_perm;
     sort_Slice_ordered := @insertion_sort_ordered |}.

(** ** Induction on trie nodes *)

Section node_induction.
Variable P : TrieNodeA1 → Prop.
Hypothesis step : ∀ cs e f,
  Forall (λ entry, P entry.2) cs → P (mkTrieNodeA1 cs e f).

Fixpoint TrieNodeA1_ind (node : TrieNodeA1) : P node :=
  match node with
  | mkTrieNodeA1 cs e f =>
    step cs e f
      ((fix all (cs : list (rune * TrieNodeA1)) : Forall (λ entry, P entry.2) cs :=
          match cs with
          | [] => List.Forall_nil _
          | (char, child) :: cs' =>
            @List.Forall_cons _ (λ entry, P entry.2) (char, child) cs' (TrieNodeA1_ind child) (all cs')
          end) cs)
  end.
End node_induction.

(** ** Slices *)

Lemma len_nonneg {A} (s : list A) : 0 ≤ len s.
Proof. unfold len. lia. Qed.

Lemma slice_to_zero {A} (s : list A) : slice_to s 0 = Returns [].
Proof. done. Qed.

Lemma slice_to_negative {A} (s : list A) k : k < 0 → slice_to s k = Panics.
Proof. intros Hk. unfold slice_to. by rewrite (proj2 (Z.ltb_lt k 0) Hk). Qed.

Lemma slice_to_Returns {A} (s r : list A) k :
  slice_to s k = Returns r → 0 ≤ k ∧ r = take (Z.to_nat k) s.
Proof.
  unfold slice_to. destruct (Z.ltb_spec k 0); [done|].
  intros [= <-]. done.
Qed.

Lemma elem_of_take_list {A} (x : A) n (l : list A) : x ∈ take n l → x ∈ l.
Proof. intros (i & Hi & _)%elem_of_take. by eapply list_elem_of_lookup_2. Qed.

(** ** The traversal *)

Lemma foldl_snoc_map {A B} (f : A → B) (l : list A) (acc : list B) :
  foldl (λ acc a, acc ++ [f a]) acc l = acc ++ map f l.
Proof.
  revert acc. induction l as [|a l IH]; intros acc; simpl.
  - by rewrite app_nil_r.
  - by rewrite IH, <- app_assoc.
Qed.

Lemma elem_of_concat {A} (x : A) (ls : list (list A)) :
  x ∈ concat ls ↔ ∃ l, x ∈ l ∧ l ∈ ls.
Proof.
  induction ls as [|l ls IH]; simpl.
  - split; [by intros ?%elem_of_nil|]. by intros (? & _ & ?%elem_of_nil).
  - rewrite elem_of_app, IH. split.
    + intros [?|(l' & ? & ?)]; [exists l|exists l']; split; try done;
        by constructor.
    + intros (l' & Hx & [->|?]%elem_of_cons); eauto.
Qed.

Lemma completions_below_unfold node path :
  completions_below node path =
  (if isEnd node
   then [{| cword := string_of_runes path; cfrequency := frequency node |}]
   else []) ++
  concat (map (λ entry, completions_below entry.2 (path ++ [entry.1])) (children node)).
Proof.
  destruct node as [cs e f]; simpl. f_equal.
  induction cs as [|[c child] cs IH]; simpl; [done|]. by rewrite IH.
Qed.

Lemma dfs_completions_below node : ∀ path results,
  TrieA1.dfs node path results = results ++ completions_below node path.
Proof.
  induction node as [cs e f IH] using TrieNodeA1_ind. intros path results.
  rewrite completions_below_unfold. simpl.
  set (r0 := if e then _ else _).
  set (c0 := if e then _ else _).
  assert (Hr0 : r0 = results ++ c0).
  { subst r0 c0. destruct e; [done|by rewrite app_nil_r]. }
  rewrite app_assoc, <- Hr0. clear Hr0 c0. generalize r0. clear r0.
  induction IH as [|[c child] cs Hchild _ IHcs]; intros r0; simpl.
  - by rewrite app_nil_r.
  - rewrite IHcs, Hchild. by rewrite <- app_assoc.
Qed.

Lemma collectCompletions_below t node prefix :
  TrieA1.collectCompletions t node prefix =
  completions_below node (range_string prefix).
Proof. unfold TrieA1.collectCompletions. by rewrite dfs_completions_below. Qed.

(** Every completion found below a node spells the path to the node and
    then some more runes. *)
Lemma completions_below_path node : ∀ path c,
  c ∈ completions_below node path →
  ∃ ext, cword c = string_of_runes (path ++ ext).
Proof.
  induction node as [cs e f IH] using TrieNodeA1_ind. intros path c.
  rewrite completions_below_unfold. simpl.
  rewrite elem_of_app. intros [Hc|Hc].
  - destruct e; [|by apply elem_of_nil in Hc].
    apply list_elem_of_singleton in Hc as ->. exists []. by rewrite app_nil_r.
  - apply elem_of_concat in Hc as (l & Hc & Hl).
    apply list_elem_of_fmap in Hl as ([char child] & -> & Hin).
    rewrite Forall_forall in IH.
    destruct (IH _ Hin _ _ Hc) as [ext Hext].
    exists (char :: ext). by rewrite Hext, <- app_assoc.
Qed.

(** ** The ranking *)

Section ranking.
Context {sorter : SortSlice}.

Lemma rank_unfold t prefix completions :
  TrieA1.rankByContextualProbability t prefix completions =
  match bigramTable t !! prefix with
  | Some contextData =>
    sort_Slice TrieA1.byProbability
      (map (contextual_suggestion contextData) completions)
  | None =>
    sort_Slice TrieA1.byProbability
      (map (frequency_suggestion (totalFreq_of completions)) completions)
  end.
Proof.
  unfold TrieA1.rankByContextualProbability.
  destruct (bigramTable t !! prefix) as [contextData|].
  - by rewrite (foldl_snoc_map (contextual_suggestion contextData)).
  - by rewrite (foldl_snoc_map (frequency_suggestion (totalFreq_of completions))).
Qed.

Lemma rank_perm t prefix completions :
  ∃ f, TrieA1.rankByContextualProbability t prefix completions ≡ₚ map f completions
       ∧ ∀ c, word (f c) = cword c.
Proof.
  rewrite rank_unfold. destruct (bigramTable t !! prefix) as [contextData|].
  - exists (contextual_suggestion contextData). split; [apply sort_Slice_perm|done].
  - eexists (frequency_suggestion _). split; [apply sort_Slice_perm|done].
Qed.

Lemma rank_length t prefix completions :
  length (TrieA1.rankByContextualProbability t prefix completions) = length completions.
Proof.
  destruct (rank_perm t prefix completions) as (f & Hp & _).
  by rewrite Hp, length_map.
Qed.

Lemma rank_words t prefix completions s :
  s ∈ TrieA1.rankByContextualProbability t prefix completions →
  ∃ c, c ∈ completions ∧ word s = cword c.
Proof.
  destruct (rank_perm t prefix completions) as (f & Hp & Hf).
  rewrite Hp. intros (c & -> & Hc)%list_elem_of_fmap. eauto.
Qed.

(** What [Autocomplete] returns when the prefix is found. *)
Lemma Autocomplete_found t prefix k node res :
  TrieA1.searchPrefix t prefix = Some node →
  TrieA1.Autocomplete t prefix k = Returns res →
  0 ≤ k ∧
  res = take (Z.to_nat k)
          (TrieA1.rankByContextualProbability t prefix
             (completions_below node (range_string prefix))).
Proof.
  unfold TrieA1.Autocomplete. intros ->. rewrite collectCompletions_below.
  set (ranked := TrieA1.rankByContextualProbability _ _ _).
  pose proof (len_nonneg ranked) as Hlen.
  destruct (Z.gtb_spec k (len ranked)) as [Hk|Hk].
  - intros [_ ->]%slice_to_Returns. split; [lia|].
    unfold len in *. rewrite Nat2Z.id. rewrite !take_ge; [done|lia..].
  - intros [? ->]%slice_to_Returns. done.
Qed.

Lemma Autocomplete_negative t prefix k node :
  TrieA1.searchPrefix t prefix = Some node → k < 0 →
  TrieA1.Autocomplete t prefix k = Panics.
Proof.
  unfold TrieA1.Autocomplete. intros -> Hk.
  set (ranked := TrieA1.rankByContextualProbability _ _ _).
  pose proof (len_nonneg ranked).
  destruct (Z.gtb_spec k (len ranked)); [lia|]. by apply slice_to_negative.
Qed.

Lemma Autocomplete_zero t prefix : TrieA1.Autocomplete t prefix 0 = Returns [].
Proof.
  unfold TrieA1.Autocomplete. destruct (TrieA1.searchPrefix t prefix); [|done].
  set (ranked := TrieA1.rankByContextualProbability _ _ _).
  pose proof (len_nonneg ranked).
  by destruct (Z.gtb_spec 0 (len ranked)); [lia|].
Qed.
End ranking.

(** ** The bigram table *)

(** The loop of [BuildBigramTable] visits the adjacent pairs from left to
    right. *)
Lemma bigramLoop_nil table : TrieA1.bigramLoop [] table = table.
Proof. done. Qed.

Lemma bigramLoop_single w table : TrieA1.bigramLoop [w] table = table.
Proof. done. Qed.

Lemma bigramLoop_cons w1 w2 corpus table :
  TrieA1.bigramLoop (w1 :: w2 :: corpus) table =
  TrieA1.bigramLoop (w2 :: corpus) (TrieA1.addBigram w1 w2 table).
Proof.
  unfold TrieA1.bigramLoop, len.
  replace (Z.to_nat (Z.of_nat (length (w1 :: w2 :: corpus)) - 1))
    with (S (length corpus)) by (simpl; lia).
  replace (Z.to_nat (Z.of_nat (length (w2 :: corpus)) - 1))
    with (length corpus) by (simpl; lia).
  rewrite <- cons_seq. simpl. rewrite <- fmap_S_seq.
  generalize (TrieA1.addBigram w1 w2 table) as tbl.
  generalize (seq 0 (length corpus)) as idx.
  induction idx as [|i idx IH]; intros tbl; simpl; [done|]. by rewrite IH.
Qed.

Lemma map_sum_empty : map_sum ∅ = 0.
Proof. apply map_fold_empty. Qed.

Lemma map_sum_insert_fresh k v m :
  m !! k = None → map_sum (<[k := v]> m) = v + map_sum m.
Proof.
  intros Hk. unfold map_sum. rewrite map_fold_insert_L; [done| |done].
  intros. lia.
Qed.

Lemma map_sum_delete k v m :
  m !! k = Some v → map_sum m = v + map_sum (delete k m).
Proof.
  intros Hk. unfold map_sum. rewrite (map_fold_delete_L _ _ k v); [done| |done].
  intros. lia.
Qed.

Lemma map_sum_insert k v m :
  map_sum (<[k := v]> m) = v + map_sum m - count_of m k.
Proof.
  unfold count_of. destruct (m !! k) as [v0|] eqn:Hk; simpl.
  - rewrite <- (insert_delete_eq m k v).
    rewrite map_sum_insert_fresh by apply lookup_delete_eq.
    rewrite (map_sum_delete k v0 m Hk). lia.
  - rewrite map_sum_insert_fresh by done. lia.
Qed.

Lemma map_sum_bound k m :
  (∀ j v, m !! j = Some v → 0 ≤ v) → 0 ≤ count_of m k ≤ map_sum m.
Proof.
  intros Hpos.
  assert (Hsum : ∀ m' : gmap string Z, (∀ j v, m' !! j = Some v → 0 ≤ v) → 0 ≤ map_sum m').
  { intros m'. induction m' as [|j v m' Hj IH] using map_ind; intros Hm'.
    - by rewrite map_sum_empty.
    - rewrite map_sum_insert_fresh by done.
      assert (0 ≤ v) by (apply (Hm' j); apply lookup_insert_eq).
      assert (0 ≤ map_sum m'); [|lia].
      apply IH. intros j' v' Hj'. apply (Hm' j').
      rewrite lookup_insert_ne; [done|]. intros ->. congruence. }
  unfold count_of. destruct (m !! k) as [v|] eqn:Hk; simpl.
  - rewrite (map_sum_delete k v m Hk).
    assert (0 ≤ v) by eauto.
    assert (0 ≤ map_sum (delete k m)); [|lia].
    apply Hsum. intros j v' Hj. apply (Hpos j).
    by apply lookup_delete_Some in Hj as [_ ?].
  - split; [done|]. by apply Hsum.
Qed.

Lemma count_of_insert_eq k v (m : gmap string Z) : count_of (<[k := v]> m) k = v.
Proof. unfold count_of. by rewrite lookup_insert_eq. Qed.

Lemma count_of_insert_ne k k' v (m : gmap string Z) :
  k ≠ k' → count_of (<[k := v]> m) k' = count_of m k'.
Proof. intros. unfold count_of. by rewrite lookup_insert_ne. Qed.

Lemma count_of_delete_ne k k' (m : gmap string Z) :
  k ≠ k' → count_of (delete k m) k' = count_of m k'.
Proof. intros. unfold count_of. by rewrite lookup_delete_ne. Qed.

(** The context map of [word1] after one more bigram. *)
Lemma addBigram_lookup word1 word2 table w :
  TrieA1.addBigram word1 word2 table !! w =
  if decide (word1 = w) then
    let contextData := default {[ "_total" := 0 ]} (table !! word1) in
    let contextData :=
      <[ word2 := wrap (count_of contextData word2 + 1) ]> contextData in
    Some (<[ "_total" := wrap (count_of contextData "_total" + 1) ]> contextData)
  else table !! w.
Proof.
  unfold TrieA1.addBigram. rewrite lookup_insert.
  destruct (decide (word1 = w)); [|done]. by destruct (table !! word1).
Qed.

Lemma context_sums_fresh : context_sums 0 {[ "_total" := 0 ]}.
Proof.
  split; [|split].
  - intros k v [_ <-]%lookup_singleton_Some. done.
  - unfold successor_sum. by rewrite delete_singleton_eq, map_sum_empty.
  - done.
Qed.

Lemma context_sums_weaken b b' contextData :
  b ≤ b' → context_sums b contextData → context_sums b' contextData.
Proof. intros ? (? & ? & ?). split; [done|split; [done|lia]]. Qed.

(** Counting a successor other than the reserved key keeps the aggregate
    equal to the sum. *)
Lemma context_sums_step b word2 contextData :
  word2 ≠ "_total" → b < int_max → context_sums b contextData →
  let contextData1 := <[ word2 := wrap (count_of contextData word2 + 1) ]> contextData in
  context_sums (b + 1)
    (<[ "_total" := wrap (count_of contextData1 "_total" + 1) ]> contextData1) ∧
  1 ≤ wrap (count_of contextData1 "_total" + 1).
Proof.
  intros Hw2 Hb (Hpos & Hsum & Hbound). simpl.
  assert (Hc : 0 ≤ count_of contextData word2 ≤ successor_sum contextData).
  { rewrite <- (count_of_delete_ne "_total" word2) by done.
    apply map_sum_bound. intros j v Hj. apply (Hpos j).
    by apply lookup_delete_Some in Hj as [_ ?]. }
  assert (Ht : 0 ≤ count_of contextData "_total") by lia.
  rewrite (count_of_insert_ne word2 "_total") by done.
  rewrite (wrap_in_range (count_of contextData word2 + 1))
    by (unfold int_min, int_max in *; lia).
  rewrite (wrap_in_range (count_of contextData "_total" + 1))
    by (unfold int_min, int_max in *; lia).
  split; [|lia]. split; [|split].
  - intros k v. rewrite lookup_insert. destruct (decide ("_total" = k)).
    { intros [= <-]. lia. }
    rewrite lookup_insert. destruct (decide (word2 = k)).
    { intros [= <-]. lia. }
    apply Hpos.
  - rewrite count_of_insert_eq. unfold successor_sum.
    rewrite delete_insert_eq, delete_insert_ne by done.
    rewrite map_sum_insert, count_of_delete_ne by done.
    fold (successor_sum contextData). lia.
  - rewrite count_of_insert_eq. lia.
Qed.

Lemma bigramLoop_sums corpus : ∀ b table,
  "_total" ∉ corpus →
  0 ≤ b → b + len corpus ≤ int_max + 1 →
  (∀ w contextData, table !! w = Some contextData →
     context_sums b contextData ∧ 1 ≤ count_of contextData "_total") →
  ∀ w contextData, TrieA1.bigramLoop corpus table !! w = Some contextData →
    context_sums (b + Z.max 0 (len corpus - 1)) contextData ∧
    1 ≤ count_of contextData "_total".
Proof.
  induction corpus as [|w1 corpus IH]; intros b table Hno Hb Hlen Htable w ctx.
  { rewrite bigramLoop_nil. intros [? ?]%Htable. split; [|done].
    eapply context_sums_weaken; [|done]. lia. }
  destruct corpus as [|w2 corpus].
  { rewrite bigramLoop_single. intros [? ?]%Htable. split; [|done].
    eapply context_sums_weaken; [|done]. lia. }
  rewrite bigramLoop_cons.
  assert (Hw2 : w2 ≠ "_total") by (intros ->; apply Hno; set_solver).
  unfold len in *. simpl length in *.
  intros Hctx.
  eapply (IH (b + 1)) in Hctx.
  - destruct Hctx as [Hctx ?]. split; [|done].
    eapply context_sums_weaken; [|done]. simpl length. lia.
  - set_solver.
  - lia.
  - simpl length. lia.
  - clear Hctx. intros w' ctx'. rewrite addBigram_lookup.
    destruct (decide (w1 = w')) as [<-|Hne].
    + simpl. intros [= <-].
      assert (Hctx0 : context_sums b (default {[ "_total" := 0 ]} (table !! w1))).
      { destruct (table !! w1) as [ctx0|] eqn:Hw1; simpl.
        - by apply (Htable w1).
        - eapply context_sums_weaken; [|apply context_sums_fresh]. done. }
      pose proof (context_sums_step b w2 _ Hw2 ltac:(unfold int_max in *; lia) Hctx0)
        as [Hstep Hone].
      simpl in Hstep, Hone. split; [done|]. by rewrite count_of_insert_eq.
    + intros [Hctx' ?]%Htable. split; [|done].
      eapply context_sums_weaken; [|done]. lia.
Qed.

(** ** The shape of a trie built by [Insert] *)

Lemma Zsum_app l1 l2 : Zsum (l1 ++ l2) = Zsum l1 + Zsum l2.
Proof. unfold Zsum. induction l1 as [|x l1 IH]; simpl; lia. Qed.

Lemma Zsum_perm l1 l2 : l1 ≡ₚ l2 → Zsum l1 = Zsum l2.
Proof. unfold Zsum. induction 1; simpl; lia. Qed.

Lemma Zsum_nonneg l : Forall (λ x, 0 ≤ x) l → 0 ≤ Zsum l.
Proof. unfold Zsum. induction 1; simpl; lia. Qed.

Lemma Zsum_elem x l : Forall (λ x, 0 ≤ x) l → x ∈ l → x ≤ Zsum l.
Proof.
  intros Hl Hx. apply list_elem_of_split in Hx as (l1 & l2 & ->).
  apply Forall_app in Hl as [H1 H2]. apply Forall_cons in H2 as [? H2].
  rewrite Zsum_app. change (Zsum (x :: l2)) with (x + Zsum l2).
  apply Zsum_nonneg in H1, H2. lia.
Qed.

Lemma weight_unfold node :
  weight node = frequency node + Zsum (map (λ entry, weight entry.2) (children node)).
Proof.
  destruct node as [cs e f]; simpl. f_equal.
  induction cs as [|[c child] cs IH]; simpl; [done|]. by rewrite IH.
Qed.

Lemma node_ok_unfold node :
  node_ok node ↔
  (if isEnd node then 1 ≤ frequency node else frequency node = 0) ∧
  Forall (λ entry, live entry.2 ∧ node_ok entry.2) (children node).
Proof.
  destruct node as [cs e f]; simpl.
  apply and_iff_compat_l.
  induction cs as [|[c child] cs IH]; simpl.
  - split; [constructor|done].
  - rewrite Forall_cons, IH. done.
Qed.

#[local] Arguments node_ok : simpl never.
#[local] Arguments weight : simpl never.

Lemma node_ok_frequency node : node_ok node → 0 ≤ frequency node.
Proof. intros [Hf _]%node_ok_unfold. destruct (isEnd node); lia. Qed.

Lemma node_ok_weight node : node_ok node → frequency node ≤ weight node.
Proof.
  induction node as [cs e f IH] using TrieNodeA1_ind.
  intros [_ Hcs]%node_ok_unfold. rewrite weight_unfold. simpl in *.
  assert (0 ≤ Zsum (map (λ entry, weight entry.2) cs)); [|lia].
  apply Zsum_nonneg, Forall_fmap.
  rewrite Forall_forall in IH, Hcs |- *. intros entry Hin. simpl.
  destruct (Hcs _ Hin) as [_ Hok].
  pose proof (IH _ Hin Hok). pose proof (node_ok_frequency _ Hok). lia.
Qed.

Lemma node_ok_weight_nonneg node : node_ok node → 0 ≤ weight node.
Proof.
  intros Hok. pose proof (node_ok_weight _ Hok).
  pose proof (node_ok_frequency _ Hok). lia.
Qed.

Lemma node_ok_New : node_ok NewTrieNodeA1.
Proof. apply node_ok_unfold. simpl. split; [done|constructor]. Qed.

Lemma child_lookup_elem {N} c (n : N) cs :
  child_lookup c cs = Some n → (c, n) ∈ cs.
Proof.
  intros (cs1 & cs2 & -> & _)%(child_store_present c n n). set_solver.
Qed.

Lemma live_insertRunes path node : live (TrieA1.insertRunes path node).
Proof.
  destruct path as [|c path]; [by left|]. right. simpl.
  destruct (children node) as [|[c0 n0] cs]; simpl; [done|].
  by destruct (c0 =? c).
Qed.

Lemma Zsum_cons x l : Zsum (x :: l) = x + Zsum l.
Proof. done. Qed.

Lemma children_weight_nonneg cs :
  Forall (λ entry, live entry.2 ∧ node_ok entry.2) cs → 0 ≤ children_weight cs.
Proof.
  intros Hcs. apply Zsum_nonneg, Forall_fmap.
  eapply Forall_impl; [exact Hcs|].
  intros entry [_ ?]. by apply node_ok_weight_nonneg.
Qed.

Lemma children_weight_app cs1 cs2 :
  children_weight (cs1 ++ cs2) = children_weight cs1 + children_weight cs2.
Proof. unfold children_weight. by rewrite map_app, Zsum_app. Qed.

Lemma children_weight_cons c child cs :
  children_weight ((c, child) :: cs) = weight child + children_weight cs.
Proof. done. Qed.

Lemma weight_children node :
  weight node = frequency node + children_weight (children node).
Proof. apply weight_unfold. Qed.

(** One more [Insert] keeps the shape and adds 1 to the weight, as long as
    the weight is below the largest [int]. *)
Lemma insertRunes_ok path : ∀ node,
  node_ok node → weight node < int_max →
  node_ok (TrieA1.insertRunes path node) ∧
  weight (TrieA1.insertRunes path node) = weight node + 1.
Proof.
  induction path as [|c path IH]; intros node Hok Hw.
  - pose proof (node_ok_weight _ Hok) as Hfw.
    pose proof (node_ok_frequency _ Hok) as Hf.
    apply node_ok_unfold in Hok as [_ Hcs].
    simpl. rewrite wrap_in_range by (unfold int_min, int_max in *; lia).
    split.
    + apply node_ok_unfold. simpl. split; [lia|done].
    + rewrite !weight_children. simpl. lia.
  - pose proof (node_ok_frequency _ Hok) as Hf.
    pose proof Hok as [Hfreq Hcs]%node_ok_unfold.
    rewrite (weight_children node) in Hw.
    simpl. destruct (child_lookup c (children node)) as [child|] eqn:Hchild.
    + destruct (child_store_present c child (TrieA1.insertRunes path child) _ Hchild)
        as (cs1 & cs2 & Hcs12 & ->).
      rewrite Hcs12 in Hcs, Hw.
      apply Forall_app in Hcs as [Hcs1 Hcs2].
      apply Forall_cons in Hcs2 as [[_ Hchild_ok] Hcs2]. simpl in Hchild_ok.
      rewrite children_weight_app, children_weight_cons in Hw.
      pose proof (children_weight_nonneg _ Hcs1).
      pose proof (children_weight_nonneg _ Hcs2).
      destruct (IH child Hchild_ok) as [Hok' Hw']; [lia|].
      split.
      * apply node_ok_unfold. simpl. split; [done|].
        apply Forall_app. split; [done|].
        apply Forall_cons. split; [|done]. simpl.
        split; [apply live_insertRunes|done].
      * rewrite !weight_children. simpl.
        rewrite Hcs12, !children_weight_app, !children_weight_cons, Hw'. lia.
    + rewrite (child_store_absent _ _ _ Hchild).
      destruct (IH NewTrieNodeA1 node_ok_New) as [Hok' Hw'].
      { unfold int_max. done. }
      split.
      * apply node_ok_unfold. simpl. split; [done|].
        apply Forall_app. split; [done|].
        apply Forall_singleton. simpl. split; [apply live_insertRunes|done].
      * rewrite !weight_children. simpl.
        rewrite children_weight_app, children_weight_cons, Hw'.
        change (weight NewTrieNodeA1) with 0.
        change (children_weight []) with 0. lia.
Qed.

(** A change of the iteration order changes neither the shape nor the
    weight. *)
Lemma reorder_live node node' : reorder node node' → live node → live node'.
Proof.
  intros Hre. unfold live. destruct Hre as [cs cs' e f Hp|]; simpl.
  - intros [?|Hne]; [by left|right]. intros ->. by apply Permutation_nil_r in Hp.
  - intros [?|_]; [by left|right]. by destruct cs1.
Qed.

Lemma reorder_ok node node' :
  reorder node node' → node_ok node → node_ok node' ∧ weight node' = weight node.
Proof.
  induction 1 as [cs cs' e f Hp|cs1 c child child' cs2 e f Hre IH];
    rewrite !node_ok_unfold, !weight_children; simpl.
  - intros [Hf Hcs]. split.
    + split; [done|]. by rewrite <- Hp.
    + f_equal. unfold children_weight. apply Zsum_perm. by rewrite Hp.
  - intros [Hf Hcs].
    apply Forall_app in Hcs as [Hcs1 Hcs2].
    apply Forall_cons in Hcs2 as [[Hlive Hok] Hcs2]. simpl in *.
    destruct (IH Hok) as [Hok' Hw']. split.
    + split; [done|]. apply Forall_app. split; [done|].
      apply Forall_cons. split; [|done]. simpl. split; [|done].
      by eapply reorder_live.
    + rewrite !children_weight_app, !children_weight_cons. lia.
Qed.

(** One more bigram keeps every aggregate at least 1; the aggregate of the
    predecessor grows by 1, or by 2 when the successor is "_total". *)
Lemma addBigram_ok b word1 word2 table :
  0 ≤ b → b + 2 ≤ int_max → table_ok b table →
  table_ok (b + 2) (TrieA1.addBigram word1 word2 table).
Proof.
  intros Hb Hmax Htable w ctx. rewrite addBigram_lookup.
  destruct (decide (word1 = w)) as [<-|Hne].
  - simpl. intros [= <-]. rewrite count_of_insert_eq.
    set (ctx0 := default {[ "_total" := 0 ]} (table !! word1)).
    assert (Hctx0 : 0 ≤ count_of ctx0 "_total" ≤ b).
    { subst ctx0. destruct (table !! word1) as [ctx0|] eqn:Hw1; simpl.
      - pose proof (Htable _ _ Hw1). lia.
      - unfold count_of. rewrite lookup_singleton_eq. simpl. lia. }
    assert (Hctx1 : count_of ctx0 "_total" ≤
                    count_of (<[ word2 := wrap (count_of ctx0 word2 + 1) ]> ctx0) "_total"
                    ≤ count_of ctx0 "_total" + 1).
    { destruct (decide (word2 = "_total")) as [->|Hw2].
      - rewrite count_of_insert_eq.
        rewrite wrap_in_range by (unfold int_min, int_max in *; lia). lia.
      - rewrite count_of_insert_ne by done. lia. }
    rewrite wrap_in_range by (unfold int_min, int_max in *; lia). lia.
  - intros Hctx. pose proof (Htable _ _ Hctx). lia.
Qed.

Lemma bigramLoop_ok corpus : ∀ b table,
  0 ≤ b → b + 2 * Z.of_nat (length corpus - 1) ≤ int_max → table_ok b table →
  table_ok (b + 2 * Z.of_nat (length corpus - 1)) (TrieA1.bigramLoop corpus table).
Proof.
  induction corpus as [|w1 corpus IH]; intros b table Hb Hmax Htable.
  { rewrite bigramLoop_nil. simpl. by rewrite Z.add_0_r. }
  destruct corpus as [|w2 corpus].
  { rewrite bigramLoop_single. simpl. by rewrite Z.add_0_r. }
  rewrite bigramLoop_cons.
  replace (b + 2 * Z.of_nat (length (w1 :: w2 :: corpus) - 1))
    with ((b + 2) + 2 * Z.of_nat (length (w2 :: corpus) - 1)) in * by (simpl; lia).
  apply IH; [lia|done|]. apply addBigram_ok; [done| |done].
  simpl in Hmax. lia.
Qed.

(** What holds of every trie that was built. *)
Lemma built_ok n m t :
  built n m t →
  (Z.of_nat n ≤ int_max →
     node_ok (root t) ∧ weight (root t) = Z.of_nat n ∧ ((0 < n)%nat → live (root t))) ∧
  (2 * Z.of_nat m ≤ int_max → table_ok (2 * Z.of_nat m) (bigramTable t)).
Proof.
  induction 1 as [|n m t w _ [IHn IHm]|n m t corpus _ [IHn IHm]|n m t root' _ [IHn IHm] Hre].
  - split; intros _.
    + split; [apply node_ok_New|]. split; [done|lia].
    + intros w ctx. simpl. by rewrite lookup_empty.
  - split; [|exact IHm]. intros Hn.
    destruct IHn as (Hok & Hw & _); [lia|]. simpl.
    destruct (insertRunes_ok (range_string w) (root t) Hok) as [Hok' Hw']; [lia|].
    split; [done|]. split; [lia|]. intros _. apply live_insertRunes.
  - split; [exact IHn|]. intros Hm. simpl.
    replace (2 * Z.of_nat (m + (length corpus - 1)))
      with (2 * Z.of_nat m + 2 * Z.of_nat (length corpus - 1)) in * by lia.
    apply bigramLoop_ok; [lia|done|]. apply IHm. lia.
  - split; [|exact IHm]. intros Hn. simpl.
    destruct IHn as (Hok & Hw & Hlive); [done|].
    destruct (reorder_ok _ _ Hre Hok) as [Hok' Hw'].
    split; [done|]. split; [lia|]. intros Hpos. eapply reorder_live; eauto.
Qed.

(** ** What the traversal collects *)

Lemma descend_ok path : ∀ node node',
  TrieA1.descend path node = Some node' → node_ok node →
  node_ok node' ∧ weight node' ≤ weight node ∧ (path ≠ [] → live node').
Proof.
  induction path as [|c path IH]; intros node node'; simpl.
  - intros [= <-] Hok. split; [done|]. split; [lia|done].
  - destruct (child_lookup c (children node)) as [child|] eqn:Hchild; [|done].
    intros Hnode' Hok.
    pose proof (node_ok_frequency _ Hok) as Hf.
    pose proof Hok as [_ Hcs]%node_ok_unfold.
    apply child_lookup_elem in Hchild.
    pose proof (proj1 (Forall_forall _ _) Hcs _ Hchild) as [Hlive Hchild_ok].
    simpl in *.
    destruct (IH _ _ Hnode' Hchild_ok) as (Hok' & Hw' & Hlive').
    split; [done|]. split.
    + rewrite (weight_children node).
      assert (weight child ≤ children_weight (children node)); [|lia].
      apply Zsum_elem.
      * apply Forall_fmap. eapply Forall_impl; [exact Hcs|].
        intros entry [_ ?]. by apply node_ok_weight_nonneg.
      * apply list_elem_of_fmap. by exists (c, child).
    + intros _. destruct path as [|c' path]; [|by apply Hlive'].
      simpl in Hnode'. by injection Hnode' as <-.
Qed.

Lemma sum_frequencies_app cs1 cs2 :
  sum_frequencies (cs1 ++ cs2) = sum_frequencies cs1 + sum_frequencies cs2.
Proof. unfold sum_frequencies. induction cs1 as [|c cs1 IH]; simpl; lia. Qed.

(** Below a node of the right shape every completion has a frequency of at
    least 1, and the frequencies add up to the weight of the node. *)
Lemma completions_below_ok node : ∀ path,
  node_ok node →
  Forall (λ c, 1 ≤ cfrequency c) (completions_below node path) ∧
  sum_frequencies (completions_below node path) = weight node.
Proof.
  induction node as [cs e f IH] using TrieNodeA1_ind. intros path.
  rewrite node_ok_unfold, completions_below_unfold, weight_children. simpl.
  intros [Hf Hcs].
  rewrite Forall_app, sum_frequencies_app.
  assert (Hhere : Forall (λ c, 1 ≤ cfrequency c)
                    (if e then [{| cword := string_of_runes path; cfrequency := f |}] else [])
                  ∧ sum_frequencies
                      (if e then [{| cword := string_of_runes path; cfrequency := f |}] else [])
                    = f).
  { destruct e; simpl.
    - split; [by repeat constructor|lia].
    - split; [constructor|lia]. }
  destruct Hhere as [Hhere1 Hhere2]. rewrite Hhere2.
  assert (Hbelow : Forall (λ c, 1 ≤ cfrequency c)
            (concat (map (λ entry, completions_below entry.2 (path ++ [entry.1])) cs))
          ∧ sum_frequencies
              (concat (map (λ entry, completions_below entry.2 (path ++ [entry.1])) cs))
            = children_weight cs).
  { clear Hhere1 Hhere2 Hf.
    induction cs as [|[c child] cs IHcs]; simpl.
    - split; [constructor|done].
    - apply Forall_cons in IH as [IHchild IH].
      apply Forall_cons in Hcs as [[_ Hchild] Hcs]. simpl in *.
      destruct (IHchild (path ++ [c]) Hchild) as [H1 H2].
      destruct (IHcs IH Hcs) as [H3 H4].
      rewrite Forall_app, sum_frequencies_app, children_weight_cons. split; [done|lia]. }
  destruct Hbelow as [Hbelow1 Hbelow2]. rewrite Hbelow2. done.
Qed.

(** A node that is live has an end-of-word node below it. *)
Lemma completions_below_live node : ∀ path,
  node_ok node → live node → completions_below node path ≠ [].
Proof.
  induction node as [cs e f IH] using TrieNodeA1_ind. intros path.
  rewrite node_ok_unfold, completions_below_unfold. unfold live. simpl.
  intros [Hf Hcs] [->|Hne]; [done|].
  destruct cs as [|[c child] cs]; [done|]. simpl.
  apply Forall_cons in IH as [IHchild _].
  apply Forall_cons in Hcs as [[Hlive Hchild] _]. simpl in *.
  specialize (IHchild (path ++ [c]) Hchild Hlive).
  destruct e; [done|]. simpl.
  destruct (completions_below child (path ++ [c])); done.
Qed.

(** Without overflow the loop that adds up the frequencies computes their
    sum. *)
Lemma totalFreq_of_sum completions :
  Forall (λ c, 0 ≤ cfrequency c) completions →
  sum_frequencies completions ≤ int_max →
  totalFreq_of completions = sum_frequencies completions.
Proof.
  unfold totalFreq_of.
  assert (Hgen : ∀ acc, 0 ≤ acc →
            Forall (λ c, 0 ≤ cfrequency c) completions →
            acc + sum_frequencies completions ≤ int_max →
            foldl (λ totalFreq completion, wrap (totalFreq + cfrequency completion))
                  acc completions = acc + sum_frequencies completions).
  { induction completions as [|c cs IH]; intros acc Hacc Hpos Hmax; simpl.
    - unfold sum_frequencies. simpl. lia.
    - apply Forall_cons in Hpos as [Hc Hpos].
      unfold sum_frequencies in Hmax |- *. simpl in Hmax |- *.
      fold (sum_frequencies cs) in Hmax |- *.
      assert (0 ≤ sum_frequencies cs).
      { clear -Hpos. induction Hpos; unfold sum_frequencies in *; simpl; lia. }
      rewrite wrap_in_range by (unfold int_min, int_max in *; lia).
      rewrite IH; [lia|lia|done|lia]. }
  intros Hpos Hmax. rewrite Hgen; [lia|lia|done|lia].
Qed.

(** ** [float64]: conversions and quotients are numbers *)

Section rounding.
Variables prec emax : Z.

Lemma shr_1_nonneg mrs : 0 ≤ shr_m mrs → 0 ≤ shr_m (shr_1 mrs).
Proof. destruct mrs as [[|p|p] r s]; simpl; try lia; destruct p; simpl; lia. Qed.

Lemma iter_pos_invariant {A} (P : A → Prop) (f : A → A) :
  (∀ x, P x → P (f x)) → ∀ n x, P x → P (SpecFloat.iter_pos f n x).
Proof. intros Hf. induction n as [n IH|n IH|]; intros x Hx; simpl; auto. Qed.

Lemma shr_record_of_loc_m m l : shr_m (shr_record_of_loc m l) = m.
Proof. by destruct l as [|[]]. Qed.

Lemma shr_nonneg mrs e n : 0 ≤ shr_m mrs → 0 ≤ shr_m (shr mrs e n).1.
Proof.
  intros Hm. unfold shr. destruct n; simpl; try done.
  by apply (iter_pos_invariant (λ mrs, 0 ≤ shr_m mrs)), Hm; apply shr_1_nonneg.
Qed.

Lemma shr_fexp_nonneg m e l : 0 ≤ m → 0 ≤ shr_m (shr_fexp prec emax m e l).1.
Proof. intros Hm. unfold shr_fexp. apply shr_nonneg. by rewrite shr_record_of_loc_m. Qed.

Lemma round_nearest_even_bounds m l :
  m ≤ round_nearest_even m l ≤ m + 1.
Proof. destruct l as [|[]]; simpl; try destruct (Z.even m); lia. Qed.

(** Rounding a mantissa that is not negative never gives NaN. *)
Lemma binary_round_aux_not_nan s m e l :
  0 ≤ m → binary_round_aux prec emax s m e l ≠ S754_nan.
Proof.
  intros Hm. unfold binary_round_aux.
  pose proof (shr_fexp_nonneg m e l Hm) as H1.
  destruct (shr_fexp prec emax m e l) as [mrs' e']. simpl in H1.
  pose proof (round_nearest_even_bounds (shr_m mrs') (loc_of_shr_record mrs')) as H2.
  pose proof (shr_fexp_nonneg
                (round_nearest_even (shr_m mrs') (loc_of_shr_record mrs')) e' loc_Exact) as H3.
  destruct (shr_fexp prec emax _ e' loc_Exact) as [mrs'' e'']. simpl in H3.
  destruct (shr_m mrs'') as [|p|p]; [done| |lia].
  by destruct (e'' <=? emax - prec).
Qed.

Lemma binary_normalize_not_nan z e szero :
  binary_normalize prec emax z e szero ≠ S754_nan.
Proof.
  destruct z as [|p|p]; simpl; [done|..]; unfold binary_round;
    destruct (shl_align _ _ _) as [mz ez]; by apply binary_round_aux_not_nan.
Qed.

(** A quotient by a finite number other than zero is never NaN. *)
Lemma SFdiv_not_nan x y s m e :
  x ≠ S754_nan → y = S754_finite s m e → SFdiv prec emax x y ≠ S754_nan.
Proof.
  intros Hx ->. destruct x as [sx|sx| |sx mx ex]; simpl; try done.
  unfold SFdiv_core_binary.
  set (m' := match _ with Z0 => Z.pos mx | Zpos _ => _ | Zneg _ => 0 end).
  assert (Hm' : 0 ≤ m').
  { subst m'. destruct (_ - _ - _)%Z; [lia| |lia].
    apply Z.shiftl_nonneg. lia. }
  pose proof (Z_div_mod m' (Z.pos m) ltac:(lia)) as Hdiv.
  destruct (Z.div_eucl m' (Z.pos m)) as [q r].
  apply binary_round_aux_not_nan. nia.
Qed.
End rounding.

Lemma float64_of_int_not_nan z : float64_of_int z ≠ S754_nan.
Proof. apply binary_normalize_not_nan. Qed.

(** The number of binary digits, and what shifting right leaves. *)
Lemma digits2_pos_size p : digits2_pos p = Pos.size p.
Proof. induction p as [p IH|p IH|]; simpl; by rewrite ?IH. Qed.

Lemma Zdigits2_log2 m : 0 < m → Zdigits2 m = Z.log2 m + 1.
Proof.
  destruct m as [|p|p]; [lia| |lia]. intros _. simpl. rewrite digits2_pos_size.
  destruct p; simpl; lia.
Qed.

Lemma Zdigits2_bounds m : 0 < m → 2 ^ (Zdigits2 m - 1) ≤ m < 2 ^ Zdigits2 m.
Proof.
  intros Hm. rewrite Zdigits2_log2 by done.
  replace (Z.log2 m + 1 - 1) with (Z.log2 m) by lia.
  replace (Z.log2 m + 1) with (Z.succ (Z.log2 m)) by lia.
  by apply Z.log2_spec.
Qed.

Lemma Zdigits2_le m d : 0 < m → m < 2 ^ d → Zdigits2 m ≤ d.
Proof.
  intros Hm Hd. rewrite Zdigits2_log2 by done.
  assert (Z.log2 m < d); [|lia]. by apply Z.log2_lt_pow2.
Qed.

Lemma Zdigits2_ge m d : 0 < m → 2 ^ (d - 1) ≤ m → d ≤ Zdigits2 m.
Proof.
  intros Hm Hd. rewrite Zdigits2_log2 by done.
  destruct (Z.le_gt_cases d 0) as [?|?].
  { pose proof (Z.log2_nonneg m). lia. }
  assert (d - 1 ≤ Z.log2 m); [|lia]. by apply Z.log2_le_pow2.
Qed.

Lemma shr_1_m mrs : 0 ≤ shr_m mrs → shr_m (shr_1 mrs) = shr_m mrs / 2.
Proof.
  destruct mrs as [[|p|p] r s]; simpl; [done| |lia]. intros _.
  destruct p as [p|p|]; simpl.
  - rewrite Pos2Z.inj_xI. apply (Z.div_unique _ _ _ 1); lia.
  - rewrite Pos2Z.inj_xO. apply (Z.div_unique _ _ _ 0); lia.
  - done.
Qed.

Lemma pow2_double p : 2 ^ Z.pos p~0 = 2 ^ Z.pos p * 2 ^ Z.pos p.
Proof. rewrite Pos2Z.inj_xO, <- Z.pow_add_r by lia. f_equal. lia. Qed.

Lemma pow2_double_succ p : 2 ^ Z.pos p~1 = 2 * (2 ^ Z.pos p * 2 ^ Z.pos p).
Proof.
  rewrite Pos2Z.inj_xI, <- Z.pow_add_r, <- Z.pow_succ_r by lia. f_equal. lia.
Qed.

Lemma iter_shr_1_m p : ∀ mrs,
  0 ≤ shr_m mrs →
  0 ≤ shr_m (SpecFloat.iter_pos shr_1 p mrs) ∧
  shr_m (SpecFloat.iter_pos shr_1 p mrs) = shr_m mrs / 2 ^ Z.pos p.
Proof.
  induction p as [p IH|p IH|]; intros mrs Hm; simpl SpecFloat.iter_pos.
  - pose proof (shr_1_nonneg mrs Hm) as H1.
    destruct (IH _ H1) as [H2 E2]. destruct (IH _ H2) as [H3 E3].
    split; [done|]. rewrite E3, E2, shr_1_m by done.
    assert (0 < 2 ^ Z.pos p) by (apply Z.pow_pos_nonneg; lia).
    rewrite !Z.div_div by lia. by rewrite pow2_double_succ.
  - destruct (IH _ Hm) as [H2 E2]. destruct (IH _ H2) as [H3 E3].
    split; [done|]. rewrite E3, E2.
    assert (0 < 2 ^ Z.pos p) by (apply Z.pow_pos_nonneg; lia).
    rewrite !Z.div_div by lia. by rewrite pow2_double.
  - split; [by apply shr_1_nonneg|]. by rewrite shr_1_m.
Qed.

Lemma shr_spec mrs e n :
  0 ≤ shr_m mrs →
  shr_m (shr mrs e n).1 = shr_m mrs / 2 ^ Z.max 0 n ∧ (shr mrs e n).2 = e + Z.max 0 n.
Proof.
  intros Hm. destruct n as [|p|p]; simpl.
  - split; [by rewrite Z.div_1_r|lia].
  - split; [by apply iter_shr_1_m|done].
  - split; [by rewrite Z.div_1_r|lia].
Qed.

Lemma shr_fexp_spec prec emax m e l :
  0 ≤ m →
  let n := Z.max 0 (fexp prec emax (Zdigits2 m + e) - e) in
  shr_m (shr_fexp prec emax m e l).1 = m / 2 ^ n ∧
  (shr_fexp prec emax m e l).2 = e + n.
Proof.
  intros Hm. unfold shr_fexp.
  pose proof (shr_spec (shr_record_of_loc m l) e
                (fexp prec emax (Zdigits2 m + e) - e)) as Hshr.
  rewrite shr_record_of_loc_m in Hshr. by apply Hshr.
Qed.

(** Rounding a positive mantissa in the range of the normal numbers, away
    from the largest exponent, gives a finite number. *)
Lemma binary_round_aux_finite s m e l :
  0 < m →
  - 1074 ≤ Zdigits2 m + e - 53 →
  Z.max e (Zdigits2 m + e - 53) + 1 ≤ 971 →
  ∃ m' e', binary_round_aux f64_prec f64_emax s m e l = S754_finite s m' e'.
Proof.
  intros Hm Hlo Hhi. unfold binary_round_aux, f64_prec, f64_emax.
  pose proof (Zdigits2_bounds m Hm) as Hd.
  assert (Hd1 : 1 ≤ Zdigits2 m) by (apply Zdigits2_ge; [done|simpl; lia]).
  pose proof (shr_fexp_spec 53 1024 m e l ltac:(lia)) as [Hm1 He1].
  destruct (shr_fexp 53 1024 m e l) as [mrs1 e1]. simpl in Hm1, He1.
  unfold fexp, emin in Hm1, He1.
  replace (Z.max (Zdigits2 m + e - 53) (3 - 1024 - 53)) with (Zdigits2 m + e - 53)
    in Hm1, He1 by lia.
  set (n := Z.max 0 (Zdigits2 m + e - 53 - e)) in *.
  assert (Hn : n = Z.max 0 (Zdigits2 m - 53)) by lia. clearbody n.
  assert (Hpn : 0 < 2 ^ n) by (apply Z.pow_pos_nonneg; lia).
  (* the mantissa after the first shift has at most 53 digits *)
  assert (Hm1b : 1 ≤ shr_m mrs1 < 2 ^ 53).
  { rewrite Hm1. split.
    - apply Z.div_le_lower_bound; [lia|].
      rewrite Z.mul_1_r. etrans; [|apply Hd].
      apply Z.pow_le_mono_r; lia.
    - apply Z.div_lt_upper_bound; [lia|].
      rewrite <- Z.pow_add_r by lia.
      eapply Z.lt_le_trans; [apply Hd|].
      apply Z.pow_le_mono_r; lia. }
  pose proof (round_nearest_even_bounds (shr_m mrs1) (loc_of_shr_record mrs1)) as Hm2.
  set (m2 := round_nearest_even (shr_m mrs1) (loc_of_shr_record mrs1)) in *.
  pose proof (shr_fexp_spec 53 1024 m2 e1 loc_Exact ltac:(lia)) as [Hm3 He3].
  destruct (shr_fexp 53 1024 m2 e1 loc_Exact) as [mrs3 e3]. simpl in Hm3, He3.
  unfold fexp, emin in Hm3, He3.
  assert (Hd2 : 1 ≤ Zdigits2 m2 ≤ 54).
  { split.
    - apply Zdigits2_ge; [lia|]. simpl. lia.
    - apply Zdigits2_le; [lia|]. lia. }
  pose proof (Zdigits2_bounds m2 ltac:(lia)) as Hd2b.
  set (n2 := Z.max 0 (Z.max (Zdigits2 m2 + e1 - 53) (3 - 1024 - 53) - e1)) in *.
  assert (Hn2 : n2 = 0 ∨ (n2 = 1 ∧ Zdigits2 m2 = 54)) by lia. clearbody n2.
  assert (Hm3b : 1 ≤ shr_m mrs3).
  { rewrite Hm3. destruct Hn2 as [->|[-> Hd54]].
    - rewrite Z.div_1_r. lia.
    - rewrite Hd54 in Hd2b. change (2 ^ 1) with 2.
      apply Z.div_le_lower_bound; [lia|]. change (2 ^ (54 - 1)) with (2 ^ 53) in Hd2b.
      lia. }
  destruct (shr_m mrs3) as [|p|p]; [lia| |lia].
  destruct (Z.leb_spec e3 (1024 - 53)) as [_|Hbad]; [eauto|]. lia.
Qed.

Lemma Pos_iter_xO p k : Z.pos (Pos.iter xO p k) = Z.pos p * 2 ^ Z.pos k.
Proof.
  induction k as [|k IH] using Pos.peano_ind.
  - simpl. lia.
  - rewrite Pos.iter_succ, Pos2Z.inj_xO, IH, Pos2Z.inj_succ, Z.pow_succ_r by lia. lia.
Qed.

(** An [int] other than 0 converts to a finite [float64] of the same sign. *)
Lemma binary_round_int s p :
  Z.pos p ≤ 2 ^ 63 →
  ∃ m e, binary_round f64_prec f64_emax s p 0 = S754_finite s m e.
Proof.
  intros Hp. unfold binary_round.
  pose proof (Zdigits2_bounds (Z.pos p) ltac:(lia)) as Hd.
  assert (Hd64 : 1 ≤ Zdigits2 (Z.pos p) ≤ 64).
  { split; [apply Zdigits2_ge; simpl; lia|apply Zdigits2_le; lia]. }
  change (Z.pos (digits2_pos p)) with (Zdigits2 (Z.pos p)).
  unfold shl_align, fexp, emin, f64_prec, f64_emax.
  replace (Z.max (Zdigits2 (Z.pos p) + 0 - 53) (3 - 1024 - 53) - 0)
    with (Zdigits2 (Z.pos p) - 53) by lia.
  replace (Z.max (Zdigits2 (Z.pos p) + 0 - 53) (3 - 1024 - 53))
    with (Zdigits2 (Z.pos p) - 53) by lia.
  destruct (Zdigits2 (Z.pos p) - 53) as [|k|k] eqn:Hk.
  - apply binary_round_aux_finite; lia.
  - apply binary_round_aux_finite; lia.
  - assert (Hmz : Zdigits2 (Z.pos (Pos.iter xO p k)) = 53).
    { rewrite Pos_iter_xO.
      assert (HK : Z.pos k = 53 - Zdigits2 (Z.pos p)) by lia.
      apply Z.le_antisymm.
      - apply Zdigits2_le; [lia|]. rewrite HK.
        replace 53 with (Zdigits2 (Z.pos p) + (53 - Zdigits2 (Z.pos p))) at 2 by lia.
        rewrite Z.pow_add_r by lia.
        apply Z.mul_lt_mono_pos_r; [lia|]. apply Hd.
      - apply Zdigits2_ge; [lia|]. rewrite HK.
        replace (53 - 1) with (Zdigits2 (Z.pos p) - 1 + (53 - Zdigits2 (Z.pos p))) by lia.
        rewrite Z.pow_add_r by lia.
        apply Z.mul_le_mono_nonneg_r; [lia|]. apply Hd. }
    apply binary_round_aux_finite; [lia|rewrite Hmz; lia|rewrite Hmz; lia].
Qed.

Lemma float64_of_int_finite z :
  z ≠ 0 → int_min ≤ z ≤ int_max →
  ∃ m e, float64_of_int z = S754_finite (z <? 0) m e.
Proof.
  unfold int_min, int_max, float64_of_int. intros Hz Hrange.
  destruct z as [|p|p]; [done|..]; simpl binary_normalize.
  - apply binary_round_int. lia.
  - apply binary_round_int. lia.
Qed.

(** The quotients the ranking computes are numbers. *)
Lemma float64_quotient_not_nan a b :
  1 ≤ b ≤ int_max → float64_div (float64_of_int a) (float64_of_int b) ≠ S754_nan.
Proof.
  intros Hb.
  destruct (float64_of_int_finite b) as (m & e & Hfin);
    [lia|unfold int_min, int_max in *; lia|].
  eapply SFdiv_not_nan; [apply float64_of_int_not_nan|exact Hfin].
Qed.

(** ** [float64]: the comparison is a transitive ordering on numbers *)

Lemma SFltb_key x y :
  x ≠ S754_nan → y ≠ S754_nan →
  (SFltb x y = true ↔ key_lt (float64_key x) (float64_key y)).
Proof.
  intros Hx Hy. unfold SFltb, key_lt.
  destruct x as [[]|[]| |[] mx ex], y as [[]|[]| |[] my ey]; simpl;
    try done; try (split; [intros; lia|intros; try done; lia]).
  - destruct (Z.compare_spec ex ey) as [->|?|?]; simpl.
    + change (Pos.compare_cont Eq mx my) with (Pos.compare mx my).
      destruct (Pos.compare_spec mx my) as [->|?|?]; simpl;
        (split; [intros; try done; lia|intros; try done; lia]).
    + split; [intros; try done; lia|intros; try done; lia].
    + split; [intros; try done; lia|intros; try done; lia].
  - destruct (Z.compare_spec ex ey) as [->|?|?]; simpl.
    + change (Pos.compare_cont Eq mx my) with (Pos.compare mx my).
      destruct (Pos.compare_spec mx my) as [->|?|?]; simpl;
        (split; [intros; try done; lia|intros; try done; lia]).
    + split; [intros; try done; lia|intros; try done; lia].
    + split; [intros; try done; lia|intros; try done; lia].
Qed.

Lemma SFleb_key x y :
  x ≠ S754_nan → y ≠ S754_nan →
  (SFleb x y = true ↔ ¬ key_lt (float64_key y) (float64_key x)).
Proof.
  intros Hx Hy. unfold SFleb, key_lt.
  destruct x as [[]|[]| |[] mx ex], y as [[]|[]| |[] my ey]; simpl;
    try done; try (split; [intros; lia|intros; try done; lia]).
  - destruct (Z.compare_spec ex ey) as [->|?|?]; simpl.
    + change (Pos.compare_cont Eq mx my) with (Pos.compare mx my).
      destruct (Pos.compare_spec mx my) as [->|?|?]; simpl;
        (split; [intros; try done; lia|intros; try done; lia]).
    + split; [intros; try done; lia|intros; try done; lia].
    + split; [intros; try done; lia|intros; try done; lia].
  - destruct (Z.compare_spec ex ey) as [->|?|?]; simpl.
    + change (Pos.compare_cont Eq mx my) with (Pos.compare mx my).
      destruct (Pos.compare_spec mx my) as [->|?|?]; simpl;
        (split; [intros; try done; lia|intros; try done; lia]).
    + split; [intros; try done; lia|intros; try done; lia].
    + split; [intros; try done; lia|intros; try done; lia].
Qed.

Lemma float64_gt_false_ge x y :
  x ≠ S754_nan → y ≠ S754_nan → float64_gt y x = false → float64_ge x y = true.
Proof.
  unfold float64_gt, float64_ge. intros Hx Hy Hgt.
  apply SFleb_key; [done..|]. intros Hlt.
  apply (SFltb_key x y) in Hlt; [|done..]. congruence.
Qed.

Lemma byProbability_ordering (l : list suggestion) :
  Forall (λ s, probability s ≠ S754_nan) l →
  transitive_ordering TrieA1.byProbability l.
Proof.
  rewrite Forall_forall. intros Hl.
  unfold TrieA1.byProbability, float64_gt.
  split; [|split].
  - intros a Ha. apply not_true_is_false.
    rewrite SFltb_key by auto. unfold key_lt. lia.
  - intros a b c Ha Hb Hc. rewrite !SFltb_key by auto. unfold key_lt. lia.
  - intros a b c Ha Hb Hc. rewrite <- !not_true_iff_false, !SFltb_key by auto.
    unfold key_lt. lia.
Qed.

(** In a list without NaN that [sort.Slice] ordered by [byProbability], an
    earlier probability is at least any later one. *)
Lemma ordered_by_probability (l : list suggestion) i j a b :
  Forall (λ s, probability s ≠ S754_nan) l →
  ordered_by TrieA1.byProbability l →
  (i < j)%nat → l !! i = Some a → l !! j = Some b →
  float64_ge (probability a) (probability b) = true.
Proof.
  intros Hnan Hord Hij Hi Hj.
  assert (Hab : TrieA1.byProbability b a = false).
  { rewrite <- (take_drop_middle l i a Hi) in Hord, Hj.
    apply StronglySorted_app in Hord as (_ & _ & Hord).
    apply StronglySorted_cons in Hord as [Hall _].
    rewrite Forall_forall in Hall. apply Hall.
    rewrite lookup_app_r in Hj; rewrite length_take_le in *;
      try (apply lookup_lt_Some in Hi; lia).
    replace (j - i)%nat with (S (j - i - 1)) in Hj by lia. simpl in Hj.
    by eapply list_elem_of_lookup_2. }
  rewrite Forall_forall in Hnan.
  apply float64_gt_false_ge; [eapply Hnan..|done]; by eapply list_elem_of_lookup_2.
Qed.

(** ** [float64]: the error of a quotient *)

(** A mantissa of 53 digits with its exponent in range is kept as it is. *)
Lemma binary_round_aux_exact s mz ez :
  Zdigits2 (Z.pos mz) = 53 → - 1074 ≤ ez ≤ 971 →
  binary_round_aux f64_prec f64_emax s (Z.pos mz) ez loc_Exact = S754_finite s mz ez.
Proof.
  intros Hd He. unfold binary_round_aux, shr_fexp, f64_prec, f64_emax.
  rewrite Hd. unfold fexp, emin.
  replace (Z.max (53 + ez - 53) (3 - 1024 - 53) - ez) with 0 by lia.
  simpl shr. cbn [shr_m loc_of_shr_record round_nearest_even shr_record_of_loc].
  rewrite Hd.
  replace (Z.max (53 + ez - 53) (3 - 1024 - 53) - ez) with 0 by lia.
  simpl. destruct (Z.leb_spec ez (1024 - 53)); [done|lia].
Qed.

(** An [int] from 1 to 2^53 - 1 converts without rounding. *)
Lemma float64_of_int_exact a :
  1 ≤ a < 2 ^ 53 →
  ∃ A ea, float64_of_int a = S754_finite false A ea ∧
          2 ^ 52 ≤ Z.pos A < 2 ^ 53 ∧ - 52 ≤ ea ≤ 0 ∧
          Z.pos A = a * 2 ^ (- ea).
Proof.
  intros Ha. destruct a as [|p|p]; [lia| |lia].
  unfold float64_of_int. simpl binary_normalize. unfold binary_round.
  pose proof (Zdigits2_bounds (Z.pos p) ltac:(lia)) as Hd.
  assert (Hd53 : 1 ≤ Zdigits2 (Z.pos p) ≤ 53).
  { split; [apply Zdigits2_ge; simpl; lia|apply Zdigits2_le; lia]. }
  change (Z.pos (digits2_pos p)) with (Zdigits2 (Z.pos p)).
  unfold shl_align, fexp, emin, f64_prec, f64_emax.
  replace (Z.max (Zdigits2 (Z.pos p) + 0 - 53) (3 - 1024 - 53) - 0)
    with (Zdigits2 (Z.pos p) - 53) by lia.
  replace (Z.max (Zdigits2 (Z.pos p) + 0 - 53) (3 - 1024 - 53))
    with (Zdigits2 (Z.pos p) - 53) by lia.
  destruct (Zdigits2 (Z.pos p) - 53) as [|k|k] eqn:Hk; [|lia|].
  - assert (Hd' : Zdigits2 (Z.pos p) = 53) by lia.
    exists p, 0. rewrite Hd' in Hd.
    split; [apply (binary_round_aux_exact false p 0); [done|lia]|].
    split; [simpl in Hd |- *; lia|]. split; [lia|]. simpl. lia.
  - assert (HK : Z.pos k = 53 - Zdigits2 (Z.pos p)) by lia.
    assert (Hval : Z.pos (Pos.iter xO p k) = Z.pos p * 2 ^ Z.pos k) by apply Pos_iter_xO.
    assert (Hrange : 2 ^ 52 ≤ Z.pos (Pos.iter xO p k) < 2 ^ 53).
    { rewrite Hval, HK. split.
      - replace 52 with (Zdigits2 (Z.pos p) - 1 + (53 - Zdigits2 (Z.pos p))) at 1 by lia.
        rewrite Z.pow_add_r by lia.
        apply Z.mul_le_mono_nonneg_r; [lia|]. apply Hd.
      - replace 53 with (Zdigits2 (Z.pos p) + (53 - Zdigits2 (Z.pos p))) at 2 by lia.
        rewrite Z.pow_add_r by lia.
        apply Z.mul_lt_mono_pos_r; [lia|]. apply Hd. }
    assert (Hmz : Zdigits2 (Z.pos (Pos.iter xO p k)) = 53).
    { apply Z.le_antisymm; [apply Zdigits2_le|apply Zdigits2_ge]; simpl; lia. }
    exists (Pos.iter xO p k), (Z.neg k).
    split; [apply binary_round_aux_exact; [done|lia]|].
    split; [done|]. split; [lia|]. simpl Z.opp. exact Hval.
Qed.

(** Where the remainder of a division lies between two quotients. *)
Lemma new_location_spec B r :
  0 < B → 0 ≤ r < B →
  match new_location B r with
  | loc_Exact => r = 0
  | loc_Inexact Lt => 0 < r ∧ 2 * r < B
  | loc_Inexact Eq => 0 < r ∧ 2 * r = B
  | loc_Inexact Gt => B < 2 * r
  end.
Proof.
  intros HB Hr. unfold new_location, new_location_even, new_location_odd.
  destruct (Z.even B) eqn:Heven.
  - destruct (Z.eqb_spec r 0) as [->|Hr0]; [done|].
    destruct (Z.compare_spec (2 * r) B); lia.
  - destruct (Z.eqb_spec r 0) as [->|Hr0]; [done|].
    pose proof (Zmod_even B) as Hmod. rewrite Heven in Hmod.
    pose proof (Z.div_mod B 2 ltac:(lia)) as Hdiv.
    destruct (Z.compare_spec (2 * r + 1) B); lia.
Qed.

Lemma loc_of_shr_record_of_loc m l : loc_of_shr_record (shr_record_of_loc m l) = l.
Proof. by destruct l as [|[]]. Qed.

(** The second shift of [binary_round_aux]: a mantissa from 2^52 to 2^53 is
    kept, or halved when it is 2^53. *)
Lemma round_second_shift s m2 e :
  2 ^ 52 ≤ m2 ≤ 2 ^ 53 → - 1074 ≤ e → e + 1 ≤ 971 →
  ∃ m3 n2, 0 ≤ n2 ≤ 1 ∧ Z.pos m3 * 2 ^ n2 = m2 ∧
    (let '(mrs, e') := shr_fexp f64_prec f64_emax m2 e loc_Exact in
     match shr_m mrs with
     | Z0 => S754_zero s
     | Z.pos m => if e' <=? f64_emax - f64_prec then S754_finite s m e' else S754_infinity s
     | Z.neg _ => S754_nan
     end) = S754_finite s m3 (e + n2).
Proof.
  intros Hm2 Hlo Hhi. unfold f64_prec, f64_emax.
  pose proof (shr_fexp_spec 53 1024 m2 e loc_Exact ltac:(lia)) as [Hm3 He3].
  destruct (shr_fexp 53 1024 m2 e loc_Exact) as [mrs e3]. simpl in Hm3, He3.
  unfold fexp, emin in Hm3, He3.
  pose proof (Zdigits2_bounds m2 ltac:(lia)) as Hd2b.
  assert (Hd2 : 53 ≤ Zdigits2 m2 ≤ 54).
  { split; [apply Zdigits2_ge|apply Zdigits2_le]; simpl; lia. }
  destruct (Z.eq_dec (Zdigits2 m2) 53) as [Hd53|Hd54].
  - rewrite Hd53 in Hm3, He3.
    replace (Z.max 0 (Z.max (53 + e - 53) (3 - 1024 - 53) - e)) with 0 in Hm3, He3 by lia.
    rewrite Z.div_1_r in Hm3. rewrite Hm3, He3.
    destruct m2 as [|m3|m3]; [lia| |lia].
    exists m3, 0. split; [lia|]. split; [simpl; lia|].
    rewrite Z.add_0_r. destruct (Z.leb_spec e (1024 - 53)); [done|lia].
  - assert (Hd : Zdigits2 m2 = 54) by lia.
    assert (Hm2v : m2 = 2 ^ 53).
    { rewrite Hd in Hd2b. change (2 ^ (54 - 1)) with (2 ^ 53) in Hd2b. lia. }
    rewrite Hd in Hm3, He3.
    replace (Z.max 0 (Z.max (54 + e - 53) (3 - 1024 - 53) - e)) with 1 in Hm3, He3 by lia.
    rewrite Hm2v in Hm3 |- *.
    change (2 ^ 53 / 2 ^ 1) with (Z.pos 4503599627370496) in Hm3.
    rewrite Hm3, He3. cbv iota.
    exists 4503599627370496%positive, 1. split; [lia|]. split; [reflexivity|].
    destruct (Z.leb_spec (e + 1) (1024 - 53)); [reflexivity|lia].
Qed.

(** The first shift and the rounding: the rounded mantissa is within half a
    unit of the quotient [q + r / B]. *)
Lemma round_first_shift q e B r :
  0 < B → 0 ≤ r < B → 2 ^ 52 ≤ q < 2 ^ 54 → - 1074 ≤ e →
  ∃ n, 0 ≤ n ≤ 1 ∧
    let mrs := (shr_fexp f64_prec f64_emax q e (new_location B r)).1 in
    let m2 := round_nearest_even (shr_m mrs) (loc_of_shr_record mrs) in
    (shr_fexp f64_prec f64_emax q e (new_location B r)).2 = e + n ∧
    2 ^ 52 ≤ m2 ≤ 2 ^ 53 ∧
    2 ^ 53 * Z.abs (m2 * 2 ^ n * B - (q * B + r)) ≤ q * B.
Proof.
  intros HB Hr Hq Hlo. unfold f64_prec, f64_emax.
  pose proof (new_location_spec B r HB Hr) as Hloc.
  pose proof (Zdigits2_bounds q ltac:(lia)) as Hdb.
  assert (Hd : 53 ≤ Zdigits2 q ≤ 54).
  { split; [apply Zdigits2_ge|apply Zdigits2_le]; simpl; lia. }
  unfold shr_fexp, fexp, emin.
  destruct (Z.eq_dec (Zdigits2 q) 53) as [Hd53|Hd54].
  - rewrite Hd53 in Hdb |- *. change (2 ^ (53 - 1)) with (2 ^ 52) in Hdb.
    replace (Z.max (53 + e - 53) (3 - 1024 - 53) - e) with 0 by lia.
    exists 0. split; [lia|]. simpl shr. cbn [fst snd].
    rewrite shr_record_of_loc_m, loc_of_shr_record_of_loc.
    split; [lia|]. change (2 ^ 0) with 1. rewrite Z.mul_1_r.
    assert (HqB : 2 ^ 52 * B ≤ q * B) by nia.
    change (2 ^ 52) with 4503599627370496 in *.
    change (2 ^ 53) with 9007199254740992 in *.
    destruct (new_location B r) as [|[]];
      cbn [round_nearest_even];
      try destruct (Z.even q); (split; [lia|]);
      match goal with |- context [Z.abs ?x] => ring_simplify x end; lia.
  - assert (Hd' : Zdigits2 q = 54) by lia.
    rewrite Hd' in Hdb |- *. change (2 ^ (54 - 1)) with (2 ^ 53) in Hdb.
    replace (Z.max (54 + e - 53) (3 - 1024 - 53) - e) with 1 by lia.
    exists 1. split; [lia|]. simpl shr. cbn [fst snd].
    split; [lia|]. change (2 ^ 1) with 2.
    assert (HqB : 2 ^ 53 * B ≤ q * B) by nia.
    change (2 ^ 52) with 4503599627370496 in *.
    change (2 ^ 53) with 9007199254740992 in *.
    change (2 ^ 54) with 18014398509481984 in *.
    destruct q as [|[p|p|]|]; try lia.
    + (* odd quotient *)
      assert (Hp : Z.pos p~1 = 2 * Z.pos p + 1) by lia.
      destruct (new_location B r) as [|[]];
        cbn [shr_1 shr_record_of_loc loc_of_shr_record round_nearest_even shr_m orb];
        try destruct (Z.even (Z.pos p)); (split; [lia|]); rewrite ?Hp in *;
        match goal with |- context [Z.abs ?x] =>
          ring_simplify x end; lia.
    + (* even quotient *)
      assert (Hp : Z.pos p~0 = 2 * Z.pos p) by lia.
      destruct (new_location B r) as [|[]];
        cbn [shr_1 shr_record_of_loc loc_of_shr_record round_nearest_even shr_m orb];
        try destruct (Z.even (Z.pos p)); (split; [lia|]); rewrite ?Hp in *;
        match goal with |- context [Z.abs ?x] =>
          ring_simplify x end; lia.
Qed.

(** The quotient of two finite numbers with mantissas of 53 digits: the
    result is within 2^-53 of the quotient, relative to it. *)
Lemma SFdiv_error A ea B eb :
  2 ^ 52 ≤ Z.pos A < 2 ^ 53 → 2 ^ 52 ≤ Z.pos B < 2 ^ 53 →
  - 900 ≤ ea - eb ≤ 900 →
  ∃ m3 δ, 0 ≤ δ ≤ 2 ∧
    float64_div (S754_finite false A ea) (S754_finite false B eb)
      = S754_finite false m3 (ea - eb - 53 + δ) ∧
    Z.abs (Z.pos m3 * 2 ^ δ * Z.pos B - Z.pos A * 2 ^ 53) ≤ Z.pos A.
Proof.
  intros HA HB He.
  assert (HdA : Zdigits2 (Z.pos A) = 53).
  { apply Z.le_antisymm; [apply Zdigits2_le|apply Zdigits2_ge]; simpl; lia. }
  assert (HdB : Zdigits2 (Z.pos B) = 53).
  { apply Z.le_antisymm; [apply Zdigits2_le|apply Zdigits2_ge]; simpl; lia. }
  unfold float64_div, SFdiv, SFdiv_core_binary, f64_prec, f64_emax.
  cbn [xorb]. rewrite HdA, HdB. unfold fexp, emin.
  replace (Z.min (Z.max (53 + ea - (53 + eb) - 53) (3 - 1024 - 53)) (ea - eb))
    with (ea - eb - 53) by lia.
  replace (ea - eb - (ea - eb - 53)) with 53 by lia.
  cbv iota. rewrite Z.shiftl_mul_pow2 by lia.
  pose proof (Z_div_mod (Z.pos A * 2 ^ 53) (Z.pos B) ltac:(lia)) as Hdiv.
  destruct (Z.div_eucl (Z.pos A * 2 ^ 53) (Z.pos B)) as [q r].
  destruct Hdiv as [Hqr Hr].
  assert (Hq : 2 ^ 52 ≤ q < 2 ^ 54).
  { change (2 ^ 52) with 4503599627370496 in *.
    change (2 ^ 53) with 9007199254740992 in *.
    change (2 ^ 54) with 18014398509481984. nia. }
  destruct (round_first_shift q (ea - eb - 53) (Z.pos B) r ltac:(lia) Hr Hq ltac:(lia))
    as (n & Hn & He1 & Hm2 & Herr).
  unfold binary_round_aux. unfold f64_prec, f64_emax in *.
  destruct (shr_fexp 53 1024 q (ea - eb - 53) (new_location (Z.pos B) r)) as [mrs1 e1].
  cbn [fst snd] in He1, Hm2, Herr. subst e1.
  set (m2 := round_nearest_even (shr_m mrs1) (loc_of_shr_record mrs1)) in *.
  destruct (round_second_shift false m2 (ea - eb - 53 + n) Hm2 ltac:(lia) ltac:(lia))
    as (m3 & n2 & Hn2 & Hm3 & Hres).
  unfold f64_prec, f64_emax in Hres.
  exists m3, (n + n2). split; [lia|]. split.
  - rewrite Hres. f_equal. lia.
  - rewrite Z.pow_add_r by lia.
    replace (Z.pos m3 * (2 ^ n * 2 ^ n2)) with (m2 * 2 ^ n) by (rewrite <- Hm3; ring).
    rewrite Hqr. rewrite (Z.mul_comm (Z.pos B) q).
    assert (q * Z.pos B ≤ Z.pos A * 2 ^ 53) by lia.
    change (2 ^ 53) with 9007199254740992 in *. lia.
Qed.

#[local] Open Scope Q_scope.

Lemma two_power_nonzero e : ¬ 2 ^ e == 0.
Proof. apply Qpower_not_0. done. Qed.

Lemma two_power_pos e : 0 < 2 ^ e.
Proof. by apply Qpower_0_lt. Qed.

Lemma inject_Z_two_power k : (0 ≤ k)%Z → inject_Z (2 ^ k) == 2 ^ k.
Proof. intros Hk. by rewrite Zpower_Qpower. Qed.

(** The value of an [int] converted without rounding. *)
Lemma inject_Z_scaled a A ea :
  (ea ≤ 0)%Z → Z.pos A = (a * 2 ^ (- ea))%Z → inject_Z a == inject_Z (Z.pos A) * 2 ^ ea.
Proof.
  intros Hea ->. rewrite inject_Z_mult, inject_Z_two_power by lia.
  rewrite <- Qmult_assoc, <- Qpower_plus by done.
  replace (- ea + ea)%Z with 0%Z by lia. simpl. ring.
Qed.

(** A probability computed from frequencies below 2^53 is within 2^-53 of
    the exact ratio, relative to it. *)
Lemma float64_quotient_error a b :
  (1 ≤ a ≤ b)%Z → (b < 2 ^ 53)%Z →
  Qabs (float64_to_Q (float64_div (float64_of_int a) (float64_of_int b))
        - inject_Z a / inject_Z b)
  <= (1 # 2 ^ 53) * (inject_Z a / inject_Z b).
Proof.
  intros Hab Hb.
  destruct (float64_of_int_exact a ltac:(lia)) as (A & ea & -> & HA & Hea & HAv).
  destruct (float64_of_int_exact b ltac:(lia)) as (B & eb & -> & HB & Heb & HBv).
  destruct (SFdiv_error A ea B eb HA HB ltac:(lia)) as (m3 & δ & Hδ & -> & Herr).
  simpl float64_to_Q.
  pose proof (inject_Z_scaled a A ea ltac:(lia) HAv) as Ha.
  pose proof (inject_Z_scaled b B eb ltac:(lia) HBv) as Hb'.
  set (X := 2 ^ (ea - eb - 53)).
  assert (HX : 0 < X) by apply two_power_pos.
  assert (HB0 : 0 < inject_Z (Z.pos B)) by (change 0 with (inject_Z 0); rewrite <- Zlt_Qlt; lia).
  assert (HA0 : 0 < inject_Z (Z.pos A)) by (change 0 with (inject_Z 0); rewrite <- Zlt_Qlt; lia).
  assert (Hp : inject_Z (Z.pos m3) * 2 ^ (ea - eb - 53 + δ)
               == inject_Z (Z.pos m3 * 2 ^ δ * Z.pos B) * (X / inject_Z (Z.pos B))).
  { rewrite Qpower_plus by done. rewrite !inject_Z_mult, inject_Z_two_power by lia.
    fold X. field. lra. }
  assert (Hratio : inject_Z a / inject_Z b
                   == inject_Z (Z.pos A * 2 ^ 53) * (X / inject_Z (Z.pos B))).
  { rewrite Ha, Hb'. rewrite inject_Z_mult, inject_Z_two_power by lia.
    replace ea with (53 + (ea - eb - 53) + eb)%Z at 1 by lia.
    rewrite !Qpower_plus by done. fold X.
    pose proof (two_power_nonzero eb). field. split; [done|lra]. }
  rewrite Hp, Hratio.
  set (u := X / inject_Z (Z.pos B)).
  assert (Hu : 0 < u).
  { unfold u. apply Qlt_shift_div_l; lra. }
  setoid_replace (inject_Z (Z.pos m3 * 2 ^ δ * Z.pos B) * u
                  - inject_Z (Z.pos A * 2 ^ 53) * u)
    with ((inject_Z (Z.pos m3 * 2 ^ δ * Z.pos B) - inject_Z (Z.pos A * 2 ^ 53)) * u)
    using relation Qeq by ring.
  rewrite Qabs_Qmult, (Qabs_pos u) by lra.
  assert (Hc : (1 # 2 ^ 53) * inject_Z (2 ^ 53) == 1) by reflexivity.
  set (c1 := 1 # 2 ^ 53) in *.
  setoid_replace (c1 * (inject_Z (Z.pos A * 2 ^ 53) * u))
    with (c1 * inject_Z (2 ^ 53) * (inject_Z (Z.pos A) * u)) using relation Qeq
    by (rewrite inject_Z_mult; ring).
  rewrite Hc, Qmult_1_l.
  apply Qmult_le_compat_r; [|lra].
  unfold Qminus. rewrite <- inject_Z_opp, <- inject_Z_plus.
  apply Qabs_Qle_condition.
  rewrite <- inject_Z_opp, <- !Zle_Qle. lia.
Qed.

#[local] Close Scope Q_scope.

(** ** Tries built by [Insert] and [BuildBigramTable] *)

Section built_tries.
Context {sorter : SortSlice}.
Variables (n m : nat) (t : TrieA1).
Hypothesis Hbuilt : built n m t.
Hypothesis Hn : Z.of_nat n ≤ int_max.
Hypothesis Hm : 2 * Z.of_nat m ≤ int_max.

Lemma built_table_total prefix contextData :
  bigramTable t !! prefix = Some contextData →
  1 ≤ count_of contextData "_total" ≤ int_max.
Proof.
  intros Hctx. destruct (built_ok n m t Hbuilt) as [_ Htable].
  specialize (Htable Hm _ _ Hctx). lia.
Qed.

Lemma built_completions prefix node :
  TrieA1.searchPrefix t prefix = Some node →
  let completions := TrieA1.collectCompletions t node prefix in
  Forall (λ c, 1 ≤ cfrequency c) completions ∧
  totalFreq_of completions = sum_frequencies completions ∧
  sum_frequencies completions ≤ Z.of_nat n ∧
  (completions ≠ [] → 1 ≤ sum_frequencies completions) ∧
  ((0 < n)%nat → completions ≠ []).
Proof.
  intros Hnode. simpl. rewrite collectCompletions_below.
  destruct (built_ok n m t Hbuilt) as [Htrie _].
  destruct (Htrie Hn) as (Hok & Hw & Hlive).
  destruct (descend_ok _ _ _ Hnode Hok) as (Hok' & Hw' & Hlive').
  destruct (completions_below_ok node (range_string prefix) Hok') as [Hall Hsum].
  assert (Hall0 : Forall (λ c, 0 ≤ cfrequency c)
                    (completions_below node (range_string prefix))).
  { eapply Forall_impl; [exact Hall|]. simpl. intros. lia. }
  split; [done|]. split; [apply totalFreq_of_sum; [done|lia]|].
  split; [lia|]. split.
  - destruct (completions_below node (range_string prefix)) as [|c cs]; [done|].
    intros _. apply Forall_cons in Hall as [Hc Hcs].
    apply Forall_cons in Hall0 as [_ Hcs0].
    unfold sum_frequencies in *. simpl.
    assert (0 ≤ foldr (λ c acc, cfrequency c + acc) 0 cs); [|lia].
    clear -Hcs0. induction Hcs0; simpl; lia.
  - intros Hpos. apply completions_below_live; [done|].
    destruct (range_string prefix) as [|c path] eqn:Hpath.
    + simpl in Hnode. unfold TrieA1.searchPrefix in Hnode. rewrite Hpath in Hnode.
      injection Hnode as <-. by apply Hlive.
    + apply Hlive'. unfold TrieA1.searchPrefix in Hnode. by rewrite Hpath in Hnode.
Qed.

(** No probability of a ranking is NaN, and the ranking is ordered. *)
Lemma built_rank_ordered prefix node :
  TrieA1.searchPrefix t prefix = Some node →
  let ranked :=
    TrieA1.rankByContextualProbability t prefix
      (TrieA1.collectCompletions t node prefix) in
  Forall (λ s, probability s ≠ S754_nan) ranked ∧
  ordered_by TrieA1.byProbability ranked.
Proof.
  intros Hnode. simpl.
  destruct (built_completions prefix node Hnode) as (Hall & Htot & Hmax & Hone & _).
  rewrite rank_unfold.
  set (completions := TrieA1.collectCompletions t node prefix) in *.
  assert (Hgen : ∀ f : completion → suggestion,
            (∀ c, c ∈ completions → probability (f c) ≠ S754_nan) →
            Forall (λ s, probability s ≠ S754_nan)
              (sort_Slice TrieA1.byProbability (map f completions)) ∧
            ordered_by TrieA1.byProbability
              (sort_Slice TrieA1.byProbability (map f completions))).
  { intros f Hf.
    assert (Hin : Forall (λ s, probability s ≠ S754_nan) (map f completions)).
    { apply Forall_fmap, Forall_forall. exact Hf. }
    split.
    - by rewrite sort_Slice_perm.
    - by apply sort_Slice_ordered, byProbability_ordering. }
  destruct (bigramTable t !! prefix) as [contextData|] eqn:Hctx.
  - apply Hgen. intros c _. simpl.
    apply float64_quotient_not_nan. by eapply built_table_total.
  - apply Hgen. intros c Hc. simpl.
    apply float64_quotient_not_nan. rewrite Htot. split; [|lia].
    apply Hone. intros Hnil. rewrite Hnil in Hc. by apply elem_of_nil in Hc.
Qed.
End built_tries.

(** ** Tries of the tests *)

Lemma built_inserts words :
  built (length words) 0 (foldl TrieA1.Insert NewTrieA1 words).
Proof.
  induction words as [|w words IH] using rev_ind; simpl; [constructor|].
  rewrite foldl_app, length_app, Nat.add_1_r. simpl. by constructor.
Qed.

Lemma built_buildAlg1Trie corpus :
  built (length corpus) (length corpus - 1) (buildAlg1Trie corpus).
Proof.
  unfold buildAlg1Trie.
  apply (built_BuildBigramTable (length corpus) 0), built_inserts.
Qed.

(** ** The sum of the probabilities of a frequency ranking *)

#[local] Open Scope Q_scope.

Lemma probability_sum_perm l l' :
  l ≡ₚ l' → probability_sum l == probability_sum l'.
Proof.
  unfold probability_sum.
  induction 1 as [|s l l' _ IH|s s' l|l l' l'' _ IH1 _ IH2]; simpl.
  - reflexivity.
  - by rewrite IH.
  - ring.
  - by rewrite IH1.
Qed.

Lemma sum_frequencies_bound c completions :
  Forall (λ c, (1 ≤ cfrequency c)%Z) completions → c ∈ completions →
  (cfrequency c ≤ sum_frequencies completions)%Z.
Proof.
  intros Hall Hc. apply list_elem_of_split in Hc as (l1 & l2 & ->).
  rewrite sum_frequencies_app.
  apply Forall_app in Hall as [H1 H2]. apply Forall_cons in H2 as [_ H2].
  assert (Hpos : ∀ l, Forall (λ c, (1 ≤ cfrequency c)%Z) l → (0 ≤ sum_frequencies l)%Z).
  { clear. induction 1; unfold sum_frequencies in *; simpl; lia. }
  apply Hpos in H1, H2. unfold sum_frequencies in *. simpl. lia.
Qed.

(** The probabilities of a part of the completions add up to the share of
    the part in the total, within 2^-53 of it. *)
Lemma frequency_sum_error (T : Z) completions :
  (1 ≤ T < 2 ^ 53)%Z →
  Forall (λ c, (1 ≤ cfrequency c ≤ T)%Z) completions →
  Qabs (probability_sum (map (frequency_suggestion T) completions)
        - inject_Z (sum_frequencies completions) / inject_Z T)
  <= (1 # 2 ^ 53) * (inject_Z (sum_frequencies completions) / inject_Z T).
Proof.
  intros HT Hall.
  assert (HT0 : 0 < inject_Z T) by (change 0 with (inject_Z 0); rewrite <- Zlt_Qlt; lia).
  induction Hall as [|c cs Hc _ IH].
  - assert (Hz : inject_Z 0 / inject_Z T == 0) by (field; lra).
    change (probability_sum (map (frequency_suggestion T) [])) with 0.
    change (sum_frequencies []) with 0%Z.
    rewrite Hz. done.
  - pose proof (float64_quotient_error (cfrequency c) T ltac:(lia) ltac:(lia)) as Herr.
    change (probability_sum (map (frequency_suggestion T) (c :: cs)))
      with (float64_to_Q (float64_div (float64_of_int (cfrequency c)) (float64_of_int T))
            + probability_sum (map (frequency_suggestion T) cs)).
    change (sum_frequencies (c :: cs)) with (cfrequency c + sum_frequencies cs)%Z.
    rewrite inject_Z_plus.
    set (p := float64_to_Q _) in *.
    set (rest := probability_sum _) in *.
    set (x := inject_Z (cfrequency c) / inject_Z T) in *.
    set (y := inject_Z (sum_frequencies cs) / inject_Z T) in *.
    setoid_replace ((inject_Z (cfrequency c) + inject_Z (sum_frequencies cs)) / inject_Z T)
      with (x + y) using relation Qeq by (unfold x, y; field; lra).
    apply Qabs_Qle_condition in Herr, IH. apply Qabs_Qle_condition.
    set (eps := 1 # 2 ^ 53) in *. clearbody p rest x y eps.
    split; lra.
Qed.

#[local] Close Scope Q_scope.


(** ** UTF-8: encoding and decoding *)

Lemma forall_range_spec depth : ∀ lo f,
  forall_range depth lo f = true →
  ∀ z, lo ≤ z < lo + 2 ^ Z.of_nat depth → f z = true.
Proof.
  induction depth as [|d IH]; intros lo f Hall z Hz.
  - simpl in Hall. replace z with lo by (simpl in Hz; lia). done.
  - simpl in Hall. apply andb_true_iff in Hall as [H1 H2].
    rewrite Nat2Z.inj_succ, Z.pow_succ_r in Hz by lia.
    destruct (Z.lt_ge_cases z (lo + 2 ^ Z.of_nat d)).
    + apply (IH _ _ H1). lia.
    + apply (IH _ _ H2). lia.
Qed.

Lemma byte_val_of z : 0 ≤ z < 256 → byte_val (byte_of z) = z.
Proof.
  intros Hz. unfold byte_val, byte_of.
  rewrite N_ascii_embedding by lia. lia.
Qed.

Lemma range_string_cons a0 s0 :
  range_string (String a0 s0) =
  let b0 := byte_val a0 in
  if b0 <? 0x80 then b0 :: range_string s0 else
  match acceptRange b0 with
  | None => RuneError :: range_string s0
  | Some (sz, lo, hi) =>
    match s0 with
    | EmptyString => RuneError :: range_string s0
    | String a1 s1 =>
      let b1 := byte_val a1 in
      if negb (between lo hi b1) then RuneError :: range_string s0
      else if sz =? 2 then rune2 b0 b1 :: range_string s1
      else
      match s1 with
      | EmptyString => RuneError :: range_string s0
      | String a2 s2 =>
        let b2 := byte_val a2 in
        if negb (continuation b2) then RuneError :: range_string s0
        else if sz =? 3 then rune3 b0 b1 b2 :: range_string s2
        else
        match s2 with
        | EmptyString => RuneError :: range_string s0
        | String a3 s3 =>
          let b3 := byte_val a3 in
          if negb (continuation b3) then RuneError :: range_string s0
          else rune4 b0 b1 b2 b3 :: range_string s3
        end
      end
    end
  end.
Proof. destruct s0 as [|a1 [|a2 [|a3 s3]]]; reflexivity. Qed.

Lemma acceptRange_Some b0 sz lo hi :
  acceptRange b0 = Some (sz, lo, hi) →
  0xC2 ≤ b0 ≤ 0xF4 ∧ 0x80 ≤ lo ∧ hi ≤ 0xBF ∧ (sz = 2 ∨ sz = 3 ∨ sz = 4).
Proof.
  unfold acceptRange.
  repeat match goal with
  | |- context [if ?c then _ else _] => destruct c eqn:?
  end; intros [= <- <- <-]; lia.
Qed.


Lemma last_byte_decodes_all l : 0 ≤ l < 64 → last_byte_decodes l = true.
Proof.
  assert (Hall : forall_range 6 0 last_byte_decodes = true) by (vm_compute; reflexivity).
  intros Hr. by apply (forall_range_spec 6 0 _ Hall).
Qed.

Lemma encoding_decodes_all q : 0 ≤ q < 2 ^ 15 → encoding_decodes q = true.
Proof.
  assert (Hall : forall_range 15 0 encoding_decodes = true) by (vm_compute; reflexivity).
  intros Hr. by apply (forall_range_spec 15 0 _ Hall).
Qed.

Lemma decoding_scalar_all b0 : 0 ≤ b0 < 256 → decoding_scalar b0 = true.
Proof.
  assert (Hall : forall_range 8 0 decoding_scalar = true) by (vm_compute; reflexivity).
  intros Hr. by apply (forall_range_spec 8 0 _ Hall).
Qed.


Lemma lor_low6 H l : 0 ≤ l < 64 → Z.lor (Z.shiftl H 6) l = H * 64 + l.
Proof.
  intros Hl.
  assert (Hland : Z.land (Z.shiftl H 6) l = 0).
  { replace l with (Z.land l (Z.ones 6)).
    - rewrite (Z.land_comm l), Z.land_assoc, Z.land_ones, Z.shiftl_mul_pow2 by lia.
      rewrite Z.mod_mul by lia. apply Z.land_0_l.
    - rewrite Z.land_ones by lia. apply Z.mod_small. change (2 ^ 6) with 64. lia. }
  pose proof (Z.add_lor_land (Z.shiftl H 6) l) as Hadd.
  rewrite Hland in Hadd. rewrite Z.shiftl_mul_pow2 in * by lia.
  change (2 ^ 6) with 64 in *. lia.
Qed.

Lemma low6_range x : 0 ≤ Z.land x 0x3F < 64.
Proof.
  change 0x3F with (Z.ones 6). rewrite Z.land_ones by lia.
  change (2 ^ 6) with 64. apply Z.mod_pos_bound. lia.
Qed.

Lemma split_low6 r : r = Z.shiftr r 6 * 64 + Z.land r 0x3F.
Proof.
  change 0x3F with (Z.ones 6). rewrite Z.land_ones, Z.shiftr_div_pow2 by lia.
  change (2 ^ 6) with 64. pose proof (Z.div_mod r 64). lia.
Qed.

Lemma rune2_high b0 b1 : rune2 b0 b1 = high2 b0 * 64 + Z.land b1 0x3F.
Proof. unfold rune2. rewrite lor_low6 by apply low6_range. done. Qed.

Lemma rune3_high b0 b1 b2 : rune3 b0 b1 b2 = high3 b0 b1 * 64 + Z.land b2 0x3F.
Proof.
  unfold rune3, high3. rewrite <- lor_low6 by apply low6_range.
  by rewrite Z.shiftl_lor, Z.shiftl_shiftl by lia.
Qed.

Lemma rune4_high b0 b1 b2 b3 : rune4 b0 b1 b2 b3 = high4 b0 b1 b2 * 64 + Z.land b3 0x3F.
Proof.
  unfold rune4, high4. rewrite <- lor_low6 by apply low6_range.
  by rewrite !Z.shiftl_lor, !Z.shiftl_shiftl by lia.
Qed.

Lemma scalar_value_high q l :
  0 ≤ l < 64 → scalar_value (q * 64 + l) = scalar_high q.
Proof.
  intros Hl. unfold scalar_value, scalar_high.
  repeat match goal with
  | |- context [?a <=? ?b] => destruct (Z.leb_spec a b)
  | |- context [?a <? ?b] => destruct (Z.ltb_spec a b)
  end; simpl; try reflexivity; lia.
Qed.

Lemma scalar_value_range r :
  scalar_value r = true ↔ 0 ≤ r < 0xD800 ∨ 0xE000 ≤ r ≤ 0x10FFFF.
Proof.
  unfold scalar_value.
  repeat match goal with
  | |- context [?a <=? ?b] => destruct (Z.leb_spec a b)
  | |- context [?a <? ?b] => destruct (Z.ltb_spec a b)
  end; simpl; split; try done; lia.
Qed.

Lemma scalar_RuneError : scalar_value RuneError = true.
Proof. reflexivity. Qed.

Ltac split_andb :=
  repeat match goal with
  | H : _ && _ = true |- _ => apply andb_true_iff in H as [? ?]
  | H : (_ =? _) = true |- _ => apply Z.eqb_eq in H
  | H : (_ <=? _) = true |- _ => apply Z.leb_le in H
  | H : (_ <? _) = true |- _ => apply Z.ltb_lt in H
  | H : is_byte _ = true |- _ => unfold is_byte in H
  end.

(** Ranging over the encoding of a scalar value gives the value back. *)
Lemma range_string_of_rune r s :
  scalar_value r = true →
  range_string (String.append (string_of_rune r) s) = r :: range_string s.
Proof.
  intros Hr%scalar_value_range.
  pose proof (split_low6 r) as Hsplit. pose proof (low6_range r) as Hl.
  pose proof (last_byte_decodes_all _ Hl) as Hlast.
  unfold last_byte_decodes in Hlast. cbv zeta in Hlast. split_andb.
  assert (Hq : 0 ≤ Z.shiftr r 6 < 2 ^ 15).
  { rewrite Z.shiftr_div_pow2 by lia. change (2 ^ 6) with 64. change (2 ^ 15) with 32768.
    split; [apply Z.div_pos; lia|]. apply Z.div_lt_upper_bound; lia. }
  pose proof (encoding_decodes_all _ Hq) as Henc.
  unfold encoding_decodes in Henc.
  unfold string_of_rune.
  destruct (Z.leb_spec 0 r); [|lia].
  destruct (Z.ltb_spec r 0x80); simpl andb; cbv iota.
  { unfold bytes. cbn [map String.string_of_list_ascii].
    rewrite append_cons, append_empty, range_string_cons.
    cbv zeta. rewrite byte_val_of by lia.
    destruct (Z.ltb_spec r 0x80); [done|lia]. }
  destruct (Z.leb_spec 0x80 r); [|lia].
  destruct (Z.ltb_spec (Z.shiftr r 6) 0x2); [lia|].
  destruct (Z.ltb_spec r 0x800); simpl andb; cbv iota.
  { destruct (Z.ltb_spec (Z.shiftr r 6) 0x20); [|lia].
    cbv zeta in Henc. split_andb.
    unfold bytes. cbn [map String.string_of_list_ascii].
    rewrite !append_cons, append_empty, range_string_cons.
    cbv zeta. rewrite !byte_val_of by lia.
    set (b0 := Z.lor 192 (Z.shiftr r 6)) in *.
    destruct (Z.ltb_spec b0 0x80); [lia|].
    unfold acceptRange.
    destruct (Z.leb_spec 0xC2 b0); [|lia]. destruct (Z.leb_spec b0 0xDF); [|lia].
    simpl andb. cbv iota.
    unfold continuation in *.
    match goal with H : between 128 191 _ = true |- _ => rewrite H end.
    simpl negb. cbv iota. change (2 =? 2) with true. cbv iota.
    f_equal. rewrite rune2_high. lia. }
  destruct (Z.ltb_spec (Z.shiftr r 6) 0x20); [lia|].
  destruct (Z.leb_spec 0x800 r); [|lia].
  destruct (Z.ltb_spec r 0x10000); simpl andb; cbv iota.
  { destruct (Z.ltb_spec (Z.shiftr r 6) 0x400); [|lia].
    assert (Hns : between 0xD800 0xDFFF r = false).
    { unfold between. destruct (Z.leb_spec 0xD800 r), (Z.leb_spec r 0xDFFF); try done; lia. }
    rewrite Hns. simpl negb. cbv iota.
    assert (Hnq : between 0x360 0x37F (Z.shiftr r 6) = false).
    { unfold between.
      destruct (Z.leb_spec 0x360 (Z.shiftr r 6)), (Z.leb_spec (Z.shiftr r 6) 0x37F);
        try done; lia. }
    rewrite Hnq in Henc. cbv zeta in Henc. simpl orb in Henc.
    unfold bytes. cbn [map String.string_of_list_ascii].
    rewrite !append_cons, append_empty, range_string_cons.
    cbv zeta.
    replace (Z.shiftr r 12) with (Z.shiftr (Z.shiftr r 6) 6)
      by (by rewrite Z.shiftr_shiftr by lia).
    set (b0 := Z.lor 224 (Z.shiftr (Z.shiftr r 6) 6)) in *.
    set (b1 := Z.lor 128 (Z.land (Z.shiftr r 6) 63)) in *.
    destruct (acceptRange b0) as [[[sz lo] hi]|] eqn:Hacc; [|done].
    split_andb.
    rewrite !byte_val_of by lia. rewrite Hacc.
    destruct (Z.ltb_spec b0 0x80); [lia|].
    match goal with H : between lo hi _ = true |- _ => rewrite H end.
    simpl negb. cbv iota.
    replace (sz =? 2) with false by (symmetry; apply Z.eqb_neq; lia).
    match goal with H : continuation _ = true |- _ => rewrite H end.
    simpl negb. cbv iota.
    replace (sz =? 3) with true by (symmetry; apply Z.eqb_eq; lia).
    f_equal. rewrite rune3_high. lia. }
  destruct (Z.ltb_spec (Z.shiftr r 6) 0x400); [lia|].
  destruct (Z.leb_spec 0x10000 r); [|lia].
  destruct (Z.leb_spec r 0x10FFFF); [|lia]. simpl andb. cbv iota.
  destruct (Z.ltb_spec (Z.shiftr r 6) 0x4400); [|lia].
  cbv zeta in Henc.
  unfold bytes. cbn [map String.string_of_list_ascii].
    rewrite !append_cons, append_empty, range_string_cons.
  cbv zeta.
  replace (Z.shiftr r 18) with (Z.shiftr (Z.shiftr r 6) 12)
    by (by rewrite Z.shiftr_shiftr by lia).
  replace (Z.shiftr r 12) with (Z.shiftr (Z.shiftr r 6) 6)
      by (by rewrite Z.shiftr_shiftr by lia).
  set (b0 := Z.lor 240 (Z.shiftr (Z.shiftr r 6) 12)) in *.
  set (b1 := Z.lor 128 (Z.land (Z.shiftr (Z.shiftr r 6) 6) 63)) in *.
  set (b2 := Z.lor 128 (Z.land (Z.shiftr r 6) 63)) in *.
  destruct (acceptRange b0) as [[[sz lo] hi]|] eqn:Hacc; [|done].
  split_andb.
  rewrite !byte_val_of by lia. rewrite Hacc.
  destruct (Z.ltb_spec b0 0x80); [lia|].
  match goal with H : between lo hi _ = true |- _ => rewrite H end.
  simpl negb. cbv iota.
  replace (sz =? 2) with false by (symmetry; apply Z.eqb_neq; lia).
  repeat match goal with H : continuation _ = true |- _ => rewrite H; clear H end.
  simpl negb. cbv iota.
  replace (sz =? 3) with false by (symmetry; apply Z.eqb_neq; lia).
  f_equal. rewrite rune4_high. lia.
Qed.


Lemma rune2_scalar b0 b1 lo hi :
  0 ≤ b0 < 256 → acceptRange b0 = Some (2, lo, hi) →
  scalar_value (rune2 b0 b1) = true.
Proof.
  intros Hb0 Hacc. pose proof (decoding_scalar_all b0 Hb0) as Hall.
  unfold decoding_scalar in Hall. rewrite Hacc in Hall.
  change (2 =? 2) with true in Hall. cbv iota in Hall.
  rewrite rune2_high, scalar_value_high by apply low6_range. done.
Qed.

Lemma rune3_scalar b0 b1 b2 lo hi :
  0 ≤ b0 < 256 → 0 ≤ b1 < 256 → acceptRange b0 = Some (3, lo, hi) →
  between lo hi b1 = true →
  scalar_value (rune3 b0 b1 b2) = true.
Proof.
  intros Hb0 Hb1 Hacc Hbetween. pose proof (decoding_scalar_all b0 Hb0) as Hall.
  unfold decoding_scalar in Hall. rewrite Hacc in Hall.
  change (3 =? 2) with false in Hall. cbv iota in Hall.
  apply (forall_range_spec 8 0) with (z := b1) in Hall; [|done].
  rewrite Hbetween in Hall. change (3 =? 3) with true in Hall. cbn [negb orb] in Hall.
  cbv iota in Hall.
  rewrite rune3_high, scalar_value_high by apply low6_range. done.
Qed.

Lemma rune4_scalar b0 b1 b2 b3 lo hi :
  0 ≤ b0 < 256 → 0 ≤ b1 < 256 → acceptRange b0 = Some (4, lo, hi) →
  between lo hi b1 = true → continuation b2 = true →
  scalar_value (rune4 b0 b1 b2 b3) = true.
Proof.
  intros Hb0 Hb1 Hacc Hbetween Hcont. pose proof (decoding_scalar_all b0 Hb0) as Hall.
  unfold decoding_scalar in Hall. rewrite Hacc in Hall.
  change (4 =? 2) with false in Hall. cbv iota in Hall.
  apply (forall_range_spec 8 0) with (z := b1) in Hall; [|done].
  rewrite Hbetween in Hall. change (4 =? 3) with false in Hall. cbn [negb orb] in Hall.
  cbv iota in Hall.
  apply (forall_range_spec 6 0x80) with (z := b2) in Hall.
  - rewrite rune4_high, scalar_value_high by apply low6_range. done.
  - unfold continuation, between in Hcont. change (2 ^ Z.of_nat 6) with 64. lia.
Qed.

(** Every rune a range loop yields is a scalar value. *)
Lemma range_string_scalar_below n : ∀ s,
  (String.length s ≤ n)%nat → Forall (λ r, scalar_value r = true) (range_string s).
Proof.
  induction n as [|n IH]; intros s Hlen.
  { destruct s; [constructor|simpl in Hlen; lia]. }
  destruct s as [|a0 s0]; [constructor|]. simpl in Hlen.
  assert (Hs0 : Forall (λ r, scalar_value r = true) (range_string s0))
    by (apply IH; lia).
  assert (Herr : Forall (λ r, scalar_value r = true) (RuneError :: range_string s0))
    by (by constructor).
  rewrite range_string_cons. cbv zeta.
  pose proof (byte_val_range a0) as Hb0.
  destruct (Z.ltb_spec (byte_val a0) 0x80).
  { constructor; [|done]. apply scalar_value_range. lia. }
  destruct (acceptRange (byte_val a0)) as [[[sz lo] hi]|] eqn:Hacc; [|done].
  destruct (acceptRange_Some _ _ _ _ Hacc) as (_ & _ & _ & Hsz).
  destruct s0 as [|a1 s1]; [done|]. simpl in Hlen.
  pose proof (byte_val_range a1) as Hb1.
  destruct (between lo hi (byte_val a1)) eqn:Hbetween; [|done]. simpl negb. cbv iota.
  destruct (Z.eqb_spec sz 2) as [->|Hsz2].
  { constructor; [by eapply rune2_scalar|]. apply IH. lia. }
  destruct s1 as [|a2 s2]; [done|]. simpl in Hlen.
  destruct (continuation (byte_val a2)) eqn:Hcont2; [|done]. simpl negb. cbv iota.
  destruct (Z.eqb_spec sz 3) as [->|Hsz3].
  { constructor; [by eapply rune3_scalar|]. apply IH. lia. }
  assert (sz = 4) as -> by lia.
  destruct s2 as [|a3 s3]; [done|]. simpl in Hlen.
  destruct (continuation (byte_val a3)) eqn:Hcont3; [|done]. simpl negb. cbv iota.
  constructor; [by eapply rune4_scalar|]. apply IH. lia.
Qed.

Lemma range_string_scalar s : Forall (λ r, scalar_value r = true) (range_string s).
Proof. by apply (range_string_scalar_below (String.length s)). Qed.

(** Ranging over the encoding of scalar values gives the values back. *)
Lemma range_string_of_runes path s :
  Forall (λ r, scalar_value r = true) path →
  range_string (String.append (string_of_runes path) s) = path ++ range_string s.
Proof.
  induction 1 as [|r path Hr _ IH]; simpl; [by rewrite append_empty|].
  by rewrite append_assoc, range_string_of_rune, IH.
Qed.

Lemma append_empty_r s : String.append s EmptyString = s.
Proof. induction s as [|a s IH]; [done|]. by rewrite append_cons, IH. Qed.

Lemma range_string_encoded path :
  Forall (λ r, scalar_value r = true) path →
  range_string (string_of_runes path) = path.
Proof.
  intros Hpath. rewrite <- (append_empty_r (string_of_runes path)).
  rewrite range_string_of_runes by done. simpl. apply app_nil_r.
Qed.

(** Converting a string to runes and back, and ranging over the result,
    yields the runes of the string. *)
Lemma range_string_reencoded s :
  range_string (string_of_runes (range_string s)) = range_string s.
Proof. apply range_string_encoded, range_string_scalar. Qed.

Lemma valid_utf8_reencoded s : valid_utf8 (string_of_runes (range_string s)).
Proof. unfold valid_utf8. by rewrite range_string_reencoded. Qed.

(** Valid strings with the same runes are equal. *)
Lemma valid_utf8_inj s s' :
  valid_utf8 s → valid_utf8 s' → range_string s = range_string s' → s = s'.
Proof.
  unfold valid_utf8. intros Hs Hs' Heq. rewrite <- Hs, <- Hs'. by rewrite Heq.
Qed.

(** The encoding of a rune begins with a byte that is no continuation
    byte. *)
Lemma starts_rune_of_rune r s : starts_rune (String.append (string_of_rune r) s) = true.
Proof.
  assert (Herr : starts_rune (String.append (bytes [0xEF; 0xBF; 0xBD]) s) = true)
    by reflexivity.
  destruct (scalar_value r) eqn:Hr.
  - pose proof (range_string_of_rune r s Hr) as Hrange.
    apply scalar_value_range in Hr.
    destruct (String.append (string_of_rune r) s) as [|a0 s0] eqn:Happ; [done|].
    simpl. rewrite range_string_cons in Hrange. cbv zeta in Hrange.
    unfold continuation, between.
    destruct (Z.ltb_spec (byte_val a0) 0x80).
    { destruct (Z.leb_spec 0x80 (byte_val a0)); [lia|done]. }
    destruct (acceptRange (byte_val a0)) as [[[sz lo] hi]|] eqn:Hacc.
    + apply acceptRange_Some in Hacc as (Hb0 & _).
      destruct (Z.leb_spec (byte_val a0) 0xBF); [lia|]. by rewrite andb_false_r.
    + (* the rune is U+FFFD, whose first byte is 0xEF *)
      injection Hrange as Hrune _. subst r.
      revert Happ. unfold string_of_rune. simpl.
      unfold bytes. cbn [map String.string_of_list_ascii]. rewrite append_cons.
      intros [= <- _]. done.
  - unfold string_of_rune.
    apply not_true_iff_false in Hr. rewrite scalar_value_range in Hr.
    repeat match goal with
    | |- context [?a <=? ?b] => destruct (Z.leb_spec a b)
    | |- context [?a <? ?b] => destruct (Z.ltb_spec a b)
    end; simpl andb; cbv iota; try done; try lia.
    unfold between.
    repeat match goal with
    | |- context [?a <=? ?b] => destruct (Z.leb_spec a b)
    | |- context [?a <? ?b] => destruct (Z.ltb_spec a b)
    end; simpl; try done; lia.
Qed.

Lemma starts_rune_of_runes path s :
  starts_rune s = true → starts_rune (String.append (string_of_runes path) s) = true.
Proof.
  intros Hs. destruct path as [|r path]; simpl; [by rewrite append_empty|].
  rewrite append_assoc. apply starts_rune_of_rune.
Qed.

(** A range loop over [s ++ s'] yields the runes of [s] and then those of
    [s'], when [s'] does not begin with a continuation byte. *)
Lemma range_string_app_below n : ∀ s b s',
  (String.length s ≤ n)%nat → continuation (byte_val b) = false →
  range_string (String.append s (String b s')) =
  range_string s ++ range_string (String b s').
Proof.
  induction n as [|n IH]; intros s b s' Hlen Hb.
  { destruct s; [by rewrite append_empty|simpl in Hlen; lia]. }
  destruct s as [|a0 s0]; [by rewrite append_empty|]. simpl in Hlen.
  assert (Hs0 : range_string (String.append s0 (String b s')) =
                range_string s0 ++ range_string (String b s'))
    by (apply IH; [lia|done]).
  rewrite append_cons, !(range_string_cons a0). cbv zeta.
  destruct (Z.ltb_spec (byte_val a0) 0x80); [by rewrite Hs0|].
  destruct (acceptRange (byte_val a0)) as [[[sz lo] hi]|] eqn:Hacc; [|by rewrite Hs0].
  destruct (acceptRange_Some _ _ _ _ Hacc) as (_ & Hlo & Hhi & Hsz).
  assert (Hstop : between lo hi (byte_val b) = false).
  { revert Hb. unfold continuation, between.
    destruct (Z.leb_spec lo (byte_val b)), (Z.leb_spec (byte_val b) hi); try done.
    destruct (Z.leb_spec 0x80 (byte_val b)), (Z.leb_spec (byte_val b) 0xBF);
      try done; lia. }
  destruct s0 as [|a1 s1].
  { rewrite append_empty in *. by rewrite Hstop. }
  simpl in Hlen. rewrite append_cons in *.
  destruct (between lo hi (byte_val a1)) eqn:Hbetween; simpl negb; cbv iota;
    [|by rewrite Hs0].
  destruct (Z.eqb_spec sz 2) as [->|Hsz2].
  { rewrite IH; [done|lia|done]. }
  destruct s1 as [|a2 s2].
  { rewrite append_empty in *. rewrite Hb. simpl negb. cbv iota. by rewrite Hs0. }
  simpl in Hlen. rewrite append_cons in *.
  destruct (continuation (byte_val a2)) eqn:Hcont2; simpl negb; cbv iota;
    [|by rewrite Hs0].
  destruct (Z.eqb_spec sz 3) as [->|Hsz3].
  { rewrite IH; [done|lia|done]. }
  destruct s2 as [|a3 s3].
  { rewrite append_empty in *. rewrite Hb. simpl negb. cbv iota. by rewrite Hs0. }
  simpl in Hlen. rewrite append_cons in *.
  destruct (continuation (byte_val a3)) eqn:Hcont3; simpl negb; cbv iota;
    [|by rewrite Hs0].
  rewrite IH; [done|lia|done].
Qed.

Lemma range_string_app s s' :
  starts_rune s' = true →
  range_string (String.append s s') = range_string s ++ range_string s'.
Proof.
  destruct s' as [|b s'']; simpl.
  - intros _. by rewrite append_empty_r, app_nil_r.
  - intros Hb%negb_true_iff. by apply (range_string_app_below (String.length s)).
Qed.

(** Appending the encoding of scalar values to any string, valid or not,
    appends the values to its runes. *)
Lemma range_string_extend s path :
  Forall (λ r, scalar_value r = true) path →
  range_string (String.append s (string_of_runes path)) = range_string s ++ path.
Proof.
  intros Hpath. rewrite range_string_app, range_string_encoded; [done..|].
  rewrite <- (append_empty_r (string_of_runes path)). by apply starts_rune_of_runes.
Qed.

(** ** Keys and words of a trie *)

Lemma well_keyed_unfold node :
  well_keyed node ↔
  NoDup (map fst (children node)) ∧
  Forall (λ entry, scalar_value entry.1 = true ∧ well_keyed entry.2) (children node).
Proof.
  destruct node as [cs e f]; simpl.
  apply and_iff_compat_l.
  induction cs as [|[c child] cs IH]; simpl.
  - split; [constructor|done].
  - rewrite Forall_cons, IH. done.
Qed.

#[local] Arguments well_keyed : simpl never.

Lemma stored_below_unfold node :
  stored_below node =
  (if isEnd node then [([], frequency node)] else []) ++
  concat (map (λ entry, map (λ e, (entry.1 :: e.1, e.2)) (stored_below entry.2))
              (children node)).
Proof.
  destruct node as [cs e f]; simpl. f_equal.
  induction cs as [|[c child] cs IH]; simpl; [done|]. by rewrite IH.
Qed.

#[local] Arguments stored_below : simpl never.

Section keys.
Context {N : Type}.
Implicit Types (cs : list (rune * N)) (n : N) (c : rune).

Lemma child_lookup_None c cs : child_lookup c cs = None ↔ c ∉ map fst cs.
Proof.
  induction cs as [|[c0 n0] cs IH]; simpl.
  - split; [intros _; apply not_elem_of_nil|done].
  - rewrite not_elem_of_cons. destruct (Z.eqb_spec c0 c) as [->|Hne].
    + split; [done|]. by intros [? _].
    + rewrite IH. split; [by split|by intros [_ ?]].
Qed.

Lemma child_lookup_NoDup c n cs :
  NoDup (map fst cs) → (c, n) ∈ cs → child_lookup c cs = Some n.
Proof.
  induction cs as [|[c0 n0] cs IH]; simpl.
  - intros _ Hin. by apply elem_of_nil in Hin.
  - intros [Hnotin Hnodup]%NoDup_cons [[= -> ->]|Hin]%elem_of_cons.
    + by rewrite Z.eqb_refl.
    + destruct (Z.eqb_spec c0 c) as [->|Hne]; [|by apply IH].
      destruct Hnotin. apply list_elem_of_fmap. by exists (c, n).
Qed.

Lemma child_lookup_perm c cs cs' :
  cs ≡ₚ cs' → NoDup (map fst cs) → child_lookup c cs' = child_lookup c cs.
Proof.
  intros Hp Hnodup.
  destruct (child_lookup c cs) as [n|] eqn:Hcs.
  - apply child_lookup_NoDup; [by rewrite <- Hp|].
    rewrite <- Hp. by apply child_lookup_elem.
  - apply child_lookup_None. rewrite <- Hp. by apply child_lookup_None.
Qed.

Lemma child_lookup_app c cs1 cs2 :
  child_lookup c (cs1 ++ cs2) =
  match child_lookup c cs1 with
  | Some n => Some n
  | None => child_lookup c cs2
  end.
Proof.
  induction cs1 as [|[c0 n0] cs1 IH]; simpl; [done|].
  by destruct (c0 =? c).
Qed.

Lemma child_store_keys c n cs :
  map fst (child_store c n cs) =
  match child_lookup c cs with
  | Some _ => map fst cs
  | None => map fst cs ++ [c]
  end.
Proof.
  destruct (child_lookup c cs) as [n0|] eqn:Hcs.
  - destruct (child_store_present c n0 n cs Hcs) as (cs1 & cs2 & -> & ->).
    by rewrite !map_app.
  - rewrite child_store_absent by done. by rewrite map_app.
Qed.

Lemma child_store_NoDup c n cs :
  NoDup (map fst cs) → NoDup (map fst (child_store c n cs)).
Proof.
  intros Hnodup. rewrite child_store_keys.
  destruct (child_lookup c cs) eqn:Hcs; [done|].
  apply NoDup_app. split; [done|]. split; [|apply NoDup_singleton].
  intros c' Hc' ->%list_elem_of_singleton. by apply child_lookup_None in Hcs.
Qed.

Lemma child_store_Forall (P : rune * N → Prop) c n cs :
  Forall P cs → P (c, n) → Forall P (child_store c n cs).
Proof.
  intros Hcs Hn. destruct (child_lookup c cs) as [n0|] eqn:Hlookup.
  - destruct (child_store_present c n0 n cs Hlookup) as (cs1 & cs2 & -> & ->).
    apply Forall_app in Hcs as [H1 [_ H2]%Forall_cons].
    apply Forall_app. split; [done|]. by apply Forall_cons.
  - rewrite child_store_absent by done. apply Forall_app. split; [done|].
    by apply Forall_singleton.
Qed.
End keys.

Lemma well_keyed_New : well_keyed NewTrieNodeA1.
Proof. apply well_keyed_unfold. simpl. split; constructor. Qed.

Lemma well_keyed_child c child node :
  well_keyed node → child_lookup c (children node) = Some child →
  scalar_value c = true ∧ well_keyed child.
Proof.
  intros [_ Hcs]%well_keyed_unfold Hchild%child_lookup_elem.
  by apply (proj1 (Forall_forall _ _) Hcs (c, child)).
Qed.

Lemma insertRunes_well_keyed path : ∀ node,
  Forall (λ r, scalar_value r = true) path → well_keyed node →
  well_keyed (TrieA1.insertRunes path node).
Proof.
  induction path as [|c path IH]; intros node Hpath Hnode.
  - apply well_keyed_unfold. by apply well_keyed_unfold in Hnode.
  - apply Forall_cons in Hpath as [Hc Hpath].
    apply well_keyed_unfold. simpl.
    pose proof Hnode as [Hnodup Hcs]%well_keyed_unfold.
    split; [by apply child_store_NoDup|].
    apply child_store_Forall; [done|]. simpl. split; [done|].
    apply IH; [done|].
    destruct (child_lookup c (children node)) as [child|] eqn:Hchild.
    + by eapply well_keyed_child.
    + apply well_keyed_New.
Qed.

Lemma reorder_well_keyed node node' :
  reorder node node' → well_keyed node → well_keyed node'.
Proof.
  induction 1 as [cs cs' e f Hp|cs1 c child child' cs2 e f Hre IH];
    rewrite !well_keyed_unfold; simpl.
  - intros [Hnodup Hcs]. split; by rewrite <- Hp.
  - rewrite !map_app. simpl. intros [Hnodup Hcs]. split; [done|].
    apply Forall_app in Hcs as [H1 [[Hc Hchild] H2]%Forall_cons].
    apply Forall_app. split; [done|]. apply Forall_cons. split; [|done].
    split; [done|]. by apply IH.
Qed.

Lemma inserted_well_keyed words node : inserted words node → well_keyed node.
Proof.
  induction 1 as [|words node word _ IH|words node node' _ IH Hre].
  - apply well_keyed_New.
  - apply insertRunes_well_keyed; [apply range_string_scalar|done].
  - by eapply reorder_well_keyed.
Qed.

Lemma descend_well_keyed path : ∀ node node',
  well_keyed node → TrieA1.descend path node = Some node' →
  Forall (λ r, scalar_value r = true) path ∧ well_keyed node'.
Proof.
  induction path as [|c path IH]; intros node node' Hnode; simpl.
  - intros [= <-]. by split.
  - destruct (child_lookup c (children node)) as [child|] eqn:Hchild; [|done].
    destruct (well_keyed_child _ _ _ Hnode Hchild) as [Hc Hwk].
    intros [Hpath Hnode']%(IH _ _ Hwk). split; [by constructor|done].
Qed.

Lemma descend_app p1 : ∀ p2 node,
  TrieA1.descend (p1 ++ p2) node = TrieA1.descend p1 node ≫= TrieA1.descend p2.
Proof.
  induction p1 as [|c p1 IH]; intros p2 node; simpl; [done|].
  destruct (child_lookup c (children node)); [apply IH|done].
Qed.

(** A change of the iteration order changes no walk. *)
Lemma descend_reorder node node' :
  reorder node node' → well_keyed node →
  ∀ path,
    match TrieA1.descend path node, TrieA1.descend path node' with
    | Some n, Some n' => n = n' ∨ reorder n n'
    | None, None => True
    | _, _ => False
    end.
Proof.
  induction 1 as [cs cs' e f Hp|cs1 c child child' cs2 e f Hre IH];
    intros Hwk [|c0 path]; simpl.
  - right. by constructor.
  - apply well_keyed_unfold in Hwk as [Hnodup _]. simpl in Hnodup.
    rewrite (child_lookup_perm c0 cs cs') by done.
    destruct (child_lookup c0 cs) as [n|]; [|done].
    destruct (TrieA1.descend path n); [by left|done].
  - right. by constructor.
  - rewrite !child_lookup_app. simpl.
    destruct (child_lookup c0 cs1) as [n|].
    { destruct (TrieA1.descend path n); [by left|done]. }
    destruct (Z.eqb_spec c c0) as [->|Hne].
    + apply IH. apply well_keyed_unfold in Hwk as [_ Hcs]. simpl in Hcs.
      by apply Forall_app in Hcs as [_ [[_ ?] _]%Forall_cons].
    + destruct (child_lookup c0 cs2) as [n|]; [|done].
      destruct (TrieA1.descend path n); [by left|done].
Qed.

Lemma observe_reorder node node' path :
  reorder node node' → well_keyed node →
  observe (TrieA1.descend path node') = observe (TrieA1.descend path node).
Proof.
  intros Hre Hwk. pose proof (descend_reorder _ _ Hre Hwk path) as Hd.
  destruct (TrieA1.descend path node) as [n|], (TrieA1.descend path node') as [n'|];
    try done.
  destruct Hd as [->|Hnn]; [done|]. by destruct Hnn.
Qed.

Lemma occurrences_nil path : occurrences [] path = 0.
Proof. done. Qed.

Lemma occurrences_snoc words w path :
  occurrences (words ++ [w]) path =
  occurrences words path + (if decide (range_string w = path) then 1 else 0).
Proof.
  unfold occurrences, len. rewrite filter_app, length_app.
  rewrite filter_cons, filter_nil. destruct (decide (range_string w = path)); simpl; lia.
Qed.

Lemma occurrences_range words path : 0 ≤ occurrences words path ≤ len words.
Proof.
  unfold occurrences, len. pose proof (length_filter (λ w, range_string w = path) words).
  lia.
Qed.

Lemma occurrences_pos words path :
  0 < occurrences words path ↔ ∃ w, w ∈ words ∧ range_string w = path.
Proof.
  unfold occurrences, len. split.
  - intros Hpos. destruct (filter _ words) as [|w l] eqn:Hf; [simpl in Hpos; lia|].
    assert (Hw : w ∈ filter (λ w, range_string w = path) words) by (rewrite Hf; by left).
    apply list_elem_of_filter in Hw as [? ?]. eauto.
  - intros (w & Hw & Hpath).
    assert (Hin : w ∈ filter (λ w, range_string w = path) words)
      by (by apply list_elem_of_filter).
    destruct (filter _ words); [by apply elem_of_nil in Hin|simpl; lia].
Qed.

(** What [Insert] stores: at the end of every walk the counter is the number
    of inserted words with the runes of the walk, and the flag is set when
    there is one. *)
Lemma inserted_observe words node :
  inserted words node → len words ≤ int_max →
  ∀ path,
    observe (TrieA1.descend path node) =
    (0 <? occurrences words path, occurrences words path).
Proof.
  induction 1 as [|words node word Hins IH|words node node' Hins IH Hre];
    intros Hlen path.
  - rewrite occurrences_nil. by destruct path.
  - unfold len in Hlen. rewrite length_app in Hlen. simpl in Hlen.
    specialize (IH ltac:(unfold len; lia)).
    rewrite occurrences_snoc.
    pose proof (occurrences_range words path) as Hocc. unfold len in Hocc.
    destruct (decide (range_string word = path)) as [<-|Hne].
    + rewrite descend_insertRunes. cbv zeta.
      specialize (IH (range_string word)).
      assert (Hf : frequency (default NewTrieNodeA1
                    (TrieA1.descend (range_string word) node))
                   = occurrences words (range_string word)).
      { destruct (TrieA1.descend (range_string word) node); simpl in *; congruence. }
      simpl. rewrite Hf, wrap_in_range by (unfold int_min, int_max in *; lia).
      f_equal. symmetry. apply Z.ltb_lt. lia.
    + pose proof (descend_insertRunes_other (range_string word) path node
                    ltac:(congruence)) as Hobs.
      cbv zeta in Hobs. fold observe in Hobs.
      rewrite Hobs, IH, Z.add_0_r. done.
  - rewrite (observe_reorder node node') by (done || by eapply inserted_well_keyed).
    by apply IH.
Qed.

Lemma inserted_foldl words :
  inserted words (root (foldl TrieA1.Insert NewTrieA1 words)).
Proof.
  induction words as [|w words IH] using rev_ind; simpl; [constructor|].
  rewrite foldl_app. simpl. by constructor.
Qed.

Lemma inserted_buildAlg1Trie corpus : inserted corpus (root (buildAlg1Trie corpus)).
Proof. apply inserted_foldl. Qed.

Lemma built_inserted n m t :
  built n m t → ∃ words, length words = n ∧ inserted words (root t).
Proof.
  induction 1 as [|n m t word _ (words & Hlen & Hins)
                  |n m t corpus _ (words & Hlen & Hins)
                  |n m t root' _ (words & Hlen & Hins) Hre].
  - exists []. split; [done|constructor].
  - exists (words ++ [word]). split; [rewrite length_app; simpl; lia|by constructor].
  - by exists words.
  - exists words. split; [done|]. by econstructor.
Qed.

(** The words below a node are the ends of the walks from it. *)
Lemma stored_below_descend node : ∀ ext f,
  well_keyed node → (ext, f) ∈ stored_below node →
  ∃ n, TrieA1.descend ext node = Some n ∧ isEnd n = true ∧ frequency n = f.
Proof.
  induction node as [cs e f0 IH] using TrieNodeA1_ind. intros ext f Hwk.
  rewrite stored_below_unfold. simpl. rewrite elem_of_app. intros [Hin|Hin].
  - destruct e; [|by apply elem_of_nil in Hin].
    apply list_elem_of_singleton in Hin as [= -> ->]. by eexists.
  - apply elem_of_concat in Hin as (l & Hin & Hl).
    apply list_elem_of_fmap in Hl as ([c child] & -> & Hchild).
    apply list_elem_of_fmap in Hin as ([ext' f'] & [= -> ->] & Hin). simpl in *.
    apply well_keyed_unfold in Hwk as [Hnodup Hcs]. simpl in *.
    rewrite Forall_forall in IH, Hcs.
    destruct (Hcs _ Hchild) as [_ Hwk'].
    destruct (IH _ Hchild _ _ Hwk' Hin) as (n & Hn & He & Hf).
    exists n. by rewrite (child_lookup_NoDup c child cs).
Qed.

Lemma descend_stored_below ext : ∀ node n,
  TrieA1.descend ext node = Some n → isEnd n = true →
  (ext, frequency n) ∈ stored_below node.
Proof.
  induction ext as [|c ext IH]; intros node n; simpl.
  - intros [= <-] He. rewrite stored_below_unfold, He. set_solver.
  - destruct (child_lookup c (children node)) as [child|] eqn:Hchild; [|done].
    intros Hn He. rewrite stored_below_unfold. apply elem_of_app. right.
    apply elem_of_concat.
    exists (map (λ e, (c :: e.1, e.2)) (stored_below child)). split.
    + apply list_elem_of_fmap. exists (ext, frequency n). split; [done|]. by eapply IH.
    + apply list_elem_of_fmap. exists (c, child). split; [done|].
      by apply child_lookup_elem.
Qed.

(** No word is listed twice. *)
Lemma stored_below_NoDup node :
  well_keyed node → NoDup (map fst (stored_below node)).
Proof.
  induction node as [cs e f IH] using TrieNodeA1_ind. intros Hwk.
  apply well_keyed_unfold in Hwk as [Hnodup Hcs]. simpl in *.
  rewrite stored_below_unfold. simpl. rewrite map_app.
  assert (Hrest : NoDup (map fst (concat
            (map (λ entry : rune * TrieNodeA1,
                    map (λ e : list rune * Z, (entry.1 :: e.1, e.2))
                        (stored_below entry.2)) cs))) ∧
          ∀ p, p ∈ map fst (concat
            (map (λ entry : rune * TrieNodeA1,
                    map (λ e : list rune * Z, (entry.1 :: e.1, e.2))
                        (stored_below entry.2)) cs)) →
               ∃ c p', p = c :: p' ∧ c ∈ map fst cs).
  { clear e f.
    induction cs as [|[c child] cs IHcs]; simpl.
    { split; [constructor|]. intros p Hp. by apply elem_of_nil in Hp. }
    apply Forall_cons in IH as [IHchild IH].
    apply Forall_cons in Hcs as [[_ Hchild] Hcs].
    apply NoDup_cons in Hnodup as [Hc Hnodup].
    destruct (IHcs IH Hnodup Hcs) as [Hnd Hheads]. clear IHcs.
    rewrite map_app, map_map. simpl. split.
    - apply NoDup_app. split; [|split; [|done]].
      + rewrite <- (map_map fst (cons c)).
        apply (NoDup_fmap_2 (cons c)), IHchild, Hchild.
      + intros p Hp Hp'. apply list_elem_of_fmap in Hp as (e' & -> & _).
        destruct (Hheads _ Hp') as (c' & p' & [= <- _] & Hc'). done.
    - intros p [Hp|Hp]%elem_of_app.
      + apply list_elem_of_fmap in Hp as (e' & -> & _).
        exists c, e'.1. split; [done|]. by left.
      + destruct (Hheads _ Hp) as (c' & p' & -> & Hc').
        exists c', p'. split; [done|]. by right. }
  destruct Hrest as [Hnd Hheads].
  destruct e; simpl; [|done].
  apply NoDup_cons. split; [|done].
  intros Hnil. by destruct (Hheads _ Hnil) as (c & p' & ? & _).
Qed.

Lemma completions_below_stored node : ∀ path,
  completions_below node path =
  map (λ e, {| cword := string_of_runes (path ++ e.1); cfrequency := e.2 |})
      (stored_below node).
Proof.
  induction node as [cs e f IH] using TrieNodeA1_ind. intros path.
  rewrite completions_below_unfold, stored_below_unfold. simpl.
  rewrite map_app. f_equal.
  - destruct e; simpl; [|done]. by rewrite app_nil_r.
  - induction IH as [|[c child] cs Hchild _ IHcs]; simpl; [done|].
    rewrite map_app, IHcs, Hchild, map_map. simpl. f_equal.
    apply map_ext. intros [ext f']. simpl. by rewrite <- app_assoc.
Qed.

(** ** What [collectCompletions] and [Autocomplete] find *)

Lemma NoDup_fmap_rel {A B C} (f : A → B) (g : A → C) (l : list A) :
  (∀ x y, x ∈ l → y ∈ l → g x = g y → f x = f y) →
  NoDup (map f l) → NoDup (map g l).
Proof.
  induction l as [|x l IH]; simpl; [constructor|].
  intros Hrel [Hx Hl]%NoDup_cons. apply NoDup_cons. split.
  - intros (y & Hxy & Hy)%list_elem_of_fmap. apply Hx.
    apply list_elem_of_fmap. exists y. split; [|done].
    apply Hrel; [by left|by right|done].
  - apply IH; [|done]. intros ? ? ? ?. apply Hrel; by right.
Qed.

Lemma string_of_runes_inj p q :
  Forall (λ r, scalar_value r = true) p → Forall (λ r, scalar_value r = true) q →
  string_of_runes p = string_of_runes q → p = q.
Proof.
  intros Hp Hq Heq. rewrite <- (range_string_encoded p), <- (range_string_encoded q) by done.
  by rewrite Heq.
Qed.

Lemma stored_below_scalar node ext f :
  well_keyed node → (ext, f) ∈ stored_below node →
  Forall (λ r, scalar_value r = true) ext.
Proof.
  intros Hwk (n & Hn & _)%stored_below_descend; [|done].
  by destruct (descend_well_keyed _ _ _ Hwk Hn).
Qed.

Lemma completions_below_NoDup node path :
  well_keyed node → Forall (λ r, scalar_value r = true) path →
  NoDup (map cword (completions_below node path)).
Proof.
  intros Hwk Hpath. rewrite completions_below_stored, map_map. simpl.
  eapply (NoDup_fmap_rel fst); [|by apply stored_below_NoDup].
  intros [e1 f1] [e2 f2] H1 H2 Heq. simpl in *.
  apply string_of_runes_inj in Heq.
  - by apply app_inv_head in Heq.
  - apply Forall_app. split; [done|]. by eapply stored_below_scalar.
  - apply Forall_app. split; [done|]. by eapply stored_below_scalar.
Qed.

Lemma observe_isEnd path node :
  (observe (TrieA1.descend path node)).1 = true ↔
  ∃ n, TrieA1.descend path node = Some n ∧ isEnd n = true.
Proof.
  destruct (TrieA1.descend path node) as [n|]; simpl.
  - split; [by exists n|]. by intros (? & [= <-] & ?).
  - split; [done|]. by intros (? & ? & _).
Qed.

(** The completions below the node of a prefix, in a trie that holds
    [words]. *)
Lemma inserted_completions words root0 path node c :
  inserted words root0 → len words ≤ int_max →
  Forall (λ r, scalar_value r = true) path →
  TrieA1.descend path root0 = Some node →
  (c ∈ completions_below node path ↔
   ∃ w ext, w ∈ words ∧ range_string w = path ++ ext ∧
            c = {| cword := string_of_runes (range_string w);
                   cfrequency := occurrences words (range_string w) |}).
Proof.
  intros Hins Hlen Hpath Hnode.
  pose proof (inserted_well_keyed _ _ Hins) as Hwk.
  destruct (descend_well_keyed _ _ _ Hwk Hnode) as [_ Hwk'].
  rewrite completions_below_stored. split.
  - intros ([ext f] & -> & Hin)%list_elem_of_fmap. simpl.
    destruct (stored_below_descend _ _ _ Hwk' Hin) as (n & Hn & He & Hf).
    pose proof (inserted_observe _ _ Hins Hlen (path ++ ext)) as Hobs.
    rewrite descend_app, Hnode in Hobs. simpl in Hobs. rewrite Hn in Hobs.
    simpl in Hobs. injection Hobs as Hpos Hocc. rewrite He in Hpos.
    symmetry in Hpos. apply Z.ltb_lt, occurrences_pos in Hpos as (w & Hw & Hrange).
    exists w, ext. rewrite Hrange. split; [done|]. split; [done|]. congruence.
  - intros (w & ext & Hw & Hrange & ->).
    pose proof (inserted_observe _ _ Hins Hlen (range_string w)) as Hobs.
    assert (Hpos : 0 < occurrences words (range_string w))
      by (apply occurrences_pos; eauto).
    rewrite Hrange, descend_app, Hnode in Hobs. simpl in Hobs.
    destruct (TrieA1.descend ext node) as [n|] eqn:Hn; simpl in Hobs.
    + injection Hobs as He Hf.
      apply list_elem_of_fmap. exists (ext, frequency n). simpl.
      split; [by rewrite Hrange, Hf|].
      apply descend_stored_below; [done|]. rewrite He. apply Z.ltb_lt.
      by rewrite <- Hrange.
    + injection Hobs as He Hf. rewrite <- Hrange in Hf. lia.
Qed.

Lemma HasPrefix_split s p :
  HasPrefix s p = true → ∃ rest, s = String.append p rest.
Proof.
  revert s. induction p as [|a p IH]; intros s; simpl.
  - intros _. by exists s.
  - destruct s as [|b s]; [done|].
    intros [Hab [rest ->]%IH]%andb_true_iff. apply Ascii.eqb_eq in Hab as ->.
    by exists rest.
Qed.

(** A word that begins with the bytes of a valid prefix begins with its
    runes. *)
Lemma HasPrefix_runes w prefix :
  valid_utf8 prefix → HasPrefix w prefix = true →
  ∃ ext, range_string w = range_string prefix ++ ext.
Proof.
  intros Hvalid [rest ->]%HasPrefix_split. exists (range_string rest).
  unfold valid_utf8 in Hvalid. rewrite <- Hvalid at 1.
  apply range_string_of_runes, range_string_scalar.
Qed.

(** For valid UTF-8 the runes determine the word. *)
Lemma occurrences_valid words w :
  Forall valid_utf8 words → valid_utf8 w →
  occurrences words (range_string w) = len (filter (λ w', w' = w) words) ∧
  ((∃ w', w' ∈ words ∧ range_string w' = range_string w) ↔ w ∈ words).
Proof.
  intros Hvalid Hw.
  assert (Hsame : ∀ w', w' ∈ words → range_string w' = range_string w ↔ w' = w).
  { intros w' Hw'. split; [|by intros ->].
    apply valid_utf8_inj; [|done]. by apply (proj1 (Forall_forall _ _) Hvalid). }
  split.
  - unfold occurrences. f_equal. clear -Hsame.
    induction words as [|w0 words IH]; [done|].
    rewrite !filter_cons.
    rewrite IH by (intros; apply Hsame; by right).
    pose proof (Hsame w0 ltac:(by left)) as H0.
    destruct (decide (range_string w0 = range_string w)),
             (decide (w0 = w)); tauto.
  - split.
    + intros (w' & Hw' & Heq). by apply Hsame in Heq as <-.
    + intros ?. by exists w.
Qed.

(** The counter and the flag that a walk along a word finds. *)
Lemma inserted_counts words t w :
  inserted words (root t) → len words ≤ int_max →
  frequencyOf t w = occurrences words (range_string w) ∧
  (stored t w = true ↔ ∃ w', w' ∈ words ∧ range_string w' = range_string w).
Proof.
  intros Hins Hlen.
  pose proof (inserted_observe _ _ Hins Hlen (range_string w)) as Hobs.
  split.
  - unfold frequencyOf, TrieA1.searchPrefix.
    destruct (TrieA1.descend _ _); simpl in Hobs; congruence.
  - rewrite <- occurrences_pos, <- Z.ltb_lt.
    unfold stored, TrieA1.searchPrefix.
    destruct (TrieA1.descend _ _); simpl in Hobs; injection Hobs as <- _; done.
Qed.

Section autocomplete.
Context {sorter : SortSlice}.

Lemma rank_word_perm t prefix completions :
  map word (TrieA1.rankByContextualProbability t prefix completions)
  ≡ₚ map cword completions.
Proof.
  destruct (rank_perm t prefix completions) as (f & Hp & Hf).
  rewrite Hp, map_map. by erewrite map_ext.
Qed.

Lemma Autocomplete_total t prefix k :
  match TrieA1.searchPrefix t prefix with
  | None => TrieA1.Autocomplete t prefix k = Returns []
  | Some node =>
    let ranked :=
      TrieA1.rankByContextualProbability t prefix
        (TrieA1.collectCompletions t node prefix) in
    if k <? 0 then TrieA1.Autocomplete t prefix k = Panics
    else TrieA1.Autocomplete t prefix k = Returns (take (Z.to_nat k) ranked)
  end.
Proof.
  unfold TrieA1.Autocomplete.
  destruct (TrieA1.searchPrefix t prefix) as [node|]; [|done]. cbv zeta.
  set (ranked := TrieA1.rankByContextualProbability _ _ _).
  pose proof (len_nonneg ranked) as Hlen. unfold slice_to.
  destruct (Z.gtb_spec k (len ranked)), (Z.ltb_spec k 0); try lia.
  - destruct (Z.ltb_spec (len ranked) 0); [lia|].
    f_equal. unfold len in *. rewrite !take_ge by lia. done.
  - done.
  - done.
Qed.

End autocomplete.

(** ** [BuildBigramTable] counts the adjacent pairs *)

Lemma bigram_count_cons w1 w2 corpus a b :
  bigram_count (a :: b :: corpus) w1 w2 =
  (if decide ((a, b) = (w1, w2)) then 1 else 0) + bigram_count (b :: corpus) w1 w2.
Proof.
  unfold bigram_count, len. cbn [pairs]. rewrite filter_cons.
  destruct (decide ((a, b) = (w1, w2))); simpl; lia.
Qed.

Lemma bigram_count_range corpus w1 w2 :
  0 ≤ bigram_count corpus w1 w2 ≤ Z.max 0 (len corpus - 1).
Proof.
  unfold bigram_count, len.
  pose proof (length_filter (λ p, p = (w1, w2)) (pairs corpus)) as Hf.
  assert (Hp : (length (pairs corpus) ≤ length corpus - 1)%nat).
  { clear. induction corpus as [|a [|b corpus] IH]; simpl in *; lia. }
  lia.
Qed.

Lemma addBigram_count a b table w1 w2 :
  w2 ≠ "_total" →
  int_min ≤ successor_count table w1 w2 < int_max →
  successor_count (TrieA1.addBigram a b table) w1 w2 =
  successor_count table w1 w2 + (if decide ((a, b) = (w1, w2)) then 1 else 0).
Proof.
  intros Hw2 Hbound. unfold successor_count in *. rewrite addBigram_lookup.
  destruct (decide (a = w1)) as [->|Hne].
  - cbv zeta. simpl. rewrite count_of_insert_ne by done.
    assert (H0 : count_of (default {[ "_total" := 0 ]} (table !! w1)) w2
                 = count_of (default ∅ (table !! w1)) w2).
    { destruct (table !! w1); [done|]. simpl. unfold count_of.
      rewrite lookup_singleton_ne by done. by rewrite lookup_empty. }
    destruct (decide (b = w2)) as [->|Hb].
    + rewrite count_of_insert_eq, H0, wrap_in_range by lia.
      destruct (decide ((w1, w2) = (w1, w2))); [done|congruence].
    + rewrite count_of_insert_ne, H0 by done.
      destruct (decide ((w1, b) = (w1, w2))); [congruence|lia].
  - destruct (decide ((a, b) = (w1, w2))); [congruence|lia].
Qed.

Lemma addBigram_None a b table w :
  TrieA1.addBigram a b table !! w = None ↔ table !! w = None ∧ a ≠ w.
Proof.
  rewrite addBigram_lookup. destruct (decide (a = w)) as [->|Hne].
  - cbv zeta. split; [done|]. by intros [_ ?].
  - split; [by split|by intros [? _]].
Qed.

Lemma bigramLoop_counts corpus : ∀ bound table,
  (∀ w1 w2, w2 ≠ "_total" → 0 ≤ successor_count table w1 w2 ≤ bound) →
  bound + len corpus ≤ int_max + 1 →
  (∀ w1 w2, w2 ≠ "_total" →
     successor_count (TrieA1.bigramLoop corpus table) w1 w2 =
     successor_count table w1 w2 + bigram_count corpus w1 w2) ∧
  (∀ w1, TrieA1.bigramLoop corpus table !! w1 = None ↔
         table !! w1 = None ∧ w1 ∉ map fst (pairs corpus)).
Proof.
  induction corpus as [|a [|b corpus] IH]; intros bound table Hbound Hlen.
  - rewrite bigramLoop_nil. split.
    + intros. unfold bigram_count. simpl. unfold len. simpl. lia.
    + intros w1. simpl. split; [intros ?; split; [done|apply not_elem_of_nil]|by intros [? _]].
  - rewrite bigramLoop_single. split.
    + intros. unfold bigram_count. simpl. unfold len. simpl. lia.
    + intros w1. simpl. split; [intros ?; split; [done|apply not_elem_of_nil]|by intros [? _]].
  - rewrite bigramLoop_cons.
    unfold len in Hlen. simpl in Hlen.
    assert (Hstep : ∀ w1 w2, w2 ≠ "_total" →
              successor_count (TrieA1.addBigram a b table) w1 w2 =
              successor_count table w1 w2 +
              (if decide ((a, b) = (w1, w2)) then 1 else 0)).
    { intros w1 w2 Hw2. apply addBigram_count; [done|].
      specialize (Hbound w1 w2 Hw2). unfold int_min, int_max in *. lia. }
    destruct (IH (bound + 1) (TrieA1.addBigram a b table)) as [Hcount Hnone].
    { intros w1 w2 Hw2. rewrite Hstep by done. specialize (Hbound w1 w2 Hw2).
      destruct (decide _); lia. }
    { unfold len. simpl. lia. }
    split.
    + intros w1 w2 Hw2. rewrite Hcount, Hstep, bigram_count_cons by done. lia.
    + intros w1. rewrite Hnone, addBigram_None. cbn [pairs map fst].
      rewrite not_elem_of_cons. simpl. split.
      * intros [[? ?] ?]. split; [done|]. split; [congruence|done].
      * intros [? [? ?]]. split; [split; [done|congruence]|done].
Qed.

(** ** Children maps and sorted slices *)

Section children_map.
Context {N M : Type} (f : N → M).

Lemma child_lookup_map c (cs : list (rune * N)) :
  child_lookup c (map (λ entry, (entry.1, f entry.2)) cs) = f <$> child_lookup c cs.
Proof.
  induction cs as [|[c0 n0] cs IH]; simpl; [done|]. by destruct (c0 =? c).
Qed.

Lemma child_store_map c n (cs : list (rune * N)) :
  child_store c (f n) (map (λ entry, (entry.1, f entry.2)) cs) =
  map (λ entry, (entry.1, f entry.2)) (child_store c n cs).
Proof.
  induction cs as [|[c0 n0] cs IH]; simpl; [done|].
  destruct (c0 =? c); simpl; [done|]. by rewrite IH.
Qed.
End children_map.

Lemma StronglySorted_weaken {A} (R R' : A → A → Prop) l :
  (∀ a b, R a b → R' a b) → StronglySorted R l → StronglySorted R' l.
Proof.
  intros HR. induction 1 as [|a l _ IH Hall]; constructor; [done|].
  eapply Forall_impl; [done|]. intros b. apply HR.
Qed.

(** The ten first of a slice sorted by descending key. *)
Lemma sorted_cap {sorter : SortSlice} {A} (key : A → Z) (collected : list A) :
  let sorted := sort_Slice (λ a b, key a >? key b) collected in
  let res := if len sorted >? 10 then take 10 sorted else sorted in
  res = take 10 sorted ∧
  StronglySorted (λ a b, key b ≤ key a) res ∧
  res ++ drop 10 sorted ≡ₚ collected ∧
  (∀ a b, a ∈ res → b ∈ drop 10 sorted → key b ≤ key a).
Proof.
  cbv zeta. set (sorted := sort_Slice _ collected).
  assert (Hres : (if len sorted >? 10 then take 10 sorted else sorted) = take 10 sorted).
  { destruct (Z.gtb_spec (len sorted) 10) as [|Hle]; [done|].
    unfold len in Hle. rewrite take_ge by lia. done. }
  rewrite Hres. split; [done|].
  assert (Hord : StronglySorted (λ a b, key b ≤ key a) sorted).
  { pose proof (sort_Slice_ordered A (λ a b, key a >? key b) collected) as Hsorted.
    unfold ordered_by in Hsorted.
    eapply StronglySorted_weaken; [|apply Hsorted].
    - intros a b Hab. simpl in Hab. lia.
    - repeat split; intros; lia. }
  rewrite <- (take_drop 10 sorted) in Hord.
  apply StronglySorted_app in Hord as (Hcross & Hl & _).
  split; [done|]. split; [|by intros; apply Hcross].
  rewrite take_drop. apply sort_Slice_perm.
Qed.


(** ** The frequency trie of the benchmark *)

Section NodeA2_induction.
Variable P : TriesA2.NodeA2 → Prop.
Hypothesis step : ∀ cs e f,
  Forall (λ entry, P entry.2) cs → P (TriesA2.mkNodeA2 cs e f).

Fixpoint NodeA2_ind (node : TriesA2.NodeA2) : P node :=
  match node with
  | TriesA2.mkNodeA2 cs e f =>
    step cs e f
      ((fix all (cs : list (rune * TriesA2.NodeA2)) : Forall (λ entry, P entry.2) cs :=
          match cs with
          | [] => List.Forall_nil _
          | (char, child) :: cs' =>
            @List.Forall_cons _ (λ entry, P entry.2) (char, child) cs'
              (NodeA2_ind child) (all cs')
          end) cs)
  end.
End NodeA2_induction.

Lemma shapeA2_children node :
  children (shapeA2 node) =
  map (λ entry, (entry.1, shapeA2 entry.2)) (TriesA2.children node).
Proof.
  destruct node as [cs e f]; simpl.
  induction cs as [|[c child] cs IH]; simpl; [done|]. by rewrite IH.
Qed.

Lemma shapeA2_fields node :
  shapeA2 node =
  {| children := map (λ entry, (entry.1, shapeA2 entry.2)) (TriesA2.children node);
     isEnd := TriesA2.isEndOfWord node;
     frequency := TriesA2.frequency node |}.
Proof. rewrite <- shapeA2_children. by destruct node. Qed.

Lemma shapeA2_insertRunes path : ∀ node,
  shapeA2 (TriesA2.insertRunes path node) = TrieA1.insertRunes path (shapeA2 node).
Proof.
  induction path as [|c path IH]; intros node.
  - rewrite (shapeA2_fields (TriesA2.insertRunes [] node)). simpl.
    rewrite <- shapeA2_children. by destruct node.
  - rewrite (shapeA2_fields (TriesA2.insertRunes (c :: path) node)). simpl.
    rewrite (shapeA2_children node), child_lookup_map, <- child_store_map, IH.
    destruct node as [cs e f]. simpl. by destruct (child_lookup c cs).
Qed.

Lemma shapeA2_descend path : ∀ node,
  TrieA1.descend path (shapeA2 node) = shapeA2 <$> TriesA2.descend path node.
Proof.
  induction path as [|c path IH]; intros node; simpl; [done|].
  rewrite shapeA2_children, child_lookup_map.
  destruct (child_lookup c (TriesA2.children node)); simpl; [apply IH|done].
Qed.

Lemma getFrequencyA2_observe t w :
  TriesA2.getFrequency t w =
  (observe (TrieA1.descend (range_string w) (shapeA2 (TriesA2.root t)))).2.
Proof.
  unfold TriesA2.getFrequency. rewrite shapeA2_descend.
  by destruct (TriesA2.descend _ _) as [[cs e f]|].
Qed.

Lemma getFrequencyA2_occurrences words t w :
  inserted words (shapeA2 (TriesA2.root t)) → len words ≤ int_max →
  TriesA2.getFrequency t w = occurrences words (range_string w).
Proof.
  intros Hins Hlen. rewrite getFrequencyA2_observe.
  by rewrite (inserted_observe _ _ Hins Hlen).
Qed.

Lemma collectWordsA2_stored node : ∀ prefix results,
  TriesA2.collectWordsA2 node prefix results =
  results ++ map (λ e, String.append prefix (string_of_runes e.1))
                 (stored_below (shapeA2 node)).
Proof.
  induction node as [cs e f IH] using NodeA2_ind. intros prefix results.
  rewrite stored_below_unfold, shapeA2_children. simpl.
  rewrite map_app.
  set (r0 := if e then _ else _).
  set (c0 := map _ (if e then _ else _)).
  assert (Hr0 : r0 = results ++ c0).
  { subst r0 c0. destruct e; simpl; [by rewrite append_empty_r|by rewrite app_nil_r]. }
  rewrite app_assoc, <- Hr0. clear Hr0 c0. generalize r0. clear r0.
  induction IH as [|[c child] cs Hchild _ IHcs]; intros r0; simpl.
  - by rewrite app_nil_r.
  - rewrite IHcs, Hchild, map_app, <- app_assoc. f_equal.
    apply (f_equal (λ l, l ++ _)). rewrite map_map.
    apply map_ext. intros [ext f']. simpl. by rewrite append_assoc.
Qed.

Lemma shapeA2_init : shapeA2 (TriesA2.root TriesA2.initTriesA2) = NewTrieNodeA1.
Proof. reflexivity. Qed.

Lemma inserted_buildAlg2Trie words :
  inserted words (shapeA2 (TriesA2.root (buildAlg2Trie words))).
Proof.
  unfold buildAlg2Trie.
  induction words as [|w words IH] using rev_ind; simpl; [constructor|].
  rewrite foldl_app. simpl. rewrite shapeA2_insertRunes. by constructor.
Qed.

Section TriesA2_Autocomplete.
Context {sorter : SortSlice}.

Lemma AutocompleteA2_unfold t prefix :
  TriesA2.Autocomplete t prefix =
  match TriesA2.descend (range_string prefix) (TriesA2.root t) with
  | None => []
  | Some current =>
    take 10 (sort_Slice (λ a b, TriesA2.getFrequency t a >? TriesA2.getFrequency t b)
               (TriesA2.collectWordsA2 current prefix []))
  end.
Proof.
  unfold TriesA2.Autocomplete.
  destruct (TriesA2.descend _ _) as [current|]; [|done].
  apply (sorted_cap (TriesA2.getFrequency t)).
Qed.

Lemma collectWordsA2_prefix current prefix w :
  w ∈ TriesA2.collectWordsA2 current prefix [] → HasPrefix w prefix = true.
Proof.
  rewrite collectWordsA2_stored. simpl.
  intros (e & -> & _)%list_elem_of_fmap. apply HasPrefix_append.
Qed.

Lemma AutocompleteA2_collected t prefix w :
  w ∈ TriesA2.Autocomplete t prefix →
  ∃ current, TriesA2.descend (range_string prefix) (TriesA2.root t) = Some current ∧
             w ∈ TriesA2.collectWordsA2 current prefix [].
Proof.
  rewrite AutocompleteA2_unfold.
  destruct (TriesA2.descend _ _) as [current|]; [|by intros ?%elem_of_nil].
  intros Hw%elem_of_take_list. exists current. split; [done|].
  by rewrite sort_Slice_perm in Hw.
Qed.

(** The words collected below the node of a prefix, in a trie that holds
    [words]. *)
Lemma collectWordsA2_inserted words t prefix current r :
  inserted words (shapeA2 (TriesA2.root t)) → len words ≤ int_max →
  TriesA2.descend (range_string prefix) (TriesA2.root t) = Some current →
  (r ∈ TriesA2.collectWordsA2 current prefix [] ↔
   ∃ w ext, w ∈ words ∧ range_string w = range_string prefix ++ ext ∧
            r = String.append prefix (string_of_runes ext)).
Proof.
  intros Hins Hlen Hcur.
  assert (Hnode : TrieA1.descend (range_string prefix) (shapeA2 (TriesA2.root t))
                  = Some (shapeA2 current)) by (by rewrite shapeA2_descend, Hcur).
  rewrite collectWordsA2_stored. simpl. split.
  - intros ([ext f] & -> & Hin)%list_elem_of_fmap. simpl.
    assert (Hc : {| cword := string_of_runes (range_string prefix ++ ext);
                    cfrequency := f |}
                 ∈ completions_below (shapeA2 current) (range_string prefix)).
    { rewrite completions_below_stored. apply list_elem_of_fmap. by exists (ext, f). }
    apply (inserted_completions words _ _ _ _ Hins Hlen (range_string_scalar prefix) Hnode)
      in Hc as (w & ext' & Hw & Hrange & [= Hword Hf]).
    exists w, ext. split; [done|]. split; [|done].
    rewrite Hrange. f_equal.
    assert (Hsc : Forall (λ r, scalar_value r = true) (range_string prefix ++ ext')).
    { rewrite <- Hrange. apply range_string_scalar. }
    rewrite Hrange in Hword.
    pose proof (inserted_well_keyed _ _ Hins) as Hwk.
    destruct (descend_well_keyed _ _ _ Hwk Hnode) as [_ Hwk'].
    apply string_of_runes_inj in Hword; [by apply app_inv_head in Hword| |done].
    apply Forall_app. split; [apply range_string_scalar|]. by eapply stored_below_scalar.
  - intros (w & ext & Hw & Hrange & ->).
    assert (Hc : {| cword := string_of_runes (range_string w);
                    cfrequency := occurrences words (range_string w) |}
                 ∈ completions_below (shapeA2 current) (range_string prefix)).
    { apply (inserted_completions words _ _ _ _ Hins Hlen
               (range_string_scalar prefix) Hnode). by exists w, ext. }
    rewrite completions_below_stored in Hc.
    apply list_elem_of_fmap in Hc as ([ext' f] & [= Hword Hf] & Hin). simpl in *.
    apply list_elem_of_fmap. exists (ext', f). simpl. split; [|done].
    f_equal. f_equal.
    pose proof (inserted_well_keyed _ _ Hins) as Hwk.
    destruct (descend_well_keyed _ _ _ Hwk Hnode) as [_ Hwk'].
    rewrite Hrange in Hword.
    apply string_of_runes_inj in Hword; [by apply app_inv_head in Hword|..].
    + rewrite <- Hrange. apply range_string_scalar.
    + apply Forall_app. split; [apply range_string_scalar|].
      by eapply stored_below_scalar.
Qed.

Lemma collectWordsA2_NoDup t prefix current :
  well_keyed (shapeA2 (TriesA2.root t)) →
  TriesA2.descend (range_string prefix) (TriesA2.root t) = Some current →
  NoDup (TriesA2.collectWordsA2 current prefix []).
Proof.
  intros Hwk Hcur.
  assert (Hnode : TrieA1.descend (range_string prefix) (shapeA2 (TriesA2.root t))
                  = Some (shapeA2 current)) by (by rewrite shapeA2_descend, Hcur).
  destruct (descend_well_keyed _ _ _ Hwk Hnode) as [_ Hwk'].
  rewrite collectWordsA2_stored. simpl.
  eapply (NoDup_fmap_rel fst); [|by apply stored_below_NoDup].
  intros [e1 f1] [e2 f2] H1 H2 Heq. simpl in *.
  apply (f_equal range_string) in Heq.
  rewrite !range_string_extend in Heq by (by eapply stored_below_scalar).
  by apply app_inv_head in Heq.
Qed.

End TriesA2_Autocomplete.

(** ** The trie of the front end *)

Section TUINode_induction.
Variable P : Tries.Node → Prop.
Hypothesis step : ∀ cs e f,
  Forall (λ entry, P entry.2) cs → P (Tries.mkNode cs e f).

Fixpoint TUINode_ind (node : Tries.Node) : P node :=
  match node with
  | Tries.mkNode cs e f =>
    step cs e f
      ((fix all (cs : list (rune * Tries.Node)) : Forall (λ entry, P entry.2) cs :=
          match cs with
          | [] => List.Forall_nil _
          | (char, child) :: cs' =>
            @List.Forall_cons _ (λ entry, P entry.2) (char, child) cs'
              (TUINode_ind child) (all cs')
          end) cs)
  end.
End TUINode_induction.

Lemma shapeTUI_children node :
  children (shapeTUI node) =
  map (λ entry, (entry.1, shapeTUI entry.2)) (Tries.children node).
Proof.
  destruct node as [cs e f]; simpl.
  induction cs as [|[c child] cs IH]; simpl; [done|]. by rewrite IH.
Qed.

Lemma shapeTUI_fields node :
  shapeTUI node =
  {| children := map (λ entry, (entry.1, shapeTUI entry.2)) (Tries.children node);
     isEnd := Tries.isEndOfWord node;
     frequency := Tries.frequency node |}.
Proof. rewrite <- shapeTUI_children. by destruct node. Qed.

Lemma shapeTUI_insertRunes path : ∀ node,
  shapeTUI (Tries.insertRunes path node) = TrieA1.insertRunes path (shapeTUI node).
Proof.
  induction path as [|c path IH]; intros node.
  - rewrite (shapeTUI_fields (Tries.insertRunes [] node)). simpl.
    rewrite <- shapeTUI_children. by destruct node.
  - rewrite (shapeTUI_fields (Tries.insertRunes (c :: path) node)). simpl.
    rewrite (shapeTUI_children node), child_lookup_map, <- child_store_map, IH.
    destruct node as [cs e f]. simpl. by destruct (child_lookup c cs).
Qed.

Lemma shapeTUI_descend path : ∀ node,
  TrieA1.descend path (shapeTUI node) = shapeTUI <$> Tries.descend path node.
Proof.
  induction path as [|c path IH]; intros node; simpl; [done|].
  rewrite shapeTUI_children, child_lookup_map.
  destruct (child_lookup c (Tries.children node)); simpl; [apply IH|done].
Qed.

Lemma getFrequencyTUI_observe t w :
  Tries.getFrequency t w =
  (observe (TrieA1.descend (range_string w) (shapeTUI (Tries.root t)))).2.
Proof.
  unfold Tries.getFrequency. rewrite shapeTUI_descend.
  by destruct (Tries.descend _ _) as [[cs e f]|].
Qed.

Lemma collectWordsTUI_stored node : ∀ prefix results,
  Tries.collectWords node prefix results =
  results ++ map (λ e, String.append prefix (string_of_runes e.1))
                 (stored_below (shapeTUI node)).
Proof.
  induction node as [cs e f IH] using TUINode_ind. intros prefix results.
  rewrite stored_below_unfold, shapeTUI_children. simpl.
  rewrite map_app.
  set (r0 := if e then _ else _).
  set (c0 := map _ (if e then _ else _)).
  assert (Hr0 : r0 = results ++ c0).
  { subst r0 c0. destruct e; simpl; [by rewrite append_empty_r|by rewrite app_nil_r]. }
  rewrite app_assoc, <- Hr0. clear Hr0 c0. generalize r0. clear r0.
  induction IH as [|[c child] cs Hchild _ IHcs]; intros r0; simpl.
  - by rewrite app_nil_r.
  - rewrite IHcs, Hchild, map_app, <- app_assoc. f_equal.
    apply (f_equal (λ l, l ++ _)). rewrite map_map.
    apply map_ext. intros [ext f']. simpl. by rewrite append_assoc.
Qed.

Section Tries_Autocomplete.
Context {sorter : SortSlice}.

Lemma AutocompleteTUI_unfold t prefix :
  Tries.Autocomplete t prefix =
  match Tries.descend (range_string prefix) (Tries.root t) with
  | None => []
  | Some current =>
    take 10 (sort_Slice (λ a b, Tries.getFrequency t a >? Tries.getFrequency t b)
               (Tries.collectWords current prefix []))
  end.
Proof.
  unfold Tries.Autocomplete.
  destruct (Tries.descend _ _) as [current|]; [|done].
  apply (sorted_cap (Tries.getFrequency t)).
Qed.

Lemma collectWordsTUI_prefix current prefix w :
  w ∈ Tries.collectWords current prefix [] → HasPrefix w prefix = true.
Proof.
  rewrite collectWordsTUI_stored. simpl.
  intros (e & -> & _)%list_elem_of_fmap. apply HasPrefix_append.
Qed.

Lemma AutocompleteTUI_collected t prefix w :
  w ∈ Tries.Autocomplete t prefix →
  ∃ current, Tries.descend (range_string prefix) (Tries.root t) = Some current ∧
             w ∈ Tries.collectWords current prefix [].
Proof.
  rewrite AutocompleteTUI_unfold.
  destruct (Tries.descend _ _) as [current|]; [|by intros ?%elem_of_nil].
  intros Hw%elem_of_take_list. exists current. split; [done|].
  by rewrite sort_Slice_perm in Hw.
Qed.

(** The words collected below the node of a prefix, in a trie that holds
    [words]. *)
Lemma collectWordsTUI_inserted words t prefix current r :
  inserted words (shapeTUI (Tries.root t)) → len words ≤ int_max →
  Tries.descend (range_string prefix) (Tries.root t) = Some current →
  (r ∈ Tries.collectWords current prefix [] ↔
   ∃ w ext, w ∈ words ∧ range_string w = range_string prefix ++ ext ∧
            r = String.append prefix (string_of_runes ext)).
Proof.
  intros Hins Hlen Hcur.
  assert (Hnode : TrieA1.descend (range_string prefix) (shapeTUI (Tries.root t))
                  = Some (shapeTUI current)) by (by rewrite shapeTUI_descend, Hcur).
  rewrite collectWordsTUI_stored. simpl. split.
  - intros ([ext f] & -> & Hin)%list_elem_of_fmap. simpl.
    assert (Hc : {| cword := string_of_runes (range_string prefix ++ ext);
                    cfrequency := f |}
                 ∈ completions_below (shapeTUI current) (range_string prefix)).
    { rewrite completions_below_stored. apply list_elem_of_fmap. by exists (ext, f). }
    apply (inserted_completions words _ _ _ _ Hins Hlen (range_string_scalar prefix) Hnode)
      in Hc as (w & ext' & Hw & Hrange & [= Hword Hf]).
    exists w, ext. split; [done|]. split; [|done].
    rewrite Hrange. f_equal.
    assert (Hsc : Forall (λ r, scalar_value r = true) (range_string prefix ++ ext')).
    { rewrite <- Hrange. apply range_string_scalar. }
    rewrite Hrange in Hword.
    pose proof (inserted_well_keyed _ _ Hins) as Hwk.
    destruct (descend_well_keyed _ _ _ Hwk Hnode) as [_ Hwk'].
    apply string_of_runes_inj in Hword; [by apply app_inv_head in Hword| |done].
    apply Forall_app. split; [apply range_string_scalar|]. by eapply stored_below_scalar.
  - intros (w & ext & Hw & Hrange & ->).
    assert (Hc : {| cword := string_of_runes (range_string w);
                    cfrequency := occurrences words (range_string w) |}
                 ∈ completions_below (shapeTUI current) (range_string prefix)).
    { apply (inserted_completions words _ _ _ _ Hins Hlen
               (range_string_scalar prefix) Hnode). by exists w, ext. }
    rewrite completions_below_stored in Hc.
    apply list_elem_of_fmap in Hc as ([ext' f] & [= Hword Hf] & Hin). simpl in *.
    apply list_elem_of_fmap. exists (ext', f). simpl. split; [|done].
    f_equal. f_equal.
    pose proof (inserted_well_keyed _ _ Hins) as Hwk.
    destruct (descend_well_keyed _ _ _ Hwk Hnode) as [_ Hwk'].
    rewrite Hrange in Hword.
    apply string_of_runes_inj in Hword; [by apply app_inv_head in Hword|..].
    + rewrite <- Hrange. apply range_string_scalar.
    + apply Forall_app. split; [apply range_string_scalar|].
      by eapply stored_below_scalar.
Qed.

Lemma collectWordsTUI_NoDup t prefix current :
  well_keyed (shapeTUI (Tries.root t)) →
  Tries.descend (range_string prefix) (Tries.root t) = Some current →
  NoDup (Tries.collectWords current prefix []).
Proof.
  intros Hwk Hcur.
  assert (Hnode : TrieA1.descend (range_string prefix) (shapeTUI (Tries.root t))
                  = Some (shapeTUI current)) by (by rewrite shapeTUI_descend, Hcur).
  destruct (descend_well_keyed _ _ _ Hwk Hnode) as [_ Hwk'].
  rewrite collectWordsTUI_stored. simpl.
  eapply (NoDup_fmap_rel fst); [|by apply stored_below_NoDup].
  intros [e1 f1] [e2 f2] H1 H2 Heq. simpl in *.
  apply (f_equal range_string) in Heq.
  rewrite !range_string_extend in Heq by (by eapply stored_below_scalar).
  by apply app_inv_head in Heq.
Qed.

End Tries_Autocomplete.

(** ** Quotients of counters *)

Lemma float64_of_int_zero : float64_of_int 0 = float64_zero.
Proof. reflexivity. Qed.

Lemma float64_of_int_one : float64_of_int 1 = float64_one.
Proof. reflexivity. Qed.

Lemma float64_zero_quotient b :
  1 ≤ b ≤ int_max →
  float64_div (float64_of_int 0) (float64_of_int b) = float64_zero.
Proof.
  intros Hb.
  destruct (float64_of_int_finite b) as (m & e & ->); [lia|unfold int_min; lia|].
  destruct (Z.ltb_spec b 0); [lia|]. reflexivity.
Qed.

Lemma float64_quotient_finite a b :
  1 ≤ a < 2 ^ 53 → 1 ≤ b < 2 ^ 53 →
  ∃ m e, float64_div (float64_of_int a) (float64_of_int b) = S754_finite false m e.
Proof.
  intros Ha Hb.
  destruct (float64_of_int_exact a Ha) as (A & ea & -> & HA & Hea & _).
  destruct (float64_of_int_exact b Hb) as (B & eb & -> & HB & Heb & _).
  destruct (SFdiv_error A ea B eb HA HB ltac:(lia)) as (m3 & δ & _ & -> & _).
  eauto.
Qed.

(** A counter divided by itself is exactly 1. *)
Lemma float64_quotient_same a :
  1 ≤ a < 2 ^ 53 →
  float64_div (float64_of_int a) (float64_of_int a) = float64_one.
Proof.
  intros Ha.
  destruct (float64_of_int_exact a Ha) as (A & ea & -> & HA & Hea & _).
  assert (HdA : Zdigits2 (Z.pos A) = 53).
  { apply Z.le_antisymm; [apply Zdigits2_le|apply Zdigits2_ge]; simpl; lia. }
  unfold float64_div, SFdiv, SFdiv_core_binary, f64_prec, f64_emax.
  cbn [xorb]. rewrite HdA. unfold fexp, emin.
  replace (Z.min (Z.max (53 + ea - (53 + ea) - 53) (3 - 1024 - 53)) (ea - ea))
    with (- 53) by lia.
  replace (ea - ea - - 53) with 53 by lia.
  cbv iota. rewrite Z.shiftl_mul_pow2 by lia.
  assert (Hdiv : Z.div_eucl (Z.pos A * 2 ^ 53) (Z.pos A) = (2 ^ 53, 0)).
  { pose proof (Z.div_mul (2 ^ 53) (Z.pos A) ltac:(done)) as Hq.
    pose proof (Z.mod_mul (2 ^ 53) (Z.pos A) ltac:(done)) as Hr.
    rewrite Z.mul_comm in Hq, Hr. unfold Z.div, Z.modulo in Hq, Hr.
    destruct (Z.div_eucl (Z.pos A * 2 ^ 53) (Z.pos A)) as [q r]. by subst. }
  rewrite Hdiv.
  pose proof (new_location_spec (Z.pos A) 0 ltac:(lia) ltac:(lia)) as Hloc.
  destruct (new_location (Z.pos A) 0) as [|[]]; [|lia..]. reflexivity.
Qed.

#[local] Open Scope Q_scope.

(** The quotient of two counters, the first at most the second, is a number
    from 0 to 1; it is 0 only for the counter 0 and 1 only for equal
    counters. *)
Lemma float64_quotient_range a b :
  (0 ≤ a ≤ b)%Z → (1 ≤ b < 2 ^ 53)%Z →
  let q := float64_div (float64_of_int a) (float64_of_int b) in
  float64_finite q = true ∧
  0 <= float64_to_Q q <= 1 ∧
  (q = float64_zero ↔ a = 0%Z) ∧
  (q = float64_one ↔ a = b) ∧
  (float64_gt q float64_zero = true ↔ (0 < a)%Z).
Proof.
  intros Hab Hb. cbv zeta.
  destruct (decide (a = 0%Z)) as [->|Ha0].
  { rewrite float64_zero_quotient by (unfold int_max; lia).
    split; [done|]. split; [done|]. split; [done|]. split; [|done].
    split; [done|lia]. }
  destruct (decide (a = b)) as [->|Hne].
  { rewrite float64_quotient_same by lia.
    split; [done|]. split; [done|]. split; [split; [done|lia]|]. split; [done|].
    split; [lia|done]. }
  destruct (float64_quotient_finite a b ltac:(lia) ltac:(lia)) as (m & e & Hq).
  pose proof (float64_quotient_error a b ltac:(lia) ltac:(lia)) as Herr.
  rewrite Hq in *.
  set (v := float64_to_Q (S754_finite false m e)) in *.
  assert (Hb0 : 0 < inject_Z b)
    by (change 0 with (inject_Z 0); rewrite <- Zlt_Qlt; lia).
  assert (Ha0' : 0 < inject_Z a)
    by (change 0 with (inject_Z 0); rewrite <- Zlt_Qlt; lia).
  set (x := inject_Z a / inject_Z b) in *.
  assert (Hx0 : 0 < x) by (unfold x; apply Qlt_shift_div_l; lra).
  assert (Hx1 : (1 + (1 # 2 ^ 53)) * x < 1).
  { unfold x.
    setoid_replace ((1 + (1 # 2 ^ 53)) * (inject_Z a / inject_Z b))
      with (((1 + (1 # 2 ^ 53)) * inject_Z a) / inject_Z b) using relation Qeq
      by (field; lra).
    apply Qlt_shift_div_r; [done|]. rewrite Qmult_1_l.
    assert (Hc : (1 + (1 # 2 ^ 53)) == inject_Z (2 ^ 53 + 1) / inject_Z (2 ^ 53))
      by reflexivity.
    rewrite Hc.
    setoid_replace (inject_Z (2 ^ 53 + 1) / inject_Z (2 ^ 53) * inject_Z a)
      with (inject_Z ((2 ^ 53 + 1) * a) / inject_Z (2 ^ 53)) using relation Qeq
      by (rewrite inject_Z_mult; field; discriminate).
    apply Qlt_shift_div_r; [reflexivity|].
    rewrite <- inject_Z_mult, <- Zlt_Qlt.
    change (2 ^ 53)%Z with 9007199254740992%Z in *. lia. }
  apply Qabs_Qle_condition in Herr as [Hlo Hhi].
  assert (Hv0 : 0 < v).
  { assert ((1 - (1 # 2 ^ 53)) * x <= v) by lra.
    assert (0 < (1 - (1 # 2 ^ 53)) * x); [|lra].
    apply Qmult_lt_0_compat; [reflexivity|done]. }
  assert (Hv1 : v < 1) by lra.
  split; [done|]. split; [lra|].
  split; [split; [done|lia]|]. split; [|split; [lia|done]].
  split; [|done]. intros Hone. unfold v in Hv1. rewrite Hone in Hv1.
  exfalso. revert Hv1. apply Qle_not_lt. by vm_compute.
Qed.

#[local] Close Scope Q_scope.

(** ** Quotients of [int]s are numbers *)

(** Rounding a mantissa of 53 digits or more gives a normal number: the
    mantissa of the result has 53 digits. *)
Lemma binary_round_aux_normal s m e l :
  2 ^ 52 ≤ m →
  - 1074 ≤ e →
  Zdigits2 m + e - 53 + 1 ≤ 971 →
  ∃ m' e', binary_round_aux f64_prec f64_emax s m e l = S754_finite s m' e' ∧
           2 ^ 52 ≤ Z.pos m' < 2 ^ 53 ∧
           Zdigits2 m + e - 53 ≤ e' ≤ Zdigits2 m + e - 53 + 1.
Proof.
  intros Hm Hlo Hhi. unfold binary_round_aux, f64_prec, f64_emax.
  assert (Hm0 : 0 < m) by (change (2 ^ 52) with 4503599627370496 in Hm; lia).
  pose proof (Zdigits2_bounds m Hm0) as Hd.
  assert (Hd1 : 53 ≤ Zdigits2 m) by (apply Zdigits2_ge; [done|simpl; lia]).
  pose proof (shr_fexp_spec 53 1024 m e l ltac:(lia)) as [Hm1 He1].
  destruct (shr_fexp 53 1024 m e l) as [mrs1 e1]. simpl in Hm1, He1.
  unfold fexp, emin in Hm1, He1.
  replace (Z.max (Zdigits2 m + e - 53) (3 - 1024 - 53)) with (Zdigits2 m + e - 53)
    in Hm1, He1 by lia.
  replace (Z.max 0 (Zdigits2 m + e - 53 - e)) with (Zdigits2 m - 53) in Hm1, He1 by lia.
  set (n := Zdigits2 m - 53) in *.
  assert (Hpn : 0 < 2 ^ n) by (apply Z.pow_pos_nonneg; lia).
  (* the mantissa after the first shift has 53 digits *)
  assert (Hm1b : 2 ^ 52 ≤ shr_m mrs1 < 2 ^ 53).
  { rewrite Hm1. split.
    - apply Z.div_le_lower_bound; [lia|].
      rewrite Z.mul_comm, <- Z.pow_add_r by lia.
      replace (52 + n) with (Zdigits2 m - 1) by lia. apply Hd.
    - apply Z.div_lt_upper_bound; [lia|].
      rewrite <- Z.pow_add_r by lia.
      replace (n + 53) with (Zdigits2 m) by lia. apply Hd. }
  pose proof (round_nearest_even_bounds (shr_m mrs1) (loc_of_shr_record mrs1)) as Hm2.
  set (m2 := round_nearest_even (shr_m mrs1) (loc_of_shr_record mrs1)) in *.
  assert (Hm2b : 2 ^ 52 ≤ m2 ≤ 2 ^ 53) by lia.
  pose proof (shr_fexp_spec 53 1024 m2 e1 loc_Exact
                ltac:(change (2 ^ 52) with 4503599627370496 in Hm2b; lia)) as [Hm3 He3].
  destruct (shr_fexp 53 1024 m2 e1 loc_Exact) as [mrs3 e3]. simpl in Hm3, He3.
  unfold fexp, emin in Hm3, He3.
  assert (Hm20 : 0 < m2) by (change (2 ^ 52) with 4503599627370496 in Hm2b; lia).
  pose proof (Zdigits2_bounds m2 Hm20) as Hd2b.
  assert (Hd2 : 53 ≤ Zdigits2 m2 ≤ 54).
  { split; [apply Zdigits2_ge|apply Zdigits2_le]; simpl; lia. }
  destruct (Z.eq_dec (Zdigits2 m2) 53) as [Hd53|Hd54].
  - rewrite Hd53 in Hm3, He3, Hd2b.
    replace (Z.max 0 (Z.max (53 + e1 - 53) (3 - 1024 - 53) - e1)) with 0 in Hm3, He3 by lia.
    rewrite Z.div_1_r in Hm3. rewrite Hm3.
    destruct m2 as [|m3|m3]; [lia| |lia].
    destruct (Z.leb_spec e3 (1024 - 53)) as [_|Hbad]; [|lia].
    exists m3, e3. split; [done|]. split; [lia|lia].
  - assert (Hd54' : Zdigits2 m2 = 54) by lia.
    rewrite Hd54' in Hm3, He3, Hd2b. change (2 ^ (54 - 1)) with (2 ^ 53) in Hd2b.
    assert (Hm2v : m2 = 2 ^ 53) by lia.
    replace (Z.max 0 (Z.max (54 + e1 - 53) (3 - 1024 - 53) - e1)) with 1 in Hm3, He3 by lia.
    rewrite Hm2v in Hm3.
    change (2 ^ 53 / 2 ^ 1) with (Z.pos 4503599627370496) in Hm3.
    rewrite Hm3.
    destruct (Z.leb_spec e3 (1024 - 53)) as [_|Hbad]; [|lia].
    exists 4503599627370496%positive, e3. split; [done|]. split; [done|lia].
Qed.

(** A positive [int] converts to a normal number. *)
Lemma float64_of_int_normal a :
  1 ≤ a ≤ int_max →
  ∃ A ea, float64_of_int a = S754_finite false A ea ∧
          2 ^ 52 ≤ Z.pos A < 2 ^ 53 ∧ - 52 ≤ ea ≤ 11.
Proof.
  intros Ha. destruct (Z.lt_ge_cases a (2 ^ 53)) as [Hsmall|Hbig].
  { destruct (float64_of_int_exact a ltac:(lia)) as (A & ea & Heq & HA & Hea & _).
    exists A, ea. split; [done|]. split; [done|lia]. }
  unfold int_max in Ha. destruct a as [|p|p]; [lia| |lia].
  unfold float64_of_int. simpl binary_normalize. unfold binary_round.
  pose proof (Zdigits2_bounds (Z.pos p) ltac:(lia)) as Hd.
  assert (Hd64 : 54 ≤ Zdigits2 (Z.pos p) ≤ 63).
  { split; [apply Zdigits2_ge; [lia|]; simpl; lia|apply Zdigits2_le; lia]. }
  change (Z.pos (digits2_pos p)) with (Zdigits2 (Z.pos p)).
  unfold shl_align, fexp, emin, f64_prec, f64_emax.
  replace (Z.max (Zdigits2 (Z.pos p) + 0 - 53) (3 - 1024 - 53) - 0)
    with (Zdigits2 (Z.pos p) - 53) by lia.
  destruct (Zdigits2 (Z.pos p) - 53) as [|k|k] eqn:Hk; [lia| |lia].
  destruct (binary_round_aux_normal false (Z.pos p) 0 loc_Exact)
    as (A & ea & Heq & HA & Hea); [lia|lia|lia|].
  exists A, ea. split; [exact Heq|]. split; [done|lia].
Qed.

(** The quotient of a counter by a positive counter is a number, neither
    an infinity nor a NaN, for all values of [int]. *)
Lemma float64_quotient_int_finite a b :
  0 ≤ a ≤ int_max → 1 ≤ b ≤ int_max →
  float64_finite (float64_div (float64_of_int a) (float64_of_int b)) = true.
Proof.
  intros Ha Hb. destruct (Z.eq_dec a 0) as [->|Hne].
  { by rewrite float64_zero_quotient. }
  destruct (float64_of_int_normal a ltac:(lia)) as (A & ea & -> & HA & Hea).
  destruct (float64_of_int_normal b Hb) as (B & eb & -> & HB & Heb).
  destruct (SFdiv_error A ea B eb HA HB ltac:(lia)) as (m3 & δ & _ & -> & _).
  reflexivity.
Qed.

(** What a division by zero would give: an infinity or a NaN. *)
Lemma float64_quotient_zero_divisor a :
  float64_finite (float64_div (float64_of_int a) (float64_of_int 0)) = false.
Proof.
  change (float64_of_int 0) with (S754_zero false).
  unfold float64_div. by destruct (float64_of_int a) as [[]|[]| |[] ? ?].
Qed.

(** ** [measureSuggestionQuality] *)

Lemma countHit_spec idw got hitCount :
  countHit idw got hitCount =
  if decide (idw ∈ got) then wrap (hitCount + 1) else hitCount.
Proof.
  induction got as [|gw got IH]; simpl.
  - destruct (decide (idw ∈ [])) as [Hin|]; [by apply elem_of_nil in Hin|done].
  - destruct (String.eqb_spec gw idw) as [->|Hne].
    + destruct (decide (idw ∈ idw :: got)) as [|Hnot]; [done|].
      destruct Hnot. by left.
    + rewrite IH.
      destruct (decide (idw ∈ got)), (decide (idw ∈ gw :: got)) as [Hin|Hnot];
        try done.
      * destruct Hnot. by right.
      * apply elem_of_cons in Hin as [->|?]; done.
Qed.

Lemma hitCount_spec got ideal : ∀ hitCount,
  0 ≤ hitCount → hitCount + len ideal ≤ int_max →
  foldl (λ hitCount idw, countHit idw got hitCount) hitCount ideal =
  hitCount + len (hits got ideal).
Proof.
  unfold hits, len.
  induction ideal as [|idw ideal IH]; intros hitCount H0 Hmax; simpl; [lia|].
  rewrite countHit_spec, filter_cons.
  pose proof (length_filter (λ idw, idw ∈ got) ideal) as Hf.
  simpl in Hmax.
  destruct (decide (idw ∈ got)); simpl.
  - rewrite wrap_in_range by (unfold int_min, int_max in *; lia).
    rewrite IH by lia. lia.
  - rewrite IH by lia. lia.
Qed.

Lemma hits_length got ideal : (length (hits got ideal) ≤ length ideal)%nat.
Proof. apply length_filter. Qed.

Lemma hits_all got ideal :
  length (hits got ideal) = length ideal ↔ ∀ w, w ∈ ideal → w ∈ got.
Proof.
  unfold hits. induction ideal as [|idw ideal IH]; simpl.
  - split; [|done]. intros _ w Hw. by apply elem_of_nil in Hw.
  - rewrite filter_cons.
    pose proof (length_filter (λ idw, idw ∈ got) ideal) as Hf.
    destruct (decide (idw ∈ got)) as [Hin|Hnot]; simpl.
    + split.
      * intros Hlen w [->|Hw]%elem_of_cons; [done|]. apply IH; [lia|done].
      * intros Hall. f_equal. apply IH. intros w Hw. apply Hall. by right.
    + split; [lia|]. intros Hall. destruct Hnot. apply Hall. by left.
Qed.

Lemma hits_none got ideal :
  hits got ideal = [] ↔ ∀ w, w ∈ ideal → w ∉ got.
Proof.
  unfold hits. induction ideal as [|idw ideal IH]; simpl.
  - split; [|done]. intros _ w Hw. by apply elem_of_nil in Hw.
  - rewrite filter_cons. destruct (decide (idw ∈ got)) as [Hin|Hnot].
    + split; [done|]. intros Hall. destruct (Hall idw); [by left|done].
    + rewrite IH. split.
      * intros Hall w [->|Hw]%elem_of_cons; [done|by apply Hall].
      * intros Hall w Hw. apply Hall. by right.
Qed.

Lemma measureSuggestionQuality_hits got ideal :
  len ideal ≤ int_max →
  measureSuggestionQuality got ideal =
    (if decide (ideal = []) then float64_one
     else float64_div (float64_of_int (len (hits got ideal)))
                      (float64_of_int (len ideal))).
Proof.
  intros Hlen. unfold measureSuggestionQuality.
  destruct ideal as [|idw ideal]; [done|].
  destruct (Z.eqb_spec (len (idw :: ideal)) 0) as [H0|_];
    [unfold len in H0; simpl in H0; lia|].
  destruct (decide (idw :: ideal = [])); [done|].
  cbv zeta. rewrite hitCount_spec by lia. done.
Qed.

(** ** The range of the probabilities *)

Lemma addBigram_bounded b word1 word2 table :
  0 ≤ b → b + 2 ≤ int_max → counts_bounded b table →
  counts_bounded (b + 2) (TrieA1.addBigram word1 word2 table).
Proof.
  intros Hb Hmax Htable w ctx. rewrite addBigram_lookup.
  destruct (decide (word1 = w)) as [<-|Hne].
  - simpl. intros [= <-].
    set (ctx0 := default {[ "_total" := 0 ]} (table !! word1)).
    assert (Hctx0 : 0 ≤ count_of ctx0 "_total" ≤ b ∧
              ∀ w2, 0 ≤ count_of ctx0 w2 ≤ count_of ctx0 "_total").
    { subst ctx0. destruct (table !! word1) as [ctx0|] eqn:Hw1; simpl.
      - pose proof (Htable _ _ Hw1) as [? ?]. split; [lia|done].
      - unfold count_of. rewrite lookup_singleton_eq. simpl. split; [lia|].
        intros w2. destruct (decide ("_total" = w2)) as [<-|?].
        + rewrite lookup_singleton_eq. simpl. lia.
        + rewrite lookup_singleton_ne by done. simpl. lia. }
    destruct Hctx0 as [Htot Hle].
    pose proof (Hle word2) as Hw2.
    rewrite count_of_insert_eq.
    destruct (decide (word2 = "_total")) as [->|Hne2].
    + rewrite count_of_insert_eq.
      rewrite !wrap_in_range by
        (rewrite ?wrap_in_range; unfold int_min, int_max in *; lia).
      split; [lia|]. intros w2.
      destruct (decide ("_total" = w2)) as [<-|?].
      * rewrite count_of_insert_eq. lia.
      * rewrite !count_of_insert_ne by done. specialize (Hle w2). lia.
    + rewrite (count_of_insert_ne word2 "_total") by done.
      rewrite !wrap_in_range by (unfold int_min, int_max in *; lia).
      split; [lia|]. intros w2.
      destruct (decide ("_total" = w2)) as [<-|?].
      * rewrite count_of_insert_eq. lia.
      * rewrite (count_of_insert_ne "_total" w2) by done.
        destruct (decide (word2 = w2)) as [<-|?].
        -- rewrite count_of_insert_eq. lia.
        -- rewrite count_of_insert_ne by done. specialize (Hle w2). lia.
  - intros Hctx. pose proof (Htable _ _ Hctx) as [? ?]. split; [lia|done].
Qed.

Lemma bigramLoop_bounded corpus : ∀ b table,
  0 ≤ b → b + 2 * Z.of_nat (length corpus - 1) ≤ int_max → counts_bounded b table →
  counts_bounded (b + 2 * Z.of_nat (length corpus - 1)) (TrieA1.bigramLoop corpus table).
Proof.
  induction corpus as [|w1 corpus IH]; intros b table Hb Hmax Htable.
  { rewrite bigramLoop_nil. simpl. by rewrite Z.add_0_r. }
  destruct corpus as [|w2 corpus].
  { rewrite bigramLoop_single. simpl. by rewrite Z.add_0_r. }
  rewrite bigramLoop_cons.
  replace (b + 2 * Z.of_nat (length (w1 :: w2 :: corpus) - 1))
    with ((b + 2) + 2 * Z.of_nat (length (w2 :: corpus) - 1)) in * by (simpl; lia).
  apply IH; [lia|done|]. apply addBigram_bounded; [done| |done].
  simpl in Hmax. lia.
Qed.

Lemma built_bounded n m t :
  built n m t → 2 * Z.of_nat m ≤ int_max →
  counts_bounded (2 * Z.of_nat m) (bigramTable t).
Proof.
  induction 1 as [|n m t w _ IH|n m t corpus _ IH|n m t root' _ IH Hre]; intros Hm.
  - intros w ctx. simpl. by rewrite lookup_empty.
  - by apply IH.
  - simpl.
    replace (2 * Z.of_nat (m + (length corpus - 1)))
      with (2 * Z.of_nat m + 2 * Z.of_nat (length corpus - 1)) in * by lia.
    apply bigramLoop_bounded; [lia|done|]. apply IH. lia.
  - by apply IH.
Qed.

(** ** The trie of [main.go] *)

Lemma plain_children node :
  MainTries.children (plain node) =
  map (λ entry, (entry.1, plain entry.2)) (children node).
Proof.
  destruct node as [cs e f]; simpl.
  induction cs as [|[c child] cs IH]; simpl; [done|]. by rewrite IH.
Qed.

Lemma plain_fields node :
  plain node =
  {| MainTries.children := map (λ entry, (entry.1, plain entry.2)) (children node);
     MainTries.isEndOfWord := isEnd node |}.
Proof. rewrite <- plain_children. by destruct node. Qed.

Lemma plain_insertRunes path : ∀ node,
  plain (TrieA1.insertRunes path node) = MainTries.insertRunes path (plain node).
Proof.
  induction path as [|c path IH]; intros node.
  - rewrite (plain_fields (TrieA1.insertRunes [] node)). simpl.
    by rewrite <- plain_children.
  - rewrite (plain_fields (TrieA1.insertRunes (c :: path) node)). simpl.
    rewrite (plain_children node), child_lookup_map, <- child_store_map, IH.
    destruct node as [cs e f]. simpl. by destruct (child_lookup c cs).
Qed.

Lemma plain_descend path : ∀ node,
  MainTries.descend path (plain node) = plain <$> TrieA1.descend path node.
Proof.
  induction path as [|c path IH]; intros node; simpl; [done|].
  rewrite plain_children, child_lookup_map.
  destruct (child_lookup c (children node)); simpl; [apply IH|done].
Qed.

Lemma collectWords_stored node : ∀ prefix results,
  MainTries.collectWords (plain node) prefix results =
  results ++ map (λ e, String.append prefix (string_of_runes e.1)) (stored_below node).
Proof.
  induction node as [cs e f IH] using TrieNodeA1_ind. intros prefix results.
  rewrite stored_below_unfold. simpl.
  rewrite map_app.
  set (r0 := if e then _ else _).
  set (c0 := map _ (if e then _ else _)).
  assert (Hr0 : r0 = results ++ c0).
  { subst r0 c0. destruct e; simpl; [by rewrite append_empty_r|by rewrite app_nil_r]. }
  rewrite app_assoc, <- Hr0. clear Hr0 c0. generalize r0. clear r0.
  induction IH as [|[c child] cs Hchild _ IHcs]; intros r0; simpl.
  - by rewrite app_nil_r.
  - rewrite IHcs, Hchild, map_app, <- app_assoc. f_equal.
    apply (f_equal (λ l, l ++ _)). rewrite map_map.
    apply map_ext. intros [ext f']. simpl. by rewrite append_assoc.
Qed.

Lemma holds_foldl words :
  holds words (foldl MainTries.Insert MainTries.initTries words).
Proof.
  induction words as [|w words IH] using rev_ind.
  - exists NewTrieNodeA1. split; [constructor|done].
  - destruct IH as (node & Hins & Hroot).
    exists (TrieA1.insertRunes (range_string w) node). split; [by constructor|].
    rewrite foldl_app. simpl. by rewrite Hroot, plain_insertRunes.
Qed.

(** The flag at the end of a walk, whatever the counters do. *)
Lemma inserted_flag words node :
  inserted words node →
  ∀ path, (observe (TrieA1.descend path node)).1 = (0 <? occurrences words path).
Proof.
  induction 1 as [|words node word Hins IH|words node node' Hins IH Hre]; intros path.
  - rewrite occurrences_nil. by destruct path.
  - rewrite occurrences_snoc.
    pose proof (occurrences_range words path) as Hocc.
    destruct (decide (range_string word = path)) as [<-|Hne].
    + rewrite descend_insertRunes. simpl. symmetry. apply Z.ltb_lt. lia.
    + pose proof (descend_insertRunes_other (range_string word) path node
                    ltac:(congruence)) as Hobs.
      cbv zeta in Hobs. fold observe in Hobs.
      rewrite Hobs, IH, Z.add_0_r. done.
  - rewrite (observe_reorder node node') by (done || by eapply inserted_well_keyed).
    by apply IH.
Qed.

(** The runes of the words below the node of a path. *)
Lemma inserted_stored_paths words root0 path node ext :
  inserted words root0 → TrieA1.descend path root0 = Some node →
  (ext ∈ map fst (stored_below node) ↔
   ∃ w, w ∈ words ∧ range_string w = path ++ ext).
Proof.
  intros Hins Hnode.
  pose proof (inserted_well_keyed _ _ Hins) as Hwk.
  destruct (descend_well_keyed _ _ _ Hwk Hnode) as [_ Hwk'].
  pose proof (inserted_flag _ _ Hins (path ++ ext)) as Hflag.
  rewrite descend_app, Hnode in Hflag. simpl in Hflag.
  rewrite <- occurrences_pos, <- Z.ltb_lt, <- Hflag. split.
  - intros ([ext' f] & -> & Hin)%list_elem_of_fmap. simpl.
    destruct (stored_below_descend _ _ _ Hwk' Hin) as (n & -> & He & _). done.
  - intros (n & Hn & He)%observe_isEnd.
    apply list_elem_of_fmap. exists (ext, frequency n). split; [done|].
    by apply descend_stored_below.
Qed.

Lemma Search_holds words t w :
  holds words t →
  (MainTries.Search t w = true ↔
   ∃ w', w' ∈ words ∧ range_string w' = range_string w).
Proof.
  intros (node & Hins & Hroot).
  rewrite <- occurrences_pos, <- Z.ltb_lt, <- (inserted_flag _ _ Hins).
  unfold MainTries.Search. rewrite Hroot, plain_descend.
  by destruct (TrieA1.descend _ _) as [[cs e f]|].
Qed.

(** ** The loop of the front end *)

Lemma occurrences_NoDup words path :
  NoDup (map range_string words) → occurrences words path ≤ 1.
Proof.
  unfold occurrences, len. induction words as [|w words IH]; simpl; [lia|].
  intros [Hw Hnd]%NoDup_cons. rewrite filter_cons.
  destruct (decide (range_string w = path)) as [<-|]; [|by apply IH].
  assert (Hnone : filter (λ w0, range_string w0 = range_string w) words = []).
  { destruct (filter _ words) as [|w' l] eqn:Hf; [done|].
    assert (Hin : w' ∈ filter (λ w0, range_string w0 = range_string w) words)
      by (rewrite Hf; by left).
    apply list_elem_of_filter in Hin as [Heq Hin]. destruct Hw.
    rewrite <- Heq. apply list_elem_of_fmap. by exists w'. }
  rewrite Hnone. simpl. lia.
Qed.

Lemma binary_inserted words node :
  inserted words node → len words ≤ int_max → NoDup (map range_string words) →
  binary node.
Proof.
  intros Hins Hlen Hnd path.
  rewrite (inserted_observe _ _ Hins Hlen).
  pose proof (occurrences_NoDup words path Hnd).
  pose proof (occurrences_range words path).
  destruct (decide (occurrences words path = 0)) as [->|]; [by left|].
  replace (occurrences words path) with 1 by lia. by right.
Qed.

Lemma binary_insertRunes path node :
  binary node → (observe (TrieA1.descend path node)).2 = 0 →
  binary (TrieA1.insertRunes path node).
Proof.
  intros Hbin Hzero path'.
  destruct (decide (path' = path)) as [->|Hne].
  - right. rewrite descend_insertRunes. cbv zeta.
    destruct (TrieA1.descend path node) as [n|]; simpl in *; by rewrite ?Hzero.
  - pose proof (descend_insertRunes_other path path' node Hne) as Hobs.
    cbv zeta in Hobs. fold observe in Hobs. rewrite Hobs. apply Hbin.
Qed.

Lemma shapeTUI_foldl words :
  inserted words (shapeTUI (Tries.root (foldl Tries.Insert Tries.initTries words))).
Proof.
  induction words as [|w words IH] using rev_ind; simpl; [constructor|].
  rewrite foldl_app. simpl. rewrite shapeTUI_insertRunes. by constructor.
Qed.

Lemma binary_initial : binary (shapeTUI (Tries.root (FrontEnd.trie FrontEnd.initial))).
Proof.
  apply (binary_inserted FrontEnd.words).
  - apply shapeTUI_foldl.
  - vm_compute. discriminate.
  - vm_compute. repeat (constructor; [set_solver|]). constructor.
Qed.

Lemma getFrequencyTUI_binary t w :
  binary (shapeTUI (Tries.root t)) →
  Tries.getFrequency t w = 0 ∨ Tries.getFrequency t w = 1.
Proof.
  intros Hbin. rewrite getFrequencyTUI_observe.
  destruct (Hbin (range_string w)) as [->| ->]; [by left|by right].
Qed.

Lemma finalize_binary s :
  binary (shapeTUI (Tries.root (FrontEnd.trie s))) →
  binary (shapeTUI (Tries.root (FrontEnd.trie (FrontEnd.finalize s)))).
Proof.
  intros Hbin. unfold FrontEnd.finalize.
  destruct (decide (FrontEnd.currentWord s ≠ EmptyString)); [|done]. simpl.
  destruct (Z.eqb_spec (Tries.getFrequency (FrontEnd.trie s) (FrontEnd.currentWord s)) 0)
    as [Hzero|]; [|done].
  simpl. rewrite shapeTUI_insertRunes. apply binary_insertRunes; [done|].
  by rewrite <- (getFrequencyTUI_observe (FrontEnd.trie s) (FrontEnd.currentWord s)).
Qed.

Lemma backspace_trie s : FrontEnd.trie (FrontEnd.backspace s) = FrontEnd.trie s.
Proof.
  unfold FrontEnd.backspace.
  repeat match goal with |- context [if ?c then _ else _] => destruct c end; done.
Qed.

Section front_end.
Context {sorter : SortSlice}.

Lemma consistent_initial : consistent FrontEnd.initial.
Proof. split; [apply binary_initial|constructor]. Qed.

Lemma AutocompleteTUI_prefix t prefix :
  Forall (λ w, HasPrefix w prefix = true) (Tries.Autocomplete t prefix).
Proof.
  apply Forall_forall. intros w Hw.
  destruct (AutocompleteTUI_collected t prefix w Hw) as (current & _ & Hin).
  by eapply collectWordsTUI_prefix.
Qed.

Lemma HasPrefix_empty w : HasPrefix w EmptyString = true.
Proof. by destruct w. Qed.

Lemma onEvent_consistent s ev :
  consistent s → consistent (FrontEnd.state_of (FrontEnd.onEvent s ev)).
Proof.
  intros [Hbin Hpre]. destruct ev as [key ch|]; [|done].
  destruct key; simpl; try done.
  - split; [by rewrite backspace_trie|apply AutocompleteTUI_prefix].
  - split; [by rewrite backspace_trie|apply AutocompleteTUI_prefix].
  - split; [by apply finalize_binary|apply AutocompleteTUI_prefix].
  - split; [by destruct (FrontEnd.suggestions s)|apply AutocompleteTUI_prefix].
  - split; [by apply finalize_binary|].
    unfold FrontEnd.finalize.
    destruct (decide (FrontEnd.currentWord s ≠ EmptyString)); [|done]. simpl.
    by apply Forall_true.
  - split; [by destruct (ch =? 0)|apply AutocompleteTUI_prefix].
Qed.

Lemma run_consistent events : ∀ s,
  consistent s → consistent (FrontEnd.state_of (FrontEnd.run s events)).
Proof.
  induction events as [|ev events IH]; intros s Hs; simpl; [done|].
  pose proof (onEvent_consistent s ev Hs) as Hs'.
  destruct (FrontEnd.onEvent s ev) as [s'|s']; simpl in *; [by apply IH|done].
Qed.

End front_end.

Lemma drop_last_byte_append s a :
  drop_last_byte (String.append s (String a EmptyString)) = s.
Proof.
  induction s as [|b s IH]; [done|].
  rewrite append_cons. simpl.
  destruct (String.append s (String a "")) eqn:Happ.
  - by destruct s.
  - by rewrite IH.
Qed.

Lemma drop_last_byte_app s s' :
  s' ≠ EmptyString →
  drop_last_byte (String.append s s') = String.append s (drop_last_byte s').
Proof.
  intros Hne. induction s as [|b s IH]; [by rewrite !append_empty|].
  rewrite !append_cons. simpl.
  destruct (String.append s s') eqn:Happ.
  - destruct s; [by rewrite append_empty in Happ|by rewrite append_cons in Happ].
  - by rewrite IH.
Qed.

Lemma strlen_pos s : (strlen s >? 0) = true ↔ s ≠ EmptyString.
Proof.
  unfold strlen. destruct s; simpl; split; done.
Qed.

Lemma string_of_rune_nonempty r : string_of_rune r ≠ EmptyString.
Proof.
  pose proof (starts_rune_of_rune r EmptyString) as Hs.
  rewrite append_empty_r in Hs. intros Hnil.
  unfold string_of_rune in Hnil.
  repeat match type of Hnil with
  | context [if ?c then _ else _] => destruct c
  end; discriminate Hnil.
Qed.

Lemma string_of_rune_single r :
  (∃ a, string_of_rune r = String a EmptyString) ↔ 0 ≤ r < 0x80.
Proof.
  unfold string_of_rune.
  destruct (Z.leb_spec 0 r), (Z.ltb_spec r 0x80); simpl andb; cbv iota.
  - split; [lia|]. intros _. by eexists.
  - split; [|lia]. intros [a Ha]. revert Ha.
    repeat match goal with
    | |- context [if ?c then _ else _] => destruct c
    end; discriminate.
  - split; [|lia]. intros [a Ha]. revert Ha.
    repeat match goal with
    | |- context [if ?c then _ else _] => destruct c
    end; discriminate.
  - split; [|lia]. intros [a Ha]. revert Ha.
    repeat match goal with
    | |- context [if ?c then _ else _] => destruct c
    end; discriminate.
Qed.

Lemma HasPrefix_refl w : HasPrefix w w = true.
Proof. induction w as [|a w IH]; [done|]. simpl. by rewrite Ascii.eqb_refl. Qed.

Lemma append_same_inv s x : String.append s x = s → x = EmptyString.
Proof.
  induction s as [|a s IH]; [by rewrite append_empty|].
  rewrite append_cons. by intros [= ?%IH].
Qed.

Lemma drop_last_byte_empty x :
  drop_last_byte x = EmptyString ↔ x = EmptyString ∨ ∃ a, x = String a EmptyString.
Proof.
  destruct x as [|a [|b x]]; simpl.
  - split; [by left|done].
  - split; [right; by exists a|done].
  - split; [done|]. intros [?|[? ?]]; done.
Qed.

(** What finalizing a word does to the trie. *)
Lemma finalize_learns s :
  binary (shapeTUI (Tries.root (FrontEnd.trie s))) →
  (FrontEnd.currentWord s ≠ EmptyString →
   Tries.getFrequency (FrontEnd.trie (FrontEnd.finalize s)) (FrontEnd.currentWord s) = 1) ∧
  (∀ w, Tries.getFrequency (FrontEnd.trie s) w = 1 →
        Tries.getFrequency (FrontEnd.trie (FrontEnd.finalize s)) w = 1).
Proof.
  intros Hbin. unfold FrontEnd.finalize.
  destruct (decide (FrontEnd.currentWord s ≠ EmptyString)) as [Hne|]; [|done]. simpl.
  destruct (Z.eqb_spec (Tries.getFrequency (FrontEnd.trie s) (FrontEnd.currentWord s)) 0)
    as [Hzero|Hnz].
  - split.
    + intros _. rewrite getFrequencyTUI_observe. simpl.
      rewrite shapeTUI_insertRunes, descend_insertRunes. cbv zeta. simpl.
      rewrite (getFrequencyTUI_observe (FrontEnd.trie s)) in Hzero.
      destruct (TrieA1.descend _ _); simpl in *; by rewrite ?Hzero.
    + intros w Hw. rewrite getFrequencyTUI_observe in Hw |- *. simpl.
      rewrite shapeTUI_insertRunes.
      assert (Hne' : range_string w ≠ range_string (FrontEnd.currentWord s)).
      { intros Heq. rewrite (getFrequencyTUI_observe (FrontEnd.trie s)) in Hzero.
        rewrite Heq in Hw. lia. }
      pose proof (descend_insertRunes_other _ _
                    (shapeTUI (Tries.root (FrontEnd.trie s))) Hne') as Hobs.
      cbv zeta in Hobs. fold observe in Hobs. by rewrite Hobs.
  - split; [|done]. intros _.
    by destruct (getFrequencyTUI_binary (FrontEnd.trie s) (FrontEnd.currentWord s) Hbin).
Qed.

Lemma typed_app words words' :
  typed (words ++ words') = String.append (typed words) (typed words').
Proof.
  induction words as [|w words IH]; simpl; [by rewrite append_empty|].
  by rewrite IH, !append_assoc.
Qed.

Lemma typed_Join words :
  words ≠ [] → typed words = String.append (Join words " ") " ".
Proof.
  induction words as [|w [|w' words] IH]; [done| |]; intros _.
  - simpl. by rewrite append_empty_r.
  - change (typed (w :: w' :: words))
      with (String.append w (String.append " " (typed (w' :: words)))).
    rewrite IH by done.
    change (Join (w :: w' :: words) " ")
      with (String.append w (String.append " " (Join (w' :: words) " "))).
    by rewrite !append_assoc.
Qed.

(** ** [strings.Fields] *)

(** One step of a range loop: the rune, its bytes and the rest. *)
Lemma DecodeRuneInString_cons a0 s0 :
  ∃ bytes rest,
    String a0 s0 = String.append (String a0 bytes) rest ∧
    (DecodeRuneInString (String a0 s0)).2 = S (String.length bytes) ∧
    range_string (String a0 s0) =
      (DecodeRuneInString (String a0 s0)).1 :: range_string rest.
Proof.
  rewrite range_string_cons. unfold DecodeRuneInString. cbv zeta.
  assert (H1 : ∃ bytes rest,
            String a0 s0 = String.append (String a0 bytes) rest ∧
            1%nat = S (String.length bytes) ∧
            RuneError :: range_string s0 = RuneError :: range_string rest)
    by (by exists EmptyString, s0).
  destruct (byte_val a0 <? 0x80); [by exists EmptyString, s0|].
  destruct (acceptRange (byte_val a0)) as [[[sz lo] hi]|]; [|done].
  destruct s0 as [|a1 s1]; [done|].
  destruct (negb (between lo hi (byte_val a1))); [done|].
  destruct (sz =? 2); [by exists (String a1 EmptyString), s1|].
  destruct s1 as [|a2 s2]; [done|].
  destruct (negb (continuation (byte_val a2))); [done|].
  destruct (sz =? 3); [by exists (String a1 (String a2 EmptyString)), s2|].
  destruct s2 as [|a3 s3]; [done|].
  destruct (negb (continuation (byte_val a3))); [done|].
  by exists (String a1 (String a2 (String a3 EmptyString))), s3.
Qed.

(** What follows a string does not matter to its first rune, when it does
    not begin with a continuation byte. *)
Lemma DecodeRuneInString_app a0 s0 rest :
  starts_rune rest = true →
  DecodeRuneInString (String.append (String a0 s0) rest) =
  DecodeRuneInString (String a0 s0).
Proof.
  intros Hrest. rewrite append_cons. unfold DecodeRuneInString. cbv zeta.
  destruct (byte_val a0 <? 0x80); [done|].
  destruct (acceptRange (byte_val a0)) as [[[sz lo] hi]|] eqn:Hacc; [|done].
  destruct (acceptRange_Some _ _ _ _ Hacc) as (_ & Hlo & Hhi & _).
  assert (Hstop : ∀ b t, rest = String b t →
            negb (between lo hi (byte_val b)) = true ∧
            negb (continuation (byte_val b)) = true).
  { intros b t ->. simpl in Hrest. split; [|done].
    apply negb_true_iff in Hrest. apply negb_true_iff.
    revert Hrest. unfold continuation, between.
    destruct (Z.leb_spec lo (byte_val b)), (Z.leb_spec (byte_val b) hi); try done.
    destruct (Z.leb_spec 0x80 (byte_val b)), (Z.leb_spec (byte_val b) 0xBF);
      try done; lia. }
  destruct s0 as [|a1 s1].
  { rewrite append_empty. destruct rest as [|b t]; [done|].
    by destruct (Hstop b t eq_refl) as [-> _]. }
  rewrite append_cons.
  destruct (negb (between lo hi (byte_val a1))); [done|].
  destruct (sz =? 2); [done|].
  destruct s1 as [|a2 s2].
  { rewrite append_empty. destruct rest as [|b t]; [done|].
    by destruct (Hstop b t eq_refl) as [_ ->]. }
  rewrite append_cons.
  destruct (negb (continuation (byte_val a2))); [done|].
  destruct (sz =? 3); [done|].
  destruct s2 as [|a3 s3].
  { rewrite append_empty. destruct rest as [|b t]; [done|].
    by destruct (Hstop b t eq_refl) as [_ ->]. }
  by rewrite append_cons.
Qed.

Lemma fieldsLoop_skip bytes : ∀ rest start spans,
  fieldsLoop (String.append bytes rest) (String.length bytes) start spans =
  fieldsLoop rest 0 (option_map (λ field, String.append field bytes) start) spans.
Proof.
  induction bytes as [|a bytes IH]; intros rest start spans.
  - rewrite append_empty. simpl. destruct start as [field|]; simpl; [|done].
    by rewrite append_empty_r.
  - rewrite append_cons. simpl. rewrite IH. destruct start as [field|]; simpl; [|done].
    by rewrite append_assoc.
Qed.

(** The loop on a rune that is no white space, and on a space. *)
Lemma fieldsLoop_rune a0 bytes rest start spans :
  DecodeRuneInString (String.append (String a0 bytes) rest)
    = ((DecodeRuneInString (String.append (String a0 bytes) rest)).1,
       S (String.length bytes)) →
  IsSpace (DecodeRuneInString (String.append (String a0 bytes) rest)).1 = false →
  fieldsLoop (String.append (String a0 bytes) rest) 0 start spans =
  fieldsLoop rest 0
    (Some (String.append (default EmptyString start) (String a0 bytes))) spans.
Proof.
  intros Hdec Hspace. rewrite append_cons in *.
  cbn [fieldsLoop]. rewrite Hdec, Hspace. cbn [fst snd].
  replace (S (String.length bytes) - 1)%nat with (String.length bytes) by lia.
  rewrite fieldsLoop_skip. simpl. by rewrite append_assoc.
Qed.

Lemma fieldsLoop_space rest start spans :
  fieldsLoop (String " " rest) 0 start spans =
  fieldsLoop rest 0 None
    (match start with Some field => spans ++ [field] | None => spans end).
Proof. reflexivity. Qed.

Lemma length_append s s' :
  String.length (String.append s s') = (String.length s + String.length s')%nat.
Proof. induction s as [|a s IH]; [done|]. rewrite append_cons. simpl. by rewrite IH. Qed.

(** The loop on a word without white space. *)
Lemma fieldsLoop_word n : ∀ w rest start spans,
  (String.length w ≤ n)%nat →
  Forall (λ r, IsSpace r = false) (range_string w) → starts_rune rest = true →
  fieldsLoop (String.append w rest) 0 start spans =
  fieldsLoop rest 0
    (match w with
     | EmptyString => start
     | String _ _ => Some (String.append (default EmptyString start) w)
     end) spans.
Proof.
  induction n as [|n IH]; intros w rest start spans Hlen Hw Hrest.
  { destruct w; [by rewrite append_empty|simpl in Hlen; lia]. }
  destruct w as [|a0 w0]; [by rewrite append_empty|].
  destruct (DecodeRuneInString_cons a0 w0) as (bytes & w' & Hsplit & Hwidth & Hrange).
  rewrite Hrange in Hw. apply Forall_cons in Hw as [Hr Hw'].
  assert (Hlen' : (String.length w' ≤ n)%nat).
  { apply (f_equal String.length) in Hsplit.
    rewrite length_append in Hsplit. simpl in *. lia. }
  assert (Hdec : DecodeRuneInString
                   (String.append (String a0 bytes) (String.append w' rest))
                 = DecodeRuneInString (String a0 w0)).
  { rewrite <- append_assoc, <- Hsplit. by apply DecodeRuneInString_app. }
  rewrite Hsplit at 1. rewrite append_assoc.
  rewrite fieldsLoop_rune.
  - rewrite IH by done. rewrite Hsplit.
    destruct w' as [|b w'']; [by rewrite append_empty_r|].
    simpl default. by rewrite append_assoc.
  - rewrite Hdec. rewrite <- Hwidth. by destruct (DecodeRuneInString (String a0 w0)).
  - by rewrite Hdec.
Qed.

Lemma fieldsLoop_typed words : ∀ spans,
  Forall spaceless words →
  fieldsLoop (typed words) 0 None spans = spans ++ words.
Proof.
  induction words as [|w words IH]; intros spans Hall; simpl.
  - by rewrite app_nil_r.
  - apply Forall_cons in Hall as [[Hne Hw] Hall].
    rewrite (fieldsLoop_word (String.length w)) by done.
    destruct w as [|a w]; [done|]. simpl default. rewrite append_empty.
    rewrite append_cons, append_empty, fieldsLoop_space, IH by done.
    by rewrite <- app_assoc.
Qed.

(** [Fields] gives back the words of a sentence that was typed. *)
Lemma Fields_typed words : Forall spaceless words → Fields (typed words) = words.
Proof. intros Hall. unfold Fields. by rewrite fieldsLoop_typed. Qed.

Lemma typed_nonempty w words : typed (w :: words) ≠ EmptyString.
Proof.
  simpl. destruct w; [by rewrite append_empty|by rewrite append_cons].
Qed.

(** ** The nodes that [searchPrefix] finds *)

Lemma range_string_nil s : range_string s = [] ↔ s = EmptyString.
Proof.
  destruct s as [|a s]; [done|]. split; [|done].
  destruct (DecodeRuneInString_cons a s) as (bytes & rest & _ & _ & ->). done.
Qed.

Lemma inserted_ok words node :
  inserted words node → len words ≤ int_max →
  node_ok node ∧ weight node = len words ∧ (words ≠ [] → live node).
Proof.
  induction 1 as [|words node word Hins IH|words node node' Hins IH Hre]; intros Hlen.
  - split; [apply node_ok_New|]. split; [done|done].
  - unfold len in *. rewrite length_app in *. simpl in *.
    destruct IH as (Hok & Hw & _); [lia|].
    destruct (insertRunes_ok (range_string word) node Hok) as [Hok' Hw']; [lia|].
    split; [done|]. split; [lia|]. intros _. apply live_insertRunes.
  - destruct (IH Hlen) as (Hok & Hw & Hlive).
    destruct (reorder_ok _ _ Hre Hok) as [Hok' Hw'].
    split; [done|]. split; [lia|]. intros Hne. eapply reorder_live; eauto.
Qed.

Lemma searchPrefix_beginnings words t prefix :
  inserted words (root t) → len words ≤ int_max →
  (TrieA1.searchPrefix t prefix ≠ None ↔
   prefix = EmptyString ∨
   ∃ w ext, w ∈ words ∧ range_string w = range_string prefix ++ ext) ∧
  (∀ node, TrieA1.searchPrefix t prefix = Some node → prefix ≠ EmptyString →
           TrieA1.collectCompletions t node prefix ≠ []).
Proof.
  intros Hins Hlen.
  destruct (inserted_ok _ _ Hins Hlen) as (Hok & _ & _).
  assert (Hcompl : ∀ node, TrieA1.searchPrefix t prefix = Some node →
            prefix ≠ EmptyString → TrieA1.collectCompletions t node prefix ≠ []).
  { intros node Hnode Hne. rewrite collectCompletions_below.
    destruct (descend_ok _ _ _ Hnode Hok) as (Hok' & _ & Hlive).
    apply completions_below_live; [done|]. apply Hlive.
    by rewrite range_string_nil. }
  split; [|done]. split.
  - intros Hsome. destruct (decide (prefix = EmptyString)) as [|Hne]; [by left|right].
    destruct (TrieA1.searchPrefix t prefix) as [node|] eqn:Hnode; [|done].
    specialize (Hcompl node eq_refl Hne). rewrite collectCompletions_below in Hcompl.
    destruct (completions_below node (range_string prefix)) as [|c l] eqn:Hc; [done|].
    assert (Hin : c ∈ completions_below node (range_string prefix))
      by (rewrite Hc; by left).
    apply (inserted_completions words _ _ _ _ Hins Hlen (range_string_scalar prefix) Hnode)
      in Hin as (w & ext & Hw & Hrange & _).
    by exists w, ext.
  - intros [->|(w & ext & Hw & Hrange)]; [done|].
    pose proof (inserted_flag _ _ Hins (range_string w)) as Hflag.
    assert (Hpos : 0 < occurrences words (range_string w))
      by (apply occurrences_pos; eauto).
    apply Z.ltb_lt in Hpos. rewrite Hpos in Hflag.
    unfold TrieA1.searchPrefix.
    rewrite Hrange, descend_app in Hflag.
    by destruct (TrieA1.descend (range_string prefix) (root t)).
Qed.

(** ** The two tries of the benchmark *)

Lemma NoDup_same_elements {A} (l k : list A) :
  NoDup l → NoDup k → (∀ x, x ∈ l ↔ x ∈ k) → l ≡ₚ k.
Proof. intros. by apply NoDup_Permutation. Qed.


(** * The claims *)

(** ** C1: the key of the bigram lookup *)

(** C1, as amended: [Autocomplete] takes no preceding word, and the lookup in
    the bigram table is keyed by the typed prefix itself.  On a trie built by
    [Insert] and [BuildBigramTable] (fewer than 2^63 words inserted) the list
    returned is the one the contextual ranking of the specification gives with
    the prefix in the place of the preceding word: with an entry for the
    prefix, the probability of each completion is the count of the completion
    after the prefix, divided by the aggregate of the prefix; without one, the
    result is the frequency ranking of the same completion set. *)
Theorem C1_lookup_keyed_by_prefix {sorter : SortSlice}
    (n m : nat) (t : TrieA1) (prefix : string) (k : Z) (res : list suggestion) :
  built n m t → Z.of_nat n ≤ int_max →
  TrieA1.Autocomplete t prefix k = Returns res →
  res = spec_Autocomplete t prefix (Some prefix) k ∧
  (∀ contextData s,
     bigramTable t !! prefix = Some contextData → s ∈ res →
     probability s =
       float64_div (float64_of_int (count_of contextData (word s)))
                   (float64_of_int (count_of contextData "_total"))) ∧
  (∀ node,
     bigramTable t !! prefix = None → TrieA1.searchPrefix t prefix = Some node →
     res = take (Z.to_nat k)
             (spec_frequency_ranking (TrieA1.collectCompletions t node prefix))).
Proof.
  intros Hbuilt Hn Hres.
  destruct (TrieA1.searchPrefix t prefix) as [node|] eqn:Hnode.
  - destruct (Autocomplete_found _ _ _ _ _ Hnode Hres) as [_ ->].
    rewrite <- collectCompletions_below with (t := t).
    destruct (built_completions n m t Hbuilt Hn prefix node Hnode)
      as (_ & Htot & _).
    simpl in Htot.
    assert (Hrank :
      TrieA1.rankByContextualProbability t prefix (TrieA1.collectCompletions t node prefix)
      = spec_contextual_ranking (bigramTable t) (Some prefix)
          (TrieA1.collectCompletions t node prefix)).
    { rewrite rank_unfold. unfold spec_contextual_ranking, spec_frequency_ranking. simpl.
      destruct (bigramTable t !! prefix); [done|]. by rewrite Htot. }
    split; [|split].
    + unfold spec_Autocomplete. by rewrite Hnode, Hrank.
    + intros contextData s Hctx Hs. apply elem_of_take_list in Hs.
      rewrite rank_unfold, Hctx, sort_Slice_perm in Hs.
      by apply list_elem_of_fmap in Hs as (c & -> & _).
    + intros node' Htable [= <-]. rewrite Hrank.
      unfold spec_contextual_ranking. simpl. by rewrite Htable.
  - unfold TrieA1.Autocomplete in Hres. rewrite Hnode in Hres. injection Hres as <-.
    split; [|split].
    + unfold spec_Autocomplete. by rewrite Hnode.
    + intros ? s _ Hs. by apply elem_of_nil in Hs.
    + done.
Qed.

(** C1 at the corpus and the query of the benchmark. *)
Lemma C1_lookup_keyed_by_prefix_witness :
  let t := buildAlg1Trie corpus in
  let res :=
    [{| word := "hello"; probability := float64_div (float64_of_int 3) (float64_of_int 6) |};
     {| word := "hero"; probability := float64_div (float64_of_int 1) (float64_of_int 6) |};
     {| word := "helicopter";
        probability := float64_div (float64_of_int 1) (float64_of_int 6) |}] in
  (built 11 10 t ∧ Z.of_nat 11 ≤ int_max ∧
   TrieA1.Autocomplete (sorter := insertion_SortSlice) t "he" 3 = Returns res) ∧
  res = spec_Autocomplete (sorter := insertion_SortSlice) t "he" (Some "he") 3 ∧
  (∀ contextData s,
     bigramTable t !! "he" = Some contextData → s ∈ res →
     probability s =
       float64_div (float64_of_int (count_of contextData (word s)))
                   (float64_of_int (count_of contextData "_total"))) ∧
  (∀ node,
     bigramTable t !! "he" = None → TrieA1.searchPrefix t "he" = Some node →
     res = take (Z.to_nat 3)
             (spec_frequency_ranking (sorter := insertion_SortSlice)
                (TrieA1.collectCompletions t node "he"))).
Proof.
  intros t res.
  assert (Hbuilt : built 11 10 t) by exact (built_buildAlg1Trie corpus).
  assert (Hn : Z.of_nat 11 ≤ int_max) by (vm_compute; discriminate).
  assert (Hres : TrieA1.Autocomplete (sorter := insertion_SortSlice) t "he" 3 = Returns res)
    by (vm_compute; reflexivity).
  split; [by repeat split|].
  exact (C1_lookup_keyed_by_prefix (sorter := insertion_SortSlice)
           11 10 t "he" 3 res Hbuilt Hn Hres).
Defined.

(** C1 as stated fails, since no preceding word reaches the lookup.  After
    the corpus [hello; hell], the specification ranks the completions of he
    after the preceding word hello as hell 1.0, hello 0.0, while the code
    looks up he, finds no entry, and returns 0.5 for both.  After the corpus
    [he; hello], a query for he with no preceding word is ranked by frequency
    in the specification, 0.5 for both, while the code finds the entry of he
    as a predecessor and returns hello 1.0, he 0.0. *)
Lemma C1_counterexample :
  let one := float64_of_int 1 in
  let zero := float64_of_int 0 in
  let half := float64_div (float64_of_int 1) (float64_of_int 2) in
  (TrieA1.Autocomplete (sorter := insertion_SortSlice)
     (buildAlg1Trie ["hello"; "hell"]) "he" 5
   = Returns [{| word := "hello"; probability := half |};
              {| word := "hell"; probability := half |}] ∧
   spec_Autocomplete (sorter := insertion_SortSlice)
     (buildAlg1Trie ["hello"; "hell"]) "he" (Some "hello") 5
   = [{| word := "hell"; probability := one |};
      {| word := "hello"; probability := zero |}]) ∧
  (TrieA1.Autocomplete (sorter := insertion_SortSlice)
     (buildAlg1Trie ["he"; "hello"]) "he" 5
   = Returns [{| word := "hello"; probability := one |};
              {| word := "he"; probability := zero |}] ∧
   spec_Autocomplete (sorter := insertion_SortSlice)
     (buildAlg1Trie ["he"; "hello"]) "he" None 5
   = [{| word := "hello"; probability := half |};
      {| word := "he"; probability := half |}]).
Proof. repeat split; vm_compute; reflexivity. Qed.

(** ** C2: a count of zero or less *)

(** C2 at a failing input: with the prefix present and the count -1 the
    slice expression [rankedCompletions[:k]] panics; no empty list is
    returned. *)
Theorem C2_negative_count_panics :
  TrieA1.Autocomplete (sorter := insertion_SortSlice)
    (buildAlg1Trie ["hello"; "hell"; "helicopter"; "hero"; "world"]) "he" (-1) = Panics.
Proof. vm_compute. reflexivity. Qed.

(** ** C3: the sum of the probabilities *)

(** C3, as amended: for the frequency ranking, which the code takes when the
    bigram table has no entry under the prefix, on a trie built by [Insert]
    with fewer than 2^53 words inserted, the probabilities returned for a
    completion set that is not empty sum to 1 within 2^-53, as the rational
    numbers the [float64] values stand for.  In both branches the returned
    list is empty when the completion set is empty. *)
Theorem C3_frequency_probabilities_sum_to_one {sorter : SortSlice}
    (n m : nat) (t : TrieA1) (prefix : string) (node : TrieNodeA1) :
  built n m t → Z.of_nat n < 2 ^ 53 →
  TrieA1.searchPrefix t prefix = Some node →
  let completions := TrieA1.collectCompletions t node prefix in
  let ranked := TrieA1.rankByContextualProbability t prefix completions in
  (completions = [] → ranked = []) ∧
  (completions ≠ [] → bigramTable t !! prefix = None →
   sums_to_one_within (1 # 2 ^ 53) ranked).
Proof.
  intros Hbuilt Hn Hnode. simpl. split.
  - intros Hnil. apply length_zero_iff_nil. by rewrite rank_length, Hnil.
  - intros Hne Htable.
    assert (Hn' : Z.of_nat n ≤ int_max) by (unfold int_max; lia).
    destruct (built_completions n m t Hbuilt Hn' prefix node Hnode)
      as (Hall & Htot & Hmax & Hone & _).
    simpl in *. specialize (Hone Hne).
    set (completions := TrieA1.collectCompletions t node prefix) in *.
    set (T := sum_frequencies completions) in *.
    unfold sums_to_one_within.
    rewrite rank_unfold, Htable, Htot.
    rewrite (probability_sum_perm _ _ (sort_Slice_perm _ _ _)).
    pose proof (frequency_sum_error T completions ltac:(lia)) as Herr.
    fold T in Herr.
    assert (HTT : (inject_Z T / inject_Z T == 1)%Q).
    { field. change 0%Q with (inject_Z 0). rewrite inject_Z_injective. lia. }
    rewrite HTT, Qmult_1_r in Herr. apply Herr.
    apply Forall_forall. intros c Hc. split.
    + by apply (proj1 (Forall_forall _ _) Hall).
    + by apply sum_frequencies_bound.
Qed.

(** C3 at the corpus and the query of the benchmark, where he is no
    predecessor. *)
Lemma C3_frequency_probabilities_witness :
  let t := buildAlg1Trie corpus in
  ∃ node,
    (built 11 10 t ∧ Z.of_nat 11 < 2 ^ 53 ∧ TrieA1.searchPrefix t "he" = Some node) ∧
    let completions := TrieA1.collectCompletions t node "he" in
    let ranked :=
      TrieA1.rankByContextualProbability (sorter := insertion_SortSlice) t "he"
        completions in
    (completions = [] → ranked = []) ∧
    (completions ≠ [] → bigramTable t !! "he" = None →
     sums_to_one_within (1 # 2 ^ 53) ranked).
Proof.
  intros t.
  assert (Hbuilt : built 11 10 t) by exact (built_buildAlg1Trie corpus).
  assert (Hn : Z.of_nat 11 < 2 ^ 53) by (vm_compute; reflexivity).
  destruct (TrieA1.searchPrefix t "he") as [node|] eqn:Hnode; [|discriminate Hnode].
  exists node. split; [by repeat split|].
  exact (C3_frequency_probabilities_sum_to_one (sorter := insertion_SortSlice)
           11 10 t "he" node Hbuilt Hn Hnode).
Defined.

(** C3 as stated fails for the contextual branch: after the corpus
    [he; world; hello] the bigram table has an entry for he, whose only
    successor is world.  The completions of he are he and hello; both get
    the probability 0/1, and the probabilities sum to 0. *)
Lemma C3_counterexample :
  let t := buildAlg1Trie ["he"; "world"; "hello"] in
  let ranked :=
    [{| word := "hello"; probability := float64_of_int 0 |};
     {| word := "he"; probability := float64_of_int 0 |}] in
  (∃ node,
     TrieA1.searchPrefix t "he" = Some node ∧
     TrieA1.collectCompletions t node "he" ≠ [] ∧
     TrieA1.rankByContextualProbability (sorter := insertion_SortSlice) t "he"
       (TrieA1.collectCompletions t node "he") = ranked) ∧
  TrieA1.Autocomplete (sorter := insertion_SortSlice) t "he" 5 = Returns ranked ∧
  (probability_sum ranked == 0)%Q ∧
  ¬ sums_to_one_within (1 # 2) ranked.
Proof.
  intros t ranked. split; [|split; [|split]].
  - eexists. split; [vm_compute; reflexivity|]. split; [|vm_compute; reflexivity].
    vm_compute. discriminate.
  - vm_compute. reflexivity.
  - vm_compute. reflexivity.
  - unfold sums_to_one_within. vm_compute. intros H. by apply H.
Qed.

(** ** C4: the divisors of the ranking *)

(** C4: in a trie built by [Insert] and [BuildBigramTable] (fewer than 2^63
    words inserted, fewer than 2^62 bigrams counted) the ranking of a query
    never divides by zero.  With an entry of the bigram table under the
    prefix, [rankByContextualProbability] divides the counts of the entry by
    its aggregate, and the aggregate is at least 1.  Without an entry it
    divides the frequencies of the completions by their total, and the total
    is at least 1 when there is a completion; when there is none, nothing is
    divided and the ranking is empty.  Both divisors convert to a [float64]
    that is not zero, and no probability of the ranking, or of the result of
    [Autocomplete], is an infinity or a NaN, which is what a division by
    zero gives in [float64].  Once a word was inserted, every node that a
    prefix reaches has a completion below it, of frequency at least 1. *)
Theorem C4_divisors_at_least_one {sorter : SortSlice} (n m : nat) (t : TrieA1)
    (prefix : string) (node : TrieNodeA1) :
  built n m t → Z.of_nat n ≤ int_max → 2 * Z.of_nat m ≤ int_max →
  TrieA1.searchPrefix t prefix = Some node →
  let completions := TrieA1.collectCompletions t node prefix in
  let ranked := TrieA1.rankByContextualProbability t prefix completions in
  (∀ contextData, bigramTable t !! prefix = Some contextData →
     let totalFrequency := count_of contextData "_total" in
     ranked =
       sort_Slice TrieA1.byProbability
         (map (λ c, {| word := cword c;
                       probability :=
                         float64_div (float64_of_int (count_of contextData (cword c)))
                                     (float64_of_int totalFrequency) |})
              completions) ∧
     1 ≤ totalFrequency ∧
     ∃ mantissa e, float64_of_int totalFrequency = S754_finite false mantissa e) ∧
  (bigramTable t !! prefix = None →
     let totalFreq := totalFreq_of completions in
     ranked =
       sort_Slice TrieA1.byProbability
         (map (λ c, {| word := cword c;
                       probability :=
                         float64_div (float64_of_int (cfrequency c))
                                     (float64_of_int totalFreq) |})
              completions) ∧
     (completions = [] → ranked = []) ∧
     (completions ≠ [] →
        1 ≤ totalFreq ∧
        ∃ mantissa e, float64_of_int totalFreq = S754_finite false mantissa e)) ∧
  Forall (λ s, float64_finite (probability s) = true) ranked ∧
  (∀ k res, TrieA1.Autocomplete t prefix k = Returns res →
     Forall (λ s, float64_finite (probability s) = true) res) ∧
  ((0 < n)%nat → ∃ c, c ∈ completions ∧ 1 ≤ cfrequency c).
Proof.
  intros Hbuilt Hn Hm Hnode. cbv zeta.
  destruct (built_completions n m t Hbuilt Hn prefix node Hnode)
    as (Hall & Htot & Hmax & Hone & Hne).
  cbv zeta in Hall, Htot, Hmax, Hone, Hne.
  set (completions := TrieA1.collectCompletions t node prefix) in *.
  assert (Hnonzero : ∀ z, 1 ≤ z ≤ int_max →
            ∃ mantissa e, float64_of_int z = S754_finite false mantissa e).
  { intros z Hz. destruct (float64_of_int_finite z) as (m' & e & ->);
      [lia|unfold int_min; lia|].
    destruct (Z.ltb_spec z 0); [lia|eauto]. }
  assert (Hfinite : Forall (λ s, float64_finite (probability s) = true)
            (TrieA1.rankByContextualProbability t prefix completions)).
  { rewrite rank_unfold.
    destruct (bigramTable t !! prefix) as [contextData|] eqn:Hctx;
      rewrite sort_Slice_perm; apply Forall_fmap, Forall_forall; intros c Hc; simpl.
    - destruct (built_bounded n m t Hbuilt Hm _ _ Hctx) as [Htotal Hle].
      specialize (Hle (cword c)).
      apply float64_quotient_int_finite; lia.
    - rewrite Htot.
      pose proof (proj1 (Forall_forall _ _) Hall c Hc) as Hc1. simpl in Hc1.
      pose proof (sum_frequencies_bound c completions Hall Hc) as Hc2.
      apply float64_quotient_int_finite; lia. }
  split; [|split; [|split; [|split]]].
  - intros contextData Hctx.
    pose proof (built_table_total n m t Hbuilt Hm _ _ Hctx) as Htotal.
    split; [by rewrite rank_unfold, Hctx|].
    split; [lia|]. by apply Hnonzero.
  - intros Hctx. split; [by rewrite rank_unfold, Hctx|]. split.
    + intros Hnil. rewrite rank_unfold, Hctx, Hnil. simpl.
      apply Permutation_nil_r, sort_Slice_perm.
    + intros Hcs. specialize (Hone Hcs). rewrite Htot.
      split; [done|]. apply Hnonzero. lia.
  - exact Hfinite.
  - intros k res Hres.
    destruct (Autocomplete_found _ _ _ _ _ Hnode Hres) as [_ ->].
    rewrite <- collectCompletions_below with (t := t).
    by apply Forall_take.
  - intros Hpos. specialize (Hne Hpos).
    destruct completions as [|c cs]; [done|].
    exists c. split; [by left|]. by apply Forall_cons in Hall as [? _].
Qed.

(** C4 on the corpus of the benchmark: at the prefix hello, which has an
    entry in the bigram table, and at the prefix he, which has none. *)
Lemma C4_divisors_witness :
  let t := buildAlg1Trie corpus in
  let ranking := TrieA1.rankByContextualProbability (sorter := insertion_SortSlice) t in
  (built 11 10 t ∧ Z.of_nat 11 ≤ int_max ∧ 2 * Z.of_nat 10 ≤ int_max) ∧
  (∃ node contextData,
     TrieA1.searchPrefix t "hello" = Some node ∧
     bigramTable t !! "hello" = Some contextData ∧
     TrieA1.collectCompletions t node "hello" ≠ [] ∧
     1 ≤ count_of contextData "_total" ∧
     Forall (λ s, float64_finite (probability s) = true)
            (ranking "hello" (TrieA1.collectCompletions t node "hello"))) ∧
  (∃ node,
     TrieA1.searchPrefix t "he" = Some node ∧
     bigramTable t !! "he" = None ∧
     TrieA1.collectCompletions t node "he" ≠ [] ∧
     1 ≤ totalFreq_of (TrieA1.collectCompletions t node "he") ∧
     Forall (λ s, float64_finite (probability s) = true)
            (ranking "he" (TrieA1.collectCompletions t node "he"))).
Proof.
  intros t ranking.
  assert (Hbuilt : built 11 10 t) by exact (built_buildAlg1Trie corpus).
  assert (Hn : Z.of_nat 11 ≤ int_max) by (vm_compute; discriminate).
  assert (Hm : 2 * Z.of_nat 10 ≤ int_max) by (vm_compute; discriminate).
  split; [by repeat split|]. split.
  - destruct (TrieA1.searchPrefix t "hello") as [node|] eqn:Hnode;
      [|discriminate Hnode].
    destruct (bigramTable t !! "hello") as [contextData|] eqn:Hctx;
      [|discriminate Hctx].
    destruct (C4_divisors_at_least_one (sorter := insertion_SortSlice)
                11 10 t "hello" node Hbuilt Hn Hm Hnode)
      as (Hcontext & _ & Hfinite & _ & Hcompletion).
    destruct (Hcontext contextData Hctx) as (_ & Htotal & _).
    destruct Hcompletion as (c & Hc & _); [lia|].
    exists node, contextData. repeat split; try done.
    intros Hnil. rewrite Hnil in Hc. by apply elem_of_nil in Hc.
  - destruct (TrieA1.searchPrefix t "he") as [node|] eqn:Hnode;
      [|discriminate Hnode].
    assert (Hctx : bigramTable t !! "he" = None) by (vm_compute; reflexivity).
    destruct (C4_divisors_at_least_one (sorter := insertion_SortSlice)
                11 10 t "he" node Hbuilt Hn Hm Hnode)
      as (_ & Hfrequency & Hfinite & _ & Hcompletion).
    destruct (Hfrequency Hctx) as (_ & _ & Htotal).
    destruct Hcompletion as (c & Hc & _); [lia|].
    assert (Hne : TrieA1.collectCompletions t node "he" ≠ []).
    { intros Hnil. rewrite Hnil in Hc. by apply elem_of_nil in Hc. }
    destruct (Htotal Hne) as [Hone _].
    exists node. repeat split; done.
Defined.

(** ** C5: descending order *)

(** C5: in a trie built by [Insert] and [BuildBigramTable] (fewer than 2^63
    words inserted, fewer than 2^62 bigrams counted), the list the ranking
    returns, and with it the list [Autocomplete] returns, is in descending
    order: for positions i < j, probability[i] >= probability[j]. *)
Theorem C5_descending_probabilities {sorter : SortSlice}
    (n m : nat) (t : TrieA1) (prefix : string) :
  built n m t → Z.of_nat n ≤ int_max → 2 * Z.of_nat m ≤ int_max →
  (∀ node i j a b,
     TrieA1.searchPrefix t prefix = Some node →
     let ranked :=
       TrieA1.rankByContextualProbability t prefix
         (TrieA1.collectCompletions t node prefix) in
     (i < j)%nat → ranked !! i = Some a → ranked !! j = Some b →
     float64_ge (probability a) (probability b) = true) ∧
  (∀ k res i j a b,
     TrieA1.Autocomplete t prefix k = Returns res →
     (i < j)%nat → res !! i = Some a → res !! j = Some b →
     float64_ge (probability a) (probability b) = true).
Proof.
  intros Hbuilt Hn Hm. split.
  - intros node i j a b Hnode. simpl. intros Hij Hi Hj.
    destruct (built_rank_ordered n m t Hbuilt Hn Hm prefix node Hnode) as [Hnan Hord].
    by eapply ordered_by_probability.
  - intros k res i j a b Hres Hij Hi Hj.
    destruct (TrieA1.searchPrefix t prefix) as [node|] eqn:Hnode.
    + destruct (built_rank_ordered n m t Hbuilt Hn Hm prefix node Hnode) as [Hnan Hord].
      destruct (Autocomplete_found _ _ _ _ _ Hnode Hres) as [_ ->].
      rewrite <- collectCompletions_below with (t := t) in Hi, Hj.
      apply lookup_take_Some in Hi as [Hi _]. apply lookup_take_Some in Hj as [Hj _].
      by eapply ordered_by_probability.
    + unfold TrieA1.Autocomplete in Hres. rewrite Hnode in Hres.
      injection Hres as <-. done.
Qed.

(** C5 on the corpus of the benchmark and the prefix he. *)
Lemma C5_descending_witness :
  let t := buildAlg1Trie corpus in
  (built 11 10 t ∧ Z.of_nat 11 ≤ int_max ∧ 2 * Z.of_nat 10 ≤ int_max) ∧
  (∀ node i j a b,
     TrieA1.searchPrefix t "he" = Some node →
     let ranked :=
       TrieA1.rankByContextualProbability (sorter := insertion_SortSlice) t "he"
         (TrieA1.collectCompletions t node "he") in
     (i < j)%nat → ranked !! i = Some a → ranked !! j = Some b →
     float64_ge (probability a) (probability b) = true) ∧
  (∀ k res i j a b,
     TrieA1.Autocomplete (sorter := insertion_SortSlice) t "he" k = Returns res →
     (i < j)%nat → res !! i = Some a → res !! j = Some b →
     float64_ge (probability a) (probability b) = true).
Proof.
  intros t.
  assert (Hbuilt : built 11 10 t) by exact (built_buildAlg1Trie corpus).
  assert (Hn : Z.of_nat 11 ≤ int_max) by (vm_compute; discriminate).
  assert (Hm : 2 * Z.of_nat 10 ≤ int_max) by (vm_compute; discriminate).
  split; [by repeat split|].
  exact (C5_descending_probabilities (sorter := insertion_SortSlice)
           11 10 t "he" Hbuilt Hn Hm).
Defined.

(** ** C6: returned words and the prefix *)

(** C6, as amended: every word that [Autocomplete(p, k)] returns starts with
    the prefix as re-encoded from its runes, [string([]rune(p))]; when [p] is
    valid UTF-8 that is [p] itself. *)
Theorem C6_words_extend_prefix {sorter : SortSlice} (t : TrieA1) (p : string) (k : Z)
    (res : list suggestion) (s : suggestion) :
  TrieA1.Autocomplete t p k = Returns res → s ∈ res →
  HasPrefix (word s) (string_of_runes (range_string p)) = true ∧
  (valid_utf8 p → HasPrefix (word s) p = true).
Proof.
  intros Hres Hs.
  assert (Hpre : HasPrefix (word s) (string_of_runes (range_string p)) = true).
  { destruct (TrieA1.searchPrefix t p) as [node|] eqn:Hnode.
    - destruct (Autocomplete_found _ _ _ _ _ Hnode Hres) as [_ ->].
      apply elem_of_take_list in Hs.
      apply rank_words in Hs as (c & Hc & ->).
      apply completions_below_path in Hc as [ext ->].
      rewrite string_of_runes_app. apply HasPrefix_append.
    - unfold TrieA1.Autocomplete in Hres. rewrite Hnode in Hres.
      injection Hres as <-. by apply elem_of_nil in Hs. }
  split; [done|]. intros Hvalid. by rewrite Hvalid in Hpre.
Qed.

(** C6 at a concrete query. *)
Lemma C6_words_extend_prefix_witness :
  let t := buildAlg1Trie ["helicopter"; "hello"; "hero"] in
  let s := {| word := "helicopter"; probability := float64_of_int 1 |} in
  TrieA1.Autocomplete (sorter := insertion_SortSlice) t "helico" 5 = Returns [s] ∧
  s ∈ [s] ∧
  HasPrefix (word s) (string_of_runes (range_string "helico")) = true ∧
  (valid_utf8 "helico" → HasPrefix (word s) "helico" = true).
Proof.
  intros t s.
  assert (Hres : TrieA1.Autocomplete (sorter := insertion_SortSlice) t "helico" 5 = Returns [s])
    by (vm_compute; reflexivity).
  assert (Hs : s ∈ [s]) by (apply list_elem_of_singleton; reflexivity).
  split; [exact Hres|]. split; [exact Hs|].
  exact (C6_words_extend_prefix (sorter := insertion_SortSlice) t "helico" 5 [s] s Hres Hs).
Defined.

(** C6 as stated fails for a prefix that is not valid UTF-8: after
    [Insert("\xff")], [Autocomplete("\xff", 5)] returns the word
    "\xef\xbf\xbd" (U+FFFD), which does not start with the byte 0xFF. *)
Lemma C6_counterexample :
  TrieA1.Autocomplete (sorter := insertion_SortSlice)
    (TrieA1.Insert NewTrieA1 (bytes [0xFF])) (bytes [0xFF]) 5 =
  Returns [{| word := bytes [0xEF; 0xBF; 0xBD]; probability := float64_of_int 1 |}] ∧
  HasPrefix (bytes [0xEF; 0xBF; 0xBD]) (bytes [0xFF]) = false.
Proof. split; vm_compute; reflexivity. Qed.

(** ** C7: inserting a stored word again *)

(** C7: for a word already stored, a further [Insert] leaves the node set as
    it is, adds exactly 1 to the frequency of the word, and changes the
    frequency and the end-of-word flag of no other word.  The counter is a
    Go [int] below the largest one. *)
Theorem C7_reinsert_only_adds_weight (t : TrieA1) (w : string) :
  stored t w = true →
  int_min ≤ frequencyOf t w < int_max →
  node_paths (root (TrieA1.Insert t w)) [] = node_paths (root t) [] ∧
  frequencyOf (TrieA1.Insert t w) w = frequencyOf t w + 1 ∧
  stored (TrieA1.Insert t w) w = true ∧
  (∀ w', range_string w' ≠ range_string w →
     frequencyOf (TrieA1.Insert t w) w' = frequencyOf t w' ∧
     stored (TrieA1.Insert t w) w' = stored t w') ∧
  bigramTable (TrieA1.Insert t w) = bigramTable t.
Proof.
  unfold stored, frequencyOf, TrieA1.searchPrefix. simpl.
  destruct (TrieA1.descend (range_string w) (root t)) as [node|] eqn:Hnode; [|done].
  intros _ Hfreq. repeat split.
  - apply node_paths_insertRunes. by rewrite Hnode.
  - rewrite descend_insertRunes, Hnode. simpl.
    apply wrap_in_range. unfold int_min, int_max in *. lia.
  - by rewrite descend_insertRunes.
  - pose proof (descend_insertRunes_other (range_string w) (range_string w')
                  (root t) H) as Hobs. simpl in Hobs.
    destruct (TrieA1.descend (range_string w') _), (TrieA1.descend (range_string w') _);
      congruence.
  - pose proof (descend_insertRunes_other (range_string w) (range_string w')
                  (root t) H) as Hobs. simpl in Hobs.
    destruct (TrieA1.descend (range_string w') _), (TrieA1.descend (range_string w') _);
      congruence.
Qed.

(** C7 on the corpus of the benchmark: a fourth [Insert] of hello. *)
Lemma C7_reinsert_witness :
  let t := buildAlg1Trie corpus in
  (stored t "hello" = true ∧ int_min ≤ frequencyOf t "hello" < int_max) ∧
  node_paths (root (TrieA1.Insert t "hello")) [] = node_paths (root t) [] ∧
  frequencyOf (TrieA1.Insert t "hello") "hello" = frequencyOf t "hello" + 1 ∧
  stored (TrieA1.Insert t "hello") "hello" = true ∧
  (∀ w', range_string w' ≠ range_string "hello" →
     frequencyOf (TrieA1.Insert t "hello") w' = frequencyOf t w' ∧
     stored (TrieA1.Insert t "hello") w' = stored t w') ∧
  bigramTable (TrieA1.Insert t "hello") = bigramTable t.
Proof.
  intros t.
  assert (Hstored : stored t "hello" = true) by (vm_compute; reflexivity).
  assert (Hfreq : int_min ≤ frequencyOf t "hello" < int_max)
    by (vm_compute; split; [discriminate|reflexivity]).
  split; [split; [exact Hstored|exact Hfreq]|].
  exact (C7_reinsert_only_adds_weight t "hello" Hstored Hfreq).
Defined.

(** ** C8: an unknown prefix *)

(** C8: when the code-point path of the prefix is not present in the trie,
    [Autocomplete] returns the empty list for every count, negative counts
    included; it does not panic. *)
Theorem C8_unknown_prefix_empty {sorter : SortSlice} (t : TrieA1) (prefix : string) (k : Z) :
  TrieA1.descend (range_string prefix) (root t) = None →
  TrieA1.Autocomplete t prefix k = Returns [].
Proof.
  intros Hnone. unfold TrieA1.Autocomplete, TrieA1.searchPrefix. by rewrite Hnone.
Qed.

(** C8 at the scenario of the tests: the prefix xyz on their corpus. *)
Lemma C8_unknown_prefix_witness :
  TrieA1.descend (range_string "xyz")
    (root (buildAlg1Trie ["hello"; "hell"; "helicopter"; "hero"; "world"])) = None ∧
  TrieA1.Autocomplete (sorter := insertion_SortSlice)
    (buildAlg1Trie ["hello"; "hell"; "helicopter"; "hero"; "world"]) "xyz" 5 = Returns [].
Proof.
  split; [reflexivity|].
  exact (C8_unknown_prefix_empty (sorter := insertion_SortSlice)
           (buildAlg1Trie ["hello"; "hell"; "helicopter"; "hero"; "world"])
           "xyz" 5 eq_refl).
Defined.

(** ** C9: the cap of the frequency trie *)

(** C9: the frequency-based [Autocomplete], of the benchmark and of the front
    end, returns at most 10 words whatever the trie holds; its only parameter
    is the prefix. *)
Theorem C9_at_most_ten_suggestions {sorter : SortSlice} (prefix : string) :
  (∀ t : TriesA2.TriesA2, (length (TriesA2.Autocomplete t prefix) ≤ 10)%nat) ∧
  (∀ t : Tries.Tries, (length (Tries.Autocomplete t prefix) ≤ 10)%nat).
Proof.
  split; intros t.
  - unfold TriesA2.Autocomplete.
    destruct (TriesA2.descend _ _); simpl; [|lia].
    match goal with |- context [len ?l >? 10] =>
      destruct (Z.gtb_spec (len l) 10) as [Hlen|Hlen]; unfold len in Hlen end.
    + rewrite length_take. lia.
    + lia.
  - unfold Tries.Autocomplete.
    destruct (Tries.descend _ _); simpl; [|lia].
    match goal with |- context [len ?l >? 10] =>
      destruct (Z.gtb_spec (len l) 10) as [Hlen|Hlen]; unfold len in Hlen end.
    + rewrite length_take. lia.
    + lia.
Qed.

(** ** C10: the aggregate of a predecessor *)

(** C10: the aggregate of a predecessor is kept under the reserved successor
    key "_total".  When no word of the corpus is "_total", after
    [BuildBigramTable] on a trie whose table is still empty the "_total"
    entry of every predecessor equals the sum of its successor counts.  For
    the corpus [a; _total] the aggregate and the count of the successor share
    one entry, which becomes 2 after a single bigram. *)
Theorem C10_total_is_sum_of_successor_counts :
  (∀ (t : TrieA1) (corpus : list string) (word1 : string) (contextData : gmap string Z),
     bigramTable t = ∅ →
     "_total" ∉ corpus →
     len corpus ≤ int_max →
     bigramTable (TrieA1.BuildBigramTable t corpus) !! word1 = Some contextData →
     count_of contextData "_total" = successor_sum contextData) ∧
  (∃ contextData,
     bigramTable (TrieA1.BuildBigramTable NewTrieA1 ["a"; "_total"]) !! "a"
       = Some contextData ∧
     count_of contextData "_total" = 2 ∧ successor_sum contextData = 0).
Proof.
  split.
  - intros t corpus word1 ctx Hempty Hno Hlen Hctx. simpl in Hctx.
    eapply (bigramLoop_sums corpus 0) in Hctx as [(_ & Hsum & _) _]; try done.
    + lia.
    + rewrite Hempty. intros w c. by rewrite lookup_empty.
  - eexists. split; [vm_compute; reflexivity|]. split; vm_compute; reflexivity.
Qed.

(** C10 on the corpus of the benchmark: hello is followed by hell and by war. *)
Lemma C10_total_is_sum_witness :
  let t := foldl TrieA1.Insert NewTrieA1 corpus in
  let contextData : gmap string Z :=
    <[ "_total" := 2 ]> (<[ "war" := 1 ]> (<[ "hell" := 1 ]> {[ "_total" := 0 ]})) in
  (bigramTable t = ∅ ∧ ("_total" ∉ corpus) ∧ len corpus ≤ int_max ∧
   bigramTable (TrieA1.BuildBigramTable t corpus) !! "hello" = Some contextData) ∧
  count_of contextData "_total" = successor_sum contextData.
Proof.
  intros t contextData.
  assert (Hempty : bigramTable t = ∅) by reflexivity.
  assert (Hno : "_total" ∉ corpus).
  { unfold corpus. rewrite !not_elem_of_cons.
    repeat (split; [discriminate|]). apply not_elem_of_nil. }
  assert (Hlen : len corpus ≤ int_max) by (vm_compute; discriminate).
  assert (Hctx : bigramTable (TrieA1.BuildBigramTable t corpus) !! "hello"
                 = Some contextData) by (vm_compute; reflexivity).
  split; [by repeat split|].
  exact (proj1 C10_total_is_sum_of_successor_counts t corpus "hello" contextData
           Hempty Hno Hlen Hctx).
Defined.

(** * Further properties of the code *)

(** ** The contextual trie: [Insert], [searchPrefix], [collectCompletions],
    [Autocomplete] *)

(** X1: after [Insert] was called with the words of a list (fewer than 2^63
    of them) on a new trie, the counter found for a word is the number of
    inserted words with the same runes, and the word is found as stored
    exactly when there is such a word.  For valid UTF-8 the runes determine
    the word: the counter is the number of times the word itself was
    inserted. *)
Theorem Insert_counts_occurrences (words : list string) (t : TrieA1) (w : string) :
  inserted words (root t) → len words ≤ int_max →
  frequencyOf t w = occurrences words (range_string w) ∧
  (stored t w = true ↔ ∃ w', w' ∈ words ∧ range_string w' = range_string w) ∧
  (Forall valid_utf8 words → valid_utf8 w →
     frequencyOf t w = len (filter (λ w', w' = w) words) ∧
     (stored t w = true ↔ w ∈ words)).
Proof.
  intros Hins Hlen.
  destruct (inserted_counts words t w Hins Hlen) as [Hf Hs].
  split; [done|]. split; [done|]. intros Hvalid Hw.
  destruct (occurrences_valid words w Hvalid Hw) as [Hocc Hin].
  split; [by rewrite Hf|]. by rewrite Hs.
Qed.

(** X1 on the corpus of the benchmark, where hello occurs three times. *)
Lemma Insert_counts_occurrences_witness :
  let t := buildAlg1Trie corpus in
  (inserted corpus (root t) ∧ len corpus ≤ int_max) ∧
  frequencyOf t "hello" = occurrences corpus (range_string "hello") ∧
  (stored t "hello" = true ↔
   ∃ w', w' ∈ corpus ∧ range_string w' = range_string "hello") ∧
  (Forall valid_utf8 corpus → valid_utf8 "hello" →
     frequencyOf t "hello" = len (filter (λ w', w' = "hello") corpus) ∧
     (stored t "hello" = true ↔ "hello" ∈ corpus)).
Proof.
  intros t.
  assert (Hins : inserted corpus (root t)) by apply inserted_buildAlg1Trie.
  assert (Hlen : len corpus ≤ int_max) by (vm_compute; discriminate).
  split; [by split|].
  exact (Insert_counts_occurrences corpus t "hello" Hins Hlen).
Defined.

(** X2: in a trie that holds [words], [collectCompletions] at the node of a
    prefix lists the inserted words whose runes begin with the runes of the
    prefix, each once whatever its number of insertions, as re-encoded from
    its runes and with the number of its insertions as the frequency. *)
Theorem collectCompletions_lists_stored_words (words : list string) (t : TrieA1)
    (prefix : string) (node : TrieNodeA1) :
  inserted words (root t) → len words ≤ int_max →
  TrieA1.searchPrefix t prefix = Some node →
  let completions := TrieA1.collectCompletions t node prefix in
  NoDup (map cword completions) ∧
  ∀ c, c ∈ completions ↔
       ∃ w ext, w ∈ words ∧ range_string w = range_string prefix ++ ext ∧
                c = {| cword := string_of_runes (range_string w);
                       cfrequency := occurrences words (range_string w) |}.
Proof.
  intros Hins Hlen Hnode. cbv zeta. rewrite collectCompletions_below.
  pose proof (inserted_well_keyed _ _ Hins) as Hwk.
  destruct (descend_well_keyed _ _ _ Hwk Hnode) as [Hpath Hwk'].
  split.
  - by apply completions_below_NoDup.
  - intros c. by eapply inserted_completions.
Qed.

(** X2 on the corpus of the benchmark and the prefix he. *)
Lemma collectCompletions_lists_stored_words_witness :
  let t := buildAlg1Trie corpus in
  ∃ node,
    (inserted corpus (root t) ∧ len corpus ≤ int_max ∧
     TrieA1.searchPrefix t "he" = Some node) ∧
    let completions := TrieA1.collectCompletions t node "he" in
    NoDup (map cword completions) ∧
    ∀ c, c ∈ completions ↔
         ∃ w ext, w ∈ corpus ∧ range_string w = range_string "he" ++ ext ∧
                  c = {| cword := string_of_runes (range_string w);
                         cfrequency := occurrences corpus (range_string w) |}.
Proof.
  intros t.
  assert (Hins : inserted corpus (root t)) by apply inserted_buildAlg1Trie.
  assert (Hlen : len corpus ≤ int_max) by (vm_compute; discriminate).
  destruct (TrieA1.searchPrefix t "he") as [node|] eqn:Hnode; [|discriminate Hnode].
  exists node. split; [by repeat split|].
  exact (collectCompletions_lists_stored_words corpus t "he" node Hins Hlen Hnode).
Defined.

(** X3: in a trie that holds [words], the words [Autocomplete] returns are
    distinct, and each is valid UTF-8 and an inserted word, re-encoded from
    its runes (the word itself when it is valid UTF-8).  When fewer than [k]
    suggestions come back, every inserted word that begins with the prefix
    is among them. *)
Theorem Autocomplete_returns_inserted_words {sorter : SortSlice}
    (words : list string) (t : TrieA1) (prefix : string) (k : Z)
    (res : list suggestion) :
  inserted words (root t) → len words ≤ int_max →
  TrieA1.Autocomplete t prefix k = Returns res →
  NoDup (map word res) ∧
  (∀ s, s ∈ res →
     valid_utf8 (word s) ∧
     ∃ w, w ∈ words ∧ word s = string_of_runes (range_string w) ∧
          (valid_utf8 w → word s = w)) ∧
  (len res < k →
   ∀ w, w ∈ words →
     (∃ ext, range_string w = range_string prefix ++ ext) ∨
     (valid_utf8 prefix ∧ HasPrefix w prefix = true) →
     string_of_runes (range_string w) ∈ map word res).
Proof.
  intros Hins Hlen Hres.
  pose proof (inserted_well_keyed _ _ Hins) as Hwk.
  pose proof (Autocomplete_total t prefix k) as Htotal.
  destruct (TrieA1.searchPrefix t prefix) as [node|] eqn:Hnode.
  - cbv zeta in Htotal. destruct (Z.ltb_spec k 0) as [?|Hk]; [congruence|].
    rewrite Htotal in Hres. injection Hres as <-.
    destruct (descend_well_keyed _ _ _ Hwk Hnode) as [Hpath Hwk'].
    rewrite collectCompletions_below.
    set (completions := completions_below node (range_string prefix)).
    set (ranked := TrieA1.rankByContextualProbability t prefix completions).
    assert (Hwords : map word ranked ≡ₚ map cword completions)
      by apply rank_word_perm.
    assert (Hcompl : ∀ c, c ∈ completions ↔
              ∃ w ext, w ∈ words ∧ range_string w = range_string prefix ++ ext ∧
                c = {| cword := string_of_runes (range_string w);
                       cfrequency := occurrences words (range_string w) |}).
    { intros c. by eapply inserted_completions. }
    split; [|split].
    + rewrite fmap_take.
      assert (Hnd : NoDup (map word ranked))
        by (rewrite Hwords; by apply completions_below_NoDup).
      apply (sublist_NoDup _ _ Hnd), sublist_take.
    + intros s Hs%elem_of_take_list.
      assert (Hin : word s ∈ map cword completions).
      { rewrite <- Hwords. apply list_elem_of_fmap. by exists s. }
      apply list_elem_of_fmap in Hin as (c & Hc & Hin).
      apply Hcompl in Hin as (w & ext & Hw & _ & ->). simpl in Hc.
      split; [rewrite Hc; apply valid_utf8_reencoded|].
      exists w. split; [done|]. split; [done|]. intros Hvalid. by rewrite Hc.
    + intros Hshort w Hw Hext.
      assert (Hext' : ∃ ext, range_string w = range_string prefix ++ ext).
      { destruct Hext as [?|[? ?]]; [done|]. by apply HasPrefix_runes. }
      destruct Hext' as [ext Hext'].
      rewrite take_ge.
      * rewrite Hwords. apply list_elem_of_fmap.
        eexists. split; [|apply Hcompl; by exists w, ext]. done.
      * unfold len in Hshort. rewrite length_take in Hshort. lia.
  - rewrite Htotal in Hres. injection Hres as <-.
    split; [constructor|]. split; [intros s Hs; by apply elem_of_nil in Hs|].
    intros _ w Hw Hext.
    assert (Hext' : ∃ ext, range_string w = range_string prefix ++ ext).
    { destruct Hext as [?|[? ?]]; [done|]. by apply HasPrefix_runes. }
    destruct Hext' as [ext Hext'].
    pose proof (inserted_observe _ _ Hins Hlen (range_string w)) as Hobs.
    assert (Hpos : 0 < occurrences words (range_string w))
      by (apply occurrences_pos; eauto).
    unfold TrieA1.searchPrefix in Hnode.
    rewrite Hext', descend_app, Hnode in Hobs. simpl in Hobs.
    injection Hobs as He Hf. rewrite <- Hext' in Hf. lia.
Qed.

(** X3 on the corpus of the benchmark: ten suggestions are asked for the
    prefix he and four come back. *)
Lemma Autocomplete_returns_inserted_words_witness :
  let t := buildAlg1Trie corpus in
  let sixth n := float64_div (float64_of_int n) (float64_of_int 6) in
  let res :=
    [{| word := "hello"; probability := sixth 3 |};
     {| word := "hero"; probability := sixth 1 |};
     {| word := "helicopter"; probability := sixth 1 |};
     {| word := "hell"; probability := sixth 1 |}] in
  (inserted corpus (root t) ∧ len corpus ≤ int_max ∧
   TrieA1.Autocomplete (sorter := insertion_SortSlice) t "he" 10 = Returns res) ∧
  NoDup (map word res) ∧
  (∀ s, s ∈ res →
     valid_utf8 (word s) ∧
     ∃ w, w ∈ corpus ∧ word s = string_of_runes (range_string w) ∧
          (valid_utf8 w → word s = w)) ∧
  (len res < 10 →
   ∀ w, w ∈ corpus →
     (∃ ext, range_string w = range_string "he" ++ ext) ∨
     (valid_utf8 "he" ∧ HasPrefix w "he" = true) →
     string_of_runes (range_string w) ∈ map word res).
Proof.
  intros t sixth res.
  assert (Hins : inserted corpus (root t)) by apply inserted_buildAlg1Trie.
  assert (Hlen : len corpus ≤ int_max) by (vm_compute; discriminate).
  assert (Hres : TrieA1.Autocomplete (sorter := insertion_SortSlice) t "he" 10
                 = Returns res) by (vm_compute; reflexivity).
  split; [by repeat split|].
  exact (Autocomplete_returns_inserted_words (sorter := insertion_SortSlice)
           corpus t "he" 10 res Hins Hlen Hres).
Defined.

(** X4: [Autocomplete] panics exactly when the prefix is present and the
    count is negative.  For a count that is not negative it returns, and
    with the prefix present the result has min(k, n) entries, n being the
    number of completions collected. *)
Theorem Autocomplete_panics_iff_negative {sorter : SortSlice}
    (t : TrieA1) (prefix : string) (k : Z) :
  (TrieA1.Autocomplete t prefix k = Panics ↔
   k < 0 ∧ TrieA1.searchPrefix t prefix ≠ None) ∧
  (0 ≤ k →
   ∃ res, TrieA1.Autocomplete t prefix k = Returns res ∧
     ∀ node, TrieA1.searchPrefix t prefix = Some node →
       len res = Z.min k (len (TrieA1.collectCompletions t node prefix))).
Proof.
  pose proof (Autocomplete_total t prefix k) as Htotal.
  destruct (TrieA1.searchPrefix t prefix) as [node|] eqn:Hnode.
  - cbv zeta in Htotal. destruct (Z.ltb_spec k 0) as [Hk|Hk]; rewrite Htotal.
    + split; [by split|lia].
    + split; [split; [done|lia]|].
      intros _. eexists. split; [done|]. intros ? [= <-].
      unfold len. rewrite length_take, rank_length. lia.
  - rewrite Htotal. split; [split; [done|by intros [_ ?]]|].
    intros _. exists []. by split.
Qed.

(** ** The bigram table: [BuildBigramTable] *)

(** X5: [BuildBigramTable] adds the adjacent pairs of the corpus to the
    counts that the table holds: afterwards the count of [word2] under
    [word1] is the count before plus the number of places where [word2]
    comes right after [word1], for every successor other than the reserved
    key "_total", as long as no counter passes the largest [int].  A
    predecessor has no entry exactly when it had none and is at no place but
    the last of the corpus.  The trie is left as it is, and so is the table
    for a corpus of fewer than two words. *)
Theorem BuildBigramTable_counts_pairs (t : TrieA1) (corpus : list string) (bound : Z) :
  (∀ word1 word2, word2 ≠ "_total" →
     0 ≤ successor_count (bigramTable t) word1 word2 ≤ bound) →
  bound + len corpus ≤ int_max + 1 →
  let t' := TrieA1.BuildBigramTable t corpus in
  root t' = root t ∧
  (∀ word1 word2, word2 ≠ "_total" →
     successor_count (bigramTable t') word1 word2 =
     successor_count (bigramTable t) word1 word2 + bigram_count corpus word1 word2) ∧
  (∀ word1, bigramTable t' !! word1 = None ↔
            bigramTable t !! word1 = None ∧ word1 ∉ map fst (pairs corpus)) ∧
  ((length corpus ≤ 1)%nat → t' = t).
Proof.
  intros Hbound Hlen. cbv zeta. split; [done|].
  destruct (bigramLoop_counts corpus bound (bigramTable t) Hbound Hlen) as [Hc Hn].
  split; [done|]. split; [done|].
  intros Hshort. destruct t as [r table]. unfold TrieA1.BuildBigramTable. simpl.
  f_equal. destruct corpus as [|a [|b corpus]]; simpl in Hshort.
  - apply bigramLoop_nil.
  - apply bigramLoop_single.
  - lia.
Qed.

(** X5 on the corpus of the benchmark, counted into a new table. *)
Lemma BuildBigramTable_counts_pairs_witness :
  let t := foldl TrieA1.Insert NewTrieA1 corpus in
  ((∀ word1 word2, word2 ≠ "_total" →
      0 ≤ successor_count (bigramTable t) word1 word2 ≤ 0) ∧
   0 + len corpus ≤ int_max + 1) ∧
  let t' := TrieA1.BuildBigramTable t corpus in
  root t' = root t ∧
  (∀ word1 word2, word2 ≠ "_total" →
     successor_count (bigramTable t') word1 word2 =
     successor_count (bigramTable t) word1 word2 + bigram_count corpus word1 word2) ∧
  (∀ word1, bigramTable t' !! word1 = None ↔
            bigramTable t !! word1 = None ∧ word1 ∉ map fst (pairs corpus)) ∧
  ((length corpus ≤ 1)%nat → t' = t).
Proof.
  intros t.
  assert (Hbound : ∀ word1 word2, word2 ≠ "_total" →
            0 ≤ successor_count (bigramTable t) word1 word2 ≤ 0).
  { intros word1 word2 _. unfold successor_count, count_of.
    change (bigramTable t) with (∅ : gmap string (gmap string Z)).
    rewrite lookup_empty. simpl. rewrite lookup_empty. simpl. lia. }
  assert (Hlen : 0 + len corpus ≤ int_max + 1) by (vm_compute; discriminate).
  split; [by split|].
  exact (BuildBigramTable_counts_pairs t corpus 0 Hbound Hlen).
Defined.

(** ** The frequency tries: [Insert], [getFrequency], [collectWordsA2],
    [Autocomplete] *)

(** X6: every word that the frequency-based [Autocomplete] returns, in the
    benchmark and in the front end, begins with the bytes of the prefix as
    it was passed, valid UTF-8 or not: the words are built by appending to
    the prefix itself. *)
Theorem frequency_Autocomplete_keeps_prefix {sorter : SortSlice} (prefix : string) :
  (∀ t : TriesA2.TriesA2,
     Forall (λ w, HasPrefix w prefix = true) (TriesA2.Autocomplete t prefix)) ∧
  (∀ t : Tries.Tries,
     Forall (λ w, HasPrefix w prefix = true) (Tries.Autocomplete t prefix)).
Proof.
  split; intros t; apply Forall_forall; intros w.
  - intros Hw. destruct (AutocompleteA2_collected t prefix w Hw) as (current & _ & Hin).
    by eapply collectWordsA2_prefix.
  - intros Hw. destruct (AutocompleteTUI_collected t prefix w Hw) as (current & _ & Hin).
    by eapply collectWordsTUI_prefix.
Qed.

(** X7: the frequency-based [Autocomplete], in the benchmark and in the
    front end, returns the collected words in descending order of
    [getFrequency], and what the cap of ten cuts off is no more frequent
    than anything returned: the result and a rest make up the collected
    words, the rest is empty unless ten words are returned, and no word of
    the rest has a higher frequency than a returned one. *)
Theorem frequency_Autocomplete_most_frequent_first {sorter : SortSlice} (prefix : string) :
  (∀ t : TriesA2.TriesA2,
     let res := TriesA2.Autocomplete t prefix in
     StronglySorted (λ a b, TriesA2.getFrequency t b ≤ TriesA2.getFrequency t a) res ∧
     ∀ current,
       TriesA2.descend (range_string prefix) (TriesA2.root t) = Some current →
       ∃ rest,
         res ++ rest ≡ₚ TriesA2.collectWordsA2 current prefix [] ∧
         (rest ≠ [] → length res = 10%nat) ∧
         ∀ a b, a ∈ res → b ∈ rest →
                TriesA2.getFrequency t b ≤ TriesA2.getFrequency t a) ∧
  (∀ t : Tries.Tries,
     let res := Tries.Autocomplete t prefix in
     StronglySorted (λ a b, Tries.getFrequency t b ≤ Tries.getFrequency t a) res ∧
     ∀ current,
       Tries.descend (range_string prefix) (Tries.root t) = Some current →
       ∃ rest,
         res ++ rest ≡ₚ Tries.collectWords current prefix [] ∧
         (rest ≠ [] → length res = 10%nat) ∧
         ∀ a b, a ∈ res → b ∈ rest →
                Tries.getFrequency t b ≤ Tries.getFrequency t a).
Proof.
  assert (Hcut : ∀ {A} (l : list A), drop 10 l ≠ [] → length (take 10 l) = 10%nat).
  { intros A l Hne. rewrite length_take.
    destruct (decide (length l ≤ 10)%nat) as [Hle|]; [|lia].
    by rewrite drop_ge in Hne. }
  split; intros t; cbv zeta.
  - rewrite AutocompleteA2_unfold.
    destruct (TriesA2.descend _ _) as [current|]; [|split; [constructor|done]].
    destruct (sorted_cap (TriesA2.getFrequency t)
                (TriesA2.collectWordsA2 current prefix [])) as (Hres & Hs & Hp & Hc).
    cbv zeta in *. rewrite Hres in *. split; [done|].
    intros ? [= <-]. eexists. split; [done|]. split; [apply Hcut|done].
  - rewrite AutocompleteTUI_unfold.
    destruct (Tries.descend _ _) as [current|]; [|split; [constructor|done]].
    destruct (sorted_cap (Tries.getFrequency t)
                (Tries.collectWords current prefix [])) as (Hres & Hs & Hp & Hc).
    cbv zeta in *. rewrite Hres in *. split; [done|].
    intros ? [= <-]. eexists. split; [done|]. split; [apply Hcut|done].
Qed.

(** X8: after [Insert] was called with the words of a list (fewer than 2^63
    of them) on the trie of [initTriesA2], [getFrequency] of a word is the
    number of inserted words with the same runes: 0 for a word that was not
    inserted, also when it is the beginning of one that was.  For valid
    UTF-8 it is the number of times the word itself was inserted. *)
Theorem getFrequency_counts_occurrences (words : list string) (t : TriesA2.TriesA2)
    (w : string) :
  inserted words (shapeA2 (TriesA2.root t)) → len words ≤ int_max →
  TriesA2.getFrequency t w = occurrences words (range_string w) ∧
  (Forall valid_utf8 words → valid_utf8 w →
     TriesA2.getFrequency t w = len (filter (λ w', w' = w) words)).
Proof.
  intros Hins Hlen.
  rewrite (getFrequencyA2_occurrences words t w Hins Hlen). split; [done|].
  intros Hvalid Hw. by destruct (occurrences_valid words w Hvalid Hw).
Qed.

(** X8 on the corpus of the benchmark: hel was not inserted, hello was,
    three times. *)
Lemma getFrequency_counts_occurrences_witness :
  let t := buildAlg2Trie corpus in
  (inserted corpus (shapeA2 (TriesA2.root t)) ∧ len corpus ≤ int_max) ∧
  (TriesA2.getFrequency t "hel" = occurrences corpus (range_string "hel") ∧
   (Forall valid_utf8 corpus → valid_utf8 "hel" →
      TriesA2.getFrequency t "hel" = len (filter (λ w', w' = "hel") corpus))) ∧
  (TriesA2.getFrequency t "hello" = occurrences corpus (range_string "hello") ∧
   (Forall valid_utf8 corpus → valid_utf8 "hello" →
      TriesA2.getFrequency t "hello" = len (filter (λ w', w' = "hello") corpus))).
Proof.
  intros t.
  assert (Hins : inserted corpus (shapeA2 (TriesA2.root t)))
    by apply inserted_buildAlg2Trie.
  assert (Hlen : len corpus ≤ int_max) by (vm_compute; discriminate).
  split; [by split|]. split.
  - exact (getFrequency_counts_occurrences corpus t "hel" Hins Hlen).
  - exact (getFrequency_counts_occurrences corpus t "hello" Hins Hlen).
Defined.

(** X9: in a frequency trie that holds [words], the words [Autocomplete]
    returns are distinct, each has a frequency of at least 1 and the runes
    of an inserted word, and is that word when it and the prefix are valid
    UTF-8.  When fewer than ten words come back, every inserted word whose
    runes begin with the runes of the prefix is among them, as the prefix
    followed by the encoding of its further runes. *)
Theorem frequency_Autocomplete_returns_inserted_words {sorter : SortSlice}
    (words : list string) (t : TriesA2.TriesA2) (prefix : string) :
  inserted words (shapeA2 (TriesA2.root t)) → len words ≤ int_max →
  let res := TriesA2.Autocomplete t prefix in
  NoDup res ∧
  (∀ r, r ∈ res →
     1 ≤ TriesA2.getFrequency t r ∧
     ∃ w, w ∈ words ∧ range_string w = range_string r ∧
          (valid_utf8 prefix → valid_utf8 w → r = w)) ∧
  ((length res < 10)%nat →
   ∀ w, w ∈ words →
     (∀ ext, range_string w = range_string prefix ++ ext →
             String.append prefix (string_of_runes ext) ∈ res) ∧
     (valid_utf8 prefix → valid_utf8 w → HasPrefix w prefix = true → w ∈ res)).
Proof.
  intros Hins Hlen. cbv zeta.
  pose proof (inserted_well_keyed _ _ Hins) as Hwk.
  assert (Hscalar : ∀ w ext, range_string w = range_string prefix ++ ext →
            Forall (λ r, scalar_value r = true) ext).
  { intros w ext Hrange. pose proof (range_string_scalar w) as Hsc.
    rewrite Hrange in Hsc. by apply Forall_app in Hsc as [_ ?]. }
  rewrite AutocompleteA2_unfold.
  destruct (TriesA2.descend (range_string prefix) (TriesA2.root t))
    as [current|] eqn:Hcur.
  - set (collected := TriesA2.collectWordsA2 current prefix []).
    set (sorted := sort_Slice _ collected).
    assert (Hperm : sorted ≡ₚ collected) by apply sort_Slice_perm.
    assert (Hcoll : ∀ r, r ∈ collected ↔
              ∃ w ext, w ∈ words ∧ range_string w = range_string prefix ++ ext ∧
                       r = String.append prefix (string_of_runes ext))
      by (intros r; by apply (collectWordsA2_inserted words t)).
    split; [|split].
    + assert (Hnd : NoDup sorted)
        by (rewrite Hperm; by eapply collectWordsA2_NoDup).
      apply (sublist_NoDup _ _ Hnd), sublist_take.
    + intros r Hr%elem_of_take_list. rewrite Hperm in Hr.
      apply Hcoll in Hr as (w & ext & Hw & Hrange & ->).
      assert (Hrunes : range_string (String.append prefix (string_of_runes ext))
                       = range_string w).
      { rewrite range_string_extend by (by eapply Hscalar). done. }
      split.
      * rewrite (getFrequencyA2_occurrences words t _ Hins Hlen), Hrunes.
        assert (0 < occurrences words (range_string w))
          by (apply occurrences_pos; eauto).
        lia.
      * exists w. split; [done|]. split; [done|]. intros Hp Hv.
        unfold valid_utf8 in Hp, Hv. rewrite <- Hv, Hrange, string_of_runes_app.
        by rewrite Hp.
    + intros Hshort w Hw.
      assert (Hall : take 10 sorted = sorted).
      { rewrite length_take in Hshort. apply take_ge. lia. }
      rewrite Hall.
      assert (Hext : ∀ ext, range_string w = range_string prefix ++ ext →
                String.append prefix (string_of_runes ext) ∈ sorted).
      { intros ext Hrange. rewrite Hperm. apply Hcoll. by exists w, ext. }
      split; [done|]. intros Hp Hv [ext Hrange]%HasPrefix_runes; [|done].
      specialize (Hext ext Hrange).
      unfold valid_utf8 in Hp, Hv.
      rewrite <- Hp, <- string_of_runes_app, <- Hrange, Hv in Hext. done.
  - split; [constructor|]. split; [by intros r ?%elem_of_nil|].
    intros _ w Hw.
    assert (Hnone : ∀ ext, range_string w ≠ range_string prefix ++ ext).
    { intros ext Hrange.
      pose proof (inserted_observe _ _ Hins Hlen (range_string w)) as Hobs.
      assert (Hpos : 0 < occurrences words (range_string w))
        by (apply occurrences_pos; eauto).
      rewrite Hrange, descend_app, shapeA2_descend, Hcur in Hobs. simpl in Hobs.
      injection Hobs as He Hf. rewrite <- Hrange in Hf. lia. }
    split; [by intros ext ?%Hnone|].
    intros Hp Hv [ext Hrange]%HasPrefix_runes; [|done]. by apply Hnone in Hrange.
Qed.

(** X9 on the corpus of the benchmark and the prefix he. *)
Lemma frequency_Autocomplete_returns_inserted_words_witness :
  let t := buildAlg2Trie corpus in
  (inserted corpus (shapeA2 (TriesA2.root t)) ∧ len corpus ≤ int_max) ∧
  let res := TriesA2.Autocomplete (sorter := insertion_SortSlice) t "he" in
  NoDup res ∧
  (∀ r, r ∈ res →
     1 ≤ TriesA2.getFrequency t r ∧
     ∃ w, w ∈ corpus ∧ range_string w = range_string r ∧
          (valid_utf8 "he" → valid_utf8 w → r = w)) ∧
  ((length res < 10)%nat →
   ∀ w, w ∈ corpus →
     (∀ ext, range_string w = range_string "he" ++ ext →
             String.append "he" (string_of_runes ext) ∈ res) ∧
     (valid_utf8 "he" → valid_utf8 w → HasPrefix w "he" = true → w ∈ res)).
Proof.
  intros t.
  assert (Hins : inserted corpus (shapeA2 (TriesA2.root t)))
    by apply inserted_buildAlg2Trie.
  assert (Hlen : len corpus ≤ int_max) by (vm_compute; discriminate).
  split; [by split|].
  exact (frequency_Autocomplete_returns_inserted_words (sorter := insertion_SortSlice)
           corpus t "he" Hins Hlen).
Defined.

(** ** The metric of the benchmark: [measureSuggestionQuality] *)

(** X10: for an empty [ideal] the quality is 1.0 whatever was suggested.
    Otherwise it is the quotient of the number of hits by [len(ideal)],
    where every entry of [ideal] that occurs among the suggestions counts
    one hit, however often it occurs there and wherever.  Hence two
    suggestion lists with the same elements have the same quality. *)
Theorem measureSuggestionQuality_counts_hits (got ideal : list string) :
  len ideal ≤ int_max →
  measureSuggestionQuality got ideal =
    (if decide (ideal = []) then float64_one
     else float64_div (float64_of_int (len (hits got ideal)))
                      (float64_of_int (len ideal))) ∧
  (∀ got', (∀ w, w ∈ got ↔ w ∈ got') →
     measureSuggestionQuality got' ideal = measureSuggestionQuality got ideal).
Proof.
  intros Hlen. split; [by apply measureSuggestionQuality_hits|].
  intros got' Hsame. rewrite !measureSuggestionQuality_hits by done.
  destruct (decide (ideal = [])); [done|].
  do 3 f_equal. unfold hits. apply list_filter_iff. intros w. symmetry. apply Hsame.
Qed.

(** X10 on the suggestions and the ideal set of the benchmark. *)
Lemma measureSuggestionQuality_counts_hits_witness :
  let got := ["hello"; "hero"; "helicopter"] in
  let ideal := ["hello"; "helicopter"; "hell"] in
  len ideal ≤ int_max ∧
  measureSuggestionQuality got ideal =
    (if decide (ideal = []) then float64_one
     else float64_div (float64_of_int (len (hits got ideal)))
                      (float64_of_int (len ideal))) ∧
  (∀ got', (∀ w, w ∈ got ↔ w ∈ got') →
     measureSuggestionQuality got' ideal = measureSuggestionQuality got ideal).
Proof.
  intros got ideal.
  assert (Hlen : len ideal ≤ int_max) by (vm_compute; discriminate).
  split; [done|].
  exact (measureSuggestionQuality_counts_hits got ideal Hlen).
Defined.

(** X11: for an [ideal] of 1 to 2^53 - 1 entries the quality is a number
    from 0 to 1.  It is greater than 0.0, which is what the tests ask for,
    exactly when one entry of [ideal] was suggested, and it is 1.0 exactly
    when every entry was. *)
Theorem measureSuggestionQuality_range (got ideal : list string) :
  1 ≤ len ideal < 2 ^ 53 →
  let q := measureSuggestionQuality got ideal in
  float64_finite q = true ∧
  (0 <= float64_to_Q q <= 1)%Q ∧
  (float64_gt q float64_zero = true ↔ ∃ w, w ∈ ideal ∧ w ∈ got) ∧
  (q = float64_one ↔ ∀ w, w ∈ ideal → w ∈ got).
Proof.
  intros Hlen. cbv zeta.
  rewrite measureSuggestionQuality_hits by (unfold int_max; lia).
  destruct (decide (ideal = [])) as [->|Hne]; [unfold len in Hlen; simpl in Hlen; lia|].
  pose proof (hits_length got ideal) as Hh.
  destruct (float64_quotient_range (len (hits got ideal)) (len ideal))
    as (Hfin & Hrange & Hzero & Hone & Hpos); [unfold len; lia|lia|].
  cbv zeta in *. split; [done|]. split; [done|]. split.
  - rewrite Hpos. unfold len. split.
    + intros Hlt. destruct (hits got ideal) as [|w l] eqn:Hhits; [simpl in Hlt; lia|].
      assert (Hw : w ∈ hits got ideal) by (rewrite Hhits; by left).
      apply list_elem_of_filter in Hw as [? ?]. eauto.
    + intros (w & Hw & Hg).
      assert (Hin : w ∈ hits got ideal) by (by apply list_elem_of_filter).
      destruct (hits got ideal); [by apply elem_of_nil in Hin|simpl; lia].
  - rewrite Hone, <- hits_all. unfold len. lia.
Qed.

(** X11 on the suggestions and the ideal set of the benchmark. *)
Lemma measureSuggestionQuality_range_witness :
  let got := ["hello"; "hero"; "helicopter"] in
  let ideal := ["hello"; "helicopter"; "hell"] in
  1 ≤ len ideal < 2 ^ 53 ∧
  let q := measureSuggestionQuality got ideal in
  float64_finite q = true ∧
  (0 <= float64_to_Q q <= 1)%Q ∧
  (float64_gt q float64_zero = true ↔ ∃ w, w ∈ ideal ∧ w ∈ got) ∧
  (q = float64_one ↔ ∀ w, w ∈ ideal → w ∈ got).
Proof.
  intros got ideal.
  assert (Hlen : 1 ≤ len ideal < 2 ^ 53) by (vm_compute; split; [discriminate|reflexivity]).
  split; [done|].
  exact (measureSuggestionQuality_range got ideal Hlen).
Defined.

(** ** The ranking: the range of the probabilities *)

(** X12: in a trie built by [Insert] and [BuildBigramTable] (fewer than 2^53
    words inserted, fewer than 2^52 bigrams counted) every probability that
    [Autocomplete] returns is a number from 0 to 1, neither an infinity nor a
    NaN.  Without an entry of the bigram table under the prefix every
    probability is greater than 0. *)
Theorem Autocomplete_probabilities_in_range {sorter : SortSlice}
    (n m : nat) (t : TrieA1) (prefix : string) (k : Z) (res : list suggestion) :
  built n m t → Z.of_nat n < 2 ^ 53 → 2 * Z.of_nat m < 2 ^ 53 →
  TrieA1.Autocomplete t prefix k = Returns res →
  Forall (λ s, float64_finite (probability s) = true ∧
               (0 <= float64_to_Q (probability s) <= 1)%Q) res ∧
  (bigramTable t !! prefix = None →
   Forall (λ s, float64_gt (probability s) float64_zero = true) res).
Proof.
  intros Hbuilt Hn Hm Hres.
  assert (Hn' : Z.of_nat n ≤ int_max) by (unfold int_max; lia).
  assert (Hm' : 2 * Z.of_nat m ≤ int_max) by (unfold int_max; lia).
  destruct (TrieA1.searchPrefix t prefix) as [node|] eqn:Hnode.
  - destruct (Autocomplete_found _ _ _ _ _ Hnode Hres) as [_ ->].
    rewrite <- collectCompletions_below with (t := t).
    destruct (built_completions n m t Hbuilt Hn' prefix node Hnode)
      as (Hall & Htot & Hmax & Hone & _).
    cbv zeta in *.
    set (completions := TrieA1.collectCompletions t node prefix) in *.
    rewrite rank_unfold.
    destruct (bigramTable t !! prefix) as [contextData|] eqn:Hctx.
    + split; [|done].
      apply Forall_take. rewrite sort_Slice_perm. apply Forall_fmap, Forall_forall.
      intros c _. simpl.
      destruct (built_bounded n m t Hbuilt Hm' _ _ Hctx) as [Htotal Hle].
      destruct (float64_quotient_range (count_of contextData (cword c))
                  (count_of contextData "_total")) as (? & ? & _);
        [apply Hle|lia|done].
    + assert (Hq : ∀ c, c ∈ completions →
                float64_finite (probability (frequency_suggestion
                                               (totalFreq_of completions) c)) = true ∧
                (0 <= float64_to_Q (probability (frequency_suggestion
                                                   (totalFreq_of completions) c)) <= 1)%Q ∧
                float64_gt (probability (frequency_suggestion
                                           (totalFreq_of completions) c))
                           float64_zero = true).
      { intros c Hc. simpl. rewrite Htot.
        pose proof (proj1 (Forall_forall _ _) Hall c Hc) as Hc1. simpl in Hc1.
        pose proof (sum_frequencies_bound c completions Hall Hc) as Hc2.
        destruct (float64_quotient_range (cfrequency c) (sum_frequencies completions))
          as (? & ? & _ & _ & Hpos); [lia|lia|].
        split; [done|]. split; [done|]. apply Hpos. lia. }
      split; [|intros _]; apply Forall_take; rewrite sort_Slice_perm;
        apply Forall_fmap, Forall_forall; intros c Hc; simpl;
        destruct (Hq c Hc) as (? & ? & ?); done.
  - unfold TrieA1.Autocomplete in Hres. rewrite Hnode in Hres. injection Hres as <-.
    split; [constructor|]. intros _. constructor.
Qed.

(** X12 at the corpus and the query of the benchmark. *)
Lemma Autocomplete_probabilities_in_range_witness :
  let t := buildAlg1Trie corpus in
  let sixth n := float64_div (float64_of_int n) (float64_of_int 6) in
  let res :=
    [{| word := "hello"; probability := sixth 3 |};
     {| word := "hero"; probability := sixth 1 |};
     {| word := "helicopter"; probability := sixth 1 |}] in
  (built 11 10 t ∧ Z.of_nat 11 < 2 ^ 53 ∧ 2 * Z.of_nat 10 < 2 ^ 53 ∧
   TrieA1.Autocomplete (sorter := insertion_SortSlice) t "he" 3 = Returns res) ∧
  Forall (λ s, float64_finite (probability s) = true ∧
               (0 <= float64_to_Q (probability s) <= 1)%Q) res ∧
  (bigramTable t !! "he" = None →
   Forall (λ s, float64_gt (probability s) float64_zero = true) res).
Proof.
  intros t sixth res.
  assert (Hbuilt : built 11 10 t) by exact (built_buildAlg1Trie corpus).
  assert (Hn : Z.of_nat 11 < 2 ^ 53) by (vm_compute; reflexivity).
  assert (Hm : 2 * Z.of_nat 10 < 2 ^ 53) by (vm_compute; reflexivity).
  assert (Hres : TrieA1.Autocomplete (sorter := insertion_SortSlice) t "he" 3
                 = Returns res) by (vm_compute; reflexivity).
  split; [by repeat split|].
  exact (Autocomplete_probabilities_in_range (sorter := insertion_SortSlice)
           11 10 t "he" 3 res Hbuilt Hn Hm Hres).
Defined.

(** ** The trie of [main.go]: [Insert], [Search], [Autocomplete] *)

(** X13: in the trie of [main.go], after [Insert] was called with the words
    of a list, [Search] finds a word exactly when an inserted word has its
    runes; for valid UTF-8, exactly when the word itself was inserted.  The
    beginning of an inserted word is not found unless it was inserted
    too. *)
Theorem Search_finds_inserted_words (words : list string) (t : MainTries.Tries)
    (w : string) :
  holds words t →
  (MainTries.Search t w = true ↔
   ∃ w', w' ∈ words ∧ range_string w' = range_string w) ∧
  (Forall valid_utf8 words → valid_utf8 w →
   (MainTries.Search t w = true ↔ w ∈ words)).
Proof.
  intros Hholds. split; [by apply Search_holds|].
  intros Hvalid Hw. rewrite (Search_holds words t w Hholds).
  by destruct (occurrences_valid words w Hvalid Hw).
Qed.

(** X13 on the words of [main]: hello is found, its beginning hel is not. *)
Lemma Search_finds_inserted_words_witness :
  let words := ["hello"; "hell"; "helicopter"; "hero"; "world"; "how"; "are"; "you"] in
  let t := foldl MainTries.Insert MainTries.initTries words in
  holds words t ∧
  ((MainTries.Search t "hel" = true ↔
    ∃ w', w' ∈ words ∧ range_string w' = range_string "hel") ∧
   (Forall valid_utf8 words → valid_utf8 "hel" →
    (MainTries.Search t "hel" = true ↔ "hel" ∈ words))) ∧
  MainTries.Search t "hel" = false ∧ MainTries.Search t "hello" = true.
Proof.
  intros words t.
  assert (Hholds : holds words t) by apply holds_foldl.
  split; [done|]. split; [|by split].
  exact (Search_finds_inserted_words words t "hel" Hholds).
Defined.

(** X14: in the trie of [main.go], after [Insert] was called with the words
    of a list, [Autocomplete] returns, for every inserted word whose runes
    begin with the runes of the prefix, the prefix followed by the encoding
    of the further runes, and nothing else; for a valid prefix and a valid
    word that is the word itself.  No word is returned twice, every word
    begins with the bytes of the prefix, [Search] finds every word, and the
    list is neither sorted nor cut. *)
Theorem Autocomplete_lists_inserted_words (words : list string) (t : MainTries.Tries)
    (prefix : string) :
  holds words t →
  let res := MainTries.Autocomplete t prefix in
  NoDup res ∧
  (∀ r, r ∈ res ↔
        ∃ w ext, w ∈ words ∧ range_string w = range_string prefix ++ ext ∧
                 r = String.append prefix (string_of_runes ext)) ∧
  Forall (λ r, HasPrefix r prefix = true ∧ MainTries.Search t r = true) res ∧
  (valid_utf8 prefix →
   ∀ w, w ∈ words → valid_utf8 w → HasPrefix w prefix = true → w ∈ res).
Proof.
  intros Hholds. pose proof Hholds as (node & Hins & Hroot). cbv zeta.
  pose proof (inserted_well_keyed _ _ Hins) as Hwk.
  assert (Hscalar : ∀ w ext, range_string w = range_string prefix ++ ext →
            Forall (λ r, scalar_value r = true) ext).
  { intros w ext Hrange. pose proof (range_string_scalar w) as Hsc.
    rewrite Hrange in Hsc. by apply Forall_app in Hsc as [_ ?]. }
  unfold MainTries.Autocomplete. rewrite Hroot, plain_descend.
  destruct (TrieA1.descend (range_string prefix) node) as [current|] eqn:Hcur; simpl.
  - rewrite collectWords_stored. simpl.
    destruct (descend_well_keyed _ _ _ Hwk Hcur) as [_ Hwk'].
    assert (Hres : ∀ r,
      r ∈ map (λ e, String.append prefix (string_of_runes e.1)) (stored_below current) ↔
      ∃ w ext, w ∈ words ∧ range_string w = range_string prefix ++ ext ∧
               r = String.append prefix (string_of_runes ext)).
    { intros r. split.
      - intros ([ext f] & -> & Hin)%list_elem_of_fmap. simpl.
        assert (Hext : ext ∈ map fst (stored_below current))
          by (apply list_elem_of_fmap; by exists (ext, f)).
        apply (inserted_stored_paths words node _ _ _ Hins Hcur) in Hext
          as (w & Hw & Hrange).
        by exists w, ext.
      - intros (w & ext & Hw & Hrange & ->).
        assert (Hext : ext ∈ map fst (stored_below current))
          by (apply (inserted_stored_paths words node _ _ _ Hins Hcur); eauto).
        apply list_elem_of_fmap in Hext as ([ext' f] & -> & Hin).
        apply list_elem_of_fmap. by exists (ext', f). }
    split; [|split; [done|split]].
    + eapply (NoDup_fmap_rel fst); [|by apply stored_below_NoDup].
      intros [e1 f1] [e2 f2] H1 H2 Heq. simpl in *.
      apply (f_equal range_string) in Heq.
      rewrite !range_string_extend in Heq by (by eapply stored_below_scalar).
      by apply app_inv_head in Heq.
    + apply Forall_forall. intros r (w & ext & Hw & Hrange & ->)%Hres.
      split; [apply HasPrefix_append|].
      apply (Search_holds words t _ Hholds).
      exists w. split; [done|].
      rewrite range_string_extend by (by eapply Hscalar). done.
    + intros Hp w Hw Hv [ext Hrange]%HasPrefix_runes; [|done].
      apply Hres. exists w, ext. split; [done|]. split; [done|].
      unfold valid_utf8 in Hp, Hv.
      rewrite <- Hp at 1. by rewrite <- string_of_runes_app, <- Hrange, Hv.
  - assert (Hnone : ∀ w ext, w ∈ words → range_string w ≠ range_string prefix ++ ext).
    { intros w ext Hw Hrange.
      pose proof (inserted_flag _ _ Hins (range_string w)) as Hflag.
      assert (Hpos : 0 < occurrences words (range_string w))
        by (apply occurrences_pos; eauto).
      apply Z.ltb_lt in Hpos. rewrite Hpos in Hflag.
      rewrite Hrange, descend_app, Hcur in Hflag. done. }
    split; [constructor|]. split; [|split; [constructor|]].
    + intros r. split; [by intros ?%elem_of_nil|].
      intros (w & ext & Hw & Hrange & _). by apply Hnone in Hrange.
    + intros Hp w Hw Hv [ext Hrange]%HasPrefix_runes; [|done].
      by apply Hnone in Hrange.
Qed.

(** X14 on the words of [main] and the prefix he. *)
Lemma Autocomplete_lists_inserted_words_witness :
  let words := ["hello"; "hell"; "helicopter"; "hero"; "world"; "how"; "are"; "you"] in
  let t := foldl MainTries.Insert MainTries.initTries words in
  holds words t ∧
  let res := MainTries.Autocomplete t "he" in
  NoDup res ∧
  (∀ r, r ∈ res ↔
        ∃ w ext, w ∈ words ∧ range_string w = range_string "he" ++ ext ∧
                 r = String.append "he" (string_of_runes ext)) ∧
  Forall (λ r, HasPrefix r "he" = true ∧ MainTries.Search t r = true) res ∧
  (valid_utf8 "he" →
   ∀ w, w ∈ words → valid_utf8 w → HasPrefix w "he" = true → w ∈ res).
Proof.
  intros words t.
  assert (Hholds : holds words t) by apply holds_foldl.
  split; [done|].
  exact (Autocomplete_lists_inserted_words words t "he" Hholds).
Defined.

(** ** The loop of the front end *)

(** X15: whatever events arrive, the front end counts every word once: a
    word is inserted only when its frequency is 0, so that every frequency
    is 0 or 1 and the order by frequency in [Autocomplete] never tells two
    stored words apart.  Finalizing the current word leaves it stored, with
    frequency 1, and keeps every stored word. *)
Theorem front_end_counts_each_word_once {sorter : SortSlice}
    (events : list FrontEnd.Event) :
  let s := FrontEnd.state_of (FrontEnd.run FrontEnd.initial events) in
  (∀ w, Tries.getFrequency (FrontEnd.trie s) w = 0 ∨
        Tries.getFrequency (FrontEnd.trie s) w = 1) ∧
  (FrontEnd.currentWord s ≠ EmptyString →
   Tries.getFrequency (FrontEnd.trie (FrontEnd.finalize s)) (FrontEnd.currentWord s) = 1) ∧
  (∀ w, Tries.getFrequency (FrontEnd.trie s) w = 1 →
        Tries.getFrequency (FrontEnd.trie (FrontEnd.finalize s)) w = 1).
Proof.
  cbv zeta.
  destruct (run_consistent events FrontEnd.initial consistent_initial) as [Hbin _].
  split; [intros w; by apply getFrequencyTUI_binary|].
  by apply finalize_learns.
Qed.

(** X16: whatever events arrived before, the Tab key replaces the current
    word by the first suggestion, which begins with the bytes of the current
    word; without suggestions it changes nothing.  The sentence and the trie
    stay as they are. *)
Theorem front_end_Tab_extends_current_word {sorter : SortSlice}
    (events : list FrontEnd.Event) (ch : rune) :
  let s := FrontEnd.state_of (FrontEnd.run FrontEnd.initial events) in
  let s' := FrontEnd.state_of (FrontEnd.onEvent s (FrontEnd.EventKey FrontEnd.KeyTab ch)) in
  HasPrefix (FrontEnd.currentWord s') (FrontEnd.currentWord s) = true ∧
  FrontEnd.currentWord s' = default (FrontEnd.currentWord s) (head (FrontEnd.suggestions s)) ∧
  FrontEnd.fullSentence s' = FrontEnd.fullSentence s ∧
  FrontEnd.trie s' = FrontEnd.trie s ∧
  FrontEnd.suggestions s' = Tries.Autocomplete (FrontEnd.trie s) (FrontEnd.currentWord s').
Proof.
  cbv zeta.
  destruct (run_consistent events FrontEnd.initial consistent_initial) as [_ Hpre].
  set (s := FrontEnd.state_of (FrontEnd.run FrontEnd.initial events)) in *.
  simpl. destruct (FrontEnd.suggestions s) as [|top rest]; simpl.
  - split; [apply HasPrefix_refl|done].
  - apply Forall_cons in Hpre as [Htop _]. done.
Qed.

(** X17: the Backspace key removes one byte, not one character.  After a
    character is typed, Backspace leaves the current word with the encoding
    of the character but its last byte: the word is what it was before only
    for a character below U+0080. *)
Theorem front_end_Backspace_removes_one_byte {sorter : SortSlice}
    (s : FrontEnd.state) (ch : rune) :
  ch ≠ 0 →
  let s1 := FrontEnd.state_of (FrontEnd.onEvent s (FrontEnd.EventKey FrontEnd.KeyOther ch)) in
  let s2 :=
    FrontEnd.state_of (FrontEnd.onEvent s1 (FrontEnd.EventKey FrontEnd.KeyBackspace 0)) in
  FrontEnd.currentWord s1 = String.append (FrontEnd.currentWord s) (string_of_rune ch) ∧
  FrontEnd.currentWord s2 =
    String.append (FrontEnd.currentWord s) (drop_last_byte (string_of_rune ch)) ∧
  (FrontEnd.currentWord s2 = FrontEnd.currentWord s ↔ 0 < ch < 0x80) ∧
  FrontEnd.fullSentence s2 = FrontEnd.fullSentence s ∧
  FrontEnd.onEvent s1 (FrontEnd.EventKey FrontEnd.KeyBackspace2 0) =
  FrontEnd.onEvent s1 (FrontEnd.EventKey FrontEnd.KeyBackspace 0).
Proof.
  intros Hch. cbv zeta. simpl.
  destruct (Z.eqb_spec ch 0) as [|_]; [done|]. simpl.
  pose proof (string_of_rune_nonempty ch) as Hne.
  assert (Hlen : (strlen (String.append (FrontEnd.currentWord s) (string_of_rune ch)) >? 0)
                 = true).
  { apply strlen_pos. intros Hnil.
    destruct (FrontEnd.currentWord s); [by rewrite append_empty in Hnil|].
    by rewrite append_cons in Hnil. }
  unfold FrontEnd.backspace. simpl. rewrite Hlen. simpl.
  rewrite drop_last_byte_app by done.
  split; [done|]. split; [done|]. split; [|done].
  split.
  - intros Heq%append_same_inv. apply drop_last_byte_empty in Heq as [?|Hone]; [done|].
    apply string_of_rune_single in Hone. lia.
  - intros Hlow.
    destruct (proj2 (string_of_rune_single ch) ltac:(lia)) as [a ->]. simpl.
    apply append_empty_r.
Qed.

(** X17 for the character e with an acute accent, typed first. *)
Lemma front_end_Backspace_removes_one_byte_witness :
  let s := FrontEnd.initial in
  let ch := 0xE9 in
  let s1 :=
    FrontEnd.state_of (FrontEnd.onEvent (sorter := insertion_SortSlice) s
                         (FrontEnd.EventKey FrontEnd.KeyOther ch)) in
  let s2 :=
    FrontEnd.state_of (FrontEnd.onEvent (sorter := insertion_SortSlice) s1
                         (FrontEnd.EventKey FrontEnd.KeyBackspace 0)) in
  ch ≠ 0 ∧
  FrontEnd.currentWord s2 = bytes [0xC3] ∧
  FrontEnd.currentWord s1 = String.append (FrontEnd.currentWord s) (string_of_rune ch) ∧
  FrontEnd.currentWord s2 =
    String.append (FrontEnd.currentWord s) (drop_last_byte (string_of_rune ch)) ∧
  (FrontEnd.currentWord s2 = FrontEnd.currentWord s ↔ 0 < ch < 0x80) ∧
  FrontEnd.fullSentence s2 = FrontEnd.fullSentence s ∧
  FrontEnd.onEvent (sorter := insertion_SortSlice) s1
    (FrontEnd.EventKey FrontEnd.KeyBackspace2 0) =
  FrontEnd.onEvent (sorter := insertion_SortSlice) s1
    (FrontEnd.EventKey FrontEnd.KeyBackspace 0).
Proof.
  intros s ch s1 s2.
  assert (Hch : ch ≠ 0) by discriminate.
  split; [exact Hch|]. split; [reflexivity|].
  exact (front_end_Backspace_removes_one_byte (sorter := insertion_SortSlice) s ch Hch).
Defined.

(** X18: with no current word, Backspace takes the last word of the sentence
    back as the current word and joins the words before it with single
    spaces, without a space at the end.  Finalizing the word again therefore
    appends it to the word before it: after a sentence of two or more
    words, Backspace and Space do not restore the sentence. *)
Theorem front_end_Backspace_joins_words {sorter : SortSlice}
    (s : FrontEnd.state) (words : list string) (last : string) :
  Forall spaceless (words ++ [last]) →
  FrontEnd.fullSentence s = typed (words ++ [last]) →
  FrontEnd.currentWord s = EmptyString →
  let s1 :=
    FrontEnd.state_of (FrontEnd.onEvent s (FrontEnd.EventKey FrontEnd.KeyBackspace 0)) in
  let s2 :=
    FrontEnd.state_of (FrontEnd.onEvent s1 (FrontEnd.EventKey FrontEnd.KeySpace 0)) in
  FrontEnd.currentWord s1 = last ∧
  FrontEnd.fullSentence s1 = Join words " " ∧
  FrontEnd.fullSentence s2 =
    String.append (Join words " ") (String.append last " ") ∧
  (words ≠ [] → FrontEnd.fullSentence s2 ≠ FrontEnd.fullSentence s).
Proof.
  intros Hall Hsentence Hword. cbv zeta.
  assert (Hlast : spaceless last).
  { pose proof Hall as [_ Hl]%Forall_app. by inversion Hl. }
  assert (Hback : FrontEnd.backspace s =
            {| FrontEnd.trie := FrontEnd.trie s;
               FrontEnd.fullSentence := Join words " ";
               FrontEnd.currentWord := last;
               FrontEnd.suggestions := FrontEnd.suggestions s |}).
  { unfold FrontEnd.backspace. rewrite Hword, Hsentence. simpl strlen.
    change (strlen EmptyString >? 0) with false. cbv iota.
    assert (Hne : (strlen (typed (words ++ [last])) >? 0) = true).
    { apply strlen_pos. destruct words; apply typed_nonempty. }
    rewrite Hne, Fields_typed by done. cbv zeta.
    assert (Hn : (len (words ++ [last]) >? 0) = true).
    { apply Z.gtb_lt. unfold len. rewrite length_app. simpl. lia. }
    rewrite Hn. by rewrite removelast_last, last_last. }
  simpl. rewrite Hback. simpl.
  unfold FrontEnd.finalize. simpl.
  destruct (decide (last ≠ EmptyString)) as [_|Hn]; [|by destruct Hlast]. simpl.
  split; [done|]. split; [done|]. split; [done|].
  intros Hne. rewrite Hsentence, typed_app, typed_Join by done. simpl typed.
  rewrite !append_assoc. intros Heq%(f_equal String.length).
  rewrite !length_append in Heq. simpl in Heq. lia.
Qed.

(** X18 after the sentence hello world. *)
Lemma front_end_Backspace_joins_words_witness :
  let s :=
    {| FrontEnd.trie := FrontEnd.trie FrontEnd.initial;
       FrontEnd.fullSentence := "hello world ";
       FrontEnd.currentWord := EmptyString;
       FrontEnd.suggestions := [] |} in
  let s1 :=
    FrontEnd.state_of (FrontEnd.onEvent (sorter := insertion_SortSlice) s
                         (FrontEnd.EventKey FrontEnd.KeyBackspace 0)) in
  let s2 :=
    FrontEnd.state_of (FrontEnd.onEvent (sorter := insertion_SortSlice) s1
                         (FrontEnd.EventKey FrontEnd.KeySpace 0)) in
  (Forall spaceless (["hello"] ++ ["world"]) ∧
   FrontEnd.fullSentence s = typed (["hello"] ++ ["world"]) ∧
   FrontEnd.currentWord s = EmptyString) ∧
  FrontEnd.fullSentence s2 = "helloworld " ∧
  FrontEnd.currentWord s1 = "world" ∧
  FrontEnd.fullSentence s1 = Join ["hello"] " " ∧
  FrontEnd.fullSentence s2 =
    String.append (Join ["hello"] " ") (String.append "world" " ") ∧
  (["hello"] ≠ [] → FrontEnd.fullSentence s2 ≠ FrontEnd.fullSentence s).
Proof.
  intros s s1 s2.
  assert (Hall : Forall spaceless (["hello"] ++ ["world"])).
  { repeat (constructor; [split; [discriminate|vm_compute; repeat constructor]|]).
    constructor. }
  assert (Hsentence : FrontEnd.fullSentence s = typed (["hello"] ++ ["world"]))
    by reflexivity.
  assert (Hword : FrontEnd.currentWord s = EmptyString) by reflexivity.
  split; [by repeat split|]. split; [reflexivity|].
  exact (front_end_Backspace_joins_words (sorter := insertion_SortSlice)
           s ["hello"] "world" Hall Hsentence Hword).
Defined.

(** ** [searchPrefix], and the two tries of the benchmark side by side *)

(** X19: in a trie that holds [words] (fewer than 2^63 of them),
    [searchPrefix] finds a node exactly for the empty prefix and for a
    prefix whose runes begin the runes of an inserted word.  Below the node
    of a prefix that is not empty there is always a completion: the case
    "prefix present, no completions" arises for the empty prefix of an empty
    trie only. *)
Theorem searchPrefix_finds_beginnings (words : list string) (t : TrieA1)
    (prefix : string) :
  inserted words (root t) → len words ≤ int_max →
  (TrieA1.searchPrefix t prefix ≠ None ↔
   prefix = EmptyString ∨
   ∃ w ext, w ∈ words ∧ range_string w = range_string prefix ++ ext) ∧
  (∀ node, TrieA1.searchPrefix t prefix = Some node → prefix ≠ EmptyString →
           TrieA1.collectCompletions t node prefix ≠ []).
Proof. apply searchPrefix_beginnings. Qed.

(** X19 on the corpus of the benchmark and the prefix he. *)
Lemma searchPrefix_finds_beginnings_witness :
  let t := buildAlg1Trie corpus in
  (inserted corpus (root t) ∧ len corpus ≤ int_max) ∧
  (TrieA1.searchPrefix t "he" ≠ None ↔
   "he" = EmptyString ∨
   ∃ w ext, w ∈ corpus ∧ range_string w = range_string "he" ++ ext) ∧
  (∀ node, TrieA1.searchPrefix t "he" = Some node → "he" ≠ EmptyString →
           TrieA1.collectCompletions t node "he" ≠ []).
Proof.
  intros t.
  assert (Hins : inserted corpus (root t)) by apply inserted_buildAlg1Trie.
  assert (Hlen : len corpus ≤ int_max) by (vm_compute; discriminate).
  split; [by split|].
  exact (searchPrefix_finds_beginnings corpus t "he" Hins Hlen).
Defined.

(** X20: the two tries of the benchmark, filled with the same words, store
    the same frequencies, and for a prefix that is valid UTF-8 they return
    the same words whenever neither result is cut: fewer than [k]
    suggestions from the contextual trie, fewer than ten from the frequency
    trie. *)
Theorem benchmark_tries_return_the_same_words {sorter : SortSlice}
    (words : list string) (t1 : TrieA1) (t2 : TriesA2.TriesA2) (prefix : string)
    (k : Z) (res : list suggestion) :
  inserted words (root t1) → inserted words (shapeA2 (TriesA2.root t2)) →
  len words ≤ int_max →
  (∀ w, TriesA2.getFrequency t2 w = frequencyOf t1 w) ∧
  (valid_utf8 prefix →
   TrieA1.Autocomplete t1 prefix k = Returns res → len res < k →
   (length (TriesA2.Autocomplete t2 prefix) < 10)%nat →
   map word res ≡ₚ TriesA2.Autocomplete t2 prefix).
Proof.
  intros Hins1 Hins2 Hlen. split.
  - intros w. rewrite (getFrequencyA2_occurrences words t2 w Hins2 Hlen).
    by destruct (inserted_counts words t1 w Hins1 Hlen) as [-> _].
  - intros Hvalid Hres Hk Hten.
    pose proof (inserted_well_keyed _ _ Hins1) as Hwk1.
    pose proof (inserted_well_keyed _ _ Hins2) as Hwk2.
    pose proof (Autocomplete_total t1 prefix k) as Htotal.
    rewrite AutocompleteA2_unfold in *.
    assert (Hsame : TrieA1.searchPrefix t1 prefix ≠ None ↔
              TriesA2.descend (range_string prefix) (TriesA2.root t2) ≠ None).
    { rewrite (proj1 (searchPrefix_beginnings words t1 prefix Hins1 Hlen)).
      rewrite <- (proj1 (searchPrefix_beginnings words
                          {| root := shapeA2 (TriesA2.root t2); bigramTable := ∅ |}
                          prefix Hins2 Hlen)).
      unfold TrieA1.searchPrefix. simpl. rewrite shapeA2_descend.
      by destruct (TriesA2.descend _ _). }
    destruct (TrieA1.searchPrefix t1 prefix) as [node|] eqn:Hnode,
             (TriesA2.descend (range_string prefix) (TriesA2.root t2))
               as [current|] eqn:Hcur.
    + cbv zeta in Htotal. destruct (Z.ltb_spec k 0); [congruence|].
      rewrite Htotal in Hres. injection Hres as <-.
      rewrite collectCompletions_below in *.
      destruct (descend_well_keyed _ _ _ Hwk1 Hnode) as [Hpath Hwk1'].
      set (ranked := TrieA1.rankByContextualProbability t1 prefix _) in *.
      set (sorted := sort_Slice _ _) in *.
      assert (H1 : take (Z.to_nat k) ranked = ranked).
      { apply take_ge. unfold len in Hk. rewrite length_take in Hk. lia. }
      assert (H2 : take 10 sorted = sorted).
      { apply take_ge. rewrite length_take in Hten. lia. }
      rewrite H1, H2. unfold ranked, sorted.
      rewrite rank_word_perm, sort_Slice_perm.
      apply NoDup_same_elements.
      * by apply completions_below_NoDup.
      * by eapply collectWordsA2_NoDup.
      * intros x. rewrite (collectWordsA2_inserted words t2 prefix current x Hins2 Hlen Hcur).
        split.
        -- intros (c & -> & Hc)%list_elem_of_fmap.
           apply (inserted_completions words _ _ _ _ Hins1 Hlen Hpath Hnode) in Hc
             as (w & ext & Hw & Hrange & ->). simpl.
           exists w, ext. split; [done|]. split; [done|].
           rewrite Hrange, string_of_runes_app. by rewrite Hvalid.
        -- intros (w & ext & Hw & Hrange & ->).
           apply list_elem_of_fmap.
           exists {| cword := string_of_runes (range_string w);
                     cfrequency := occurrences words (range_string w) |}.
           split.
           ++ simpl. rewrite Hrange, string_of_runes_app. by rewrite Hvalid.
           ++ apply (inserted_completions words _ _ _ _ Hins1 Hlen Hpath Hnode).
              by exists w, ext.
    + by destruct (proj1 Hsame).
    + by destruct (proj2 Hsame).
    + rewrite Htotal in Hres. by injection Hres as <-.
Qed.

(** X20 on the corpus and the prefix of the benchmark, with ten suggestions
    asked for. *)
Lemma benchmark_tries_return_the_same_words_witness :
  let t1 := buildAlg1Trie corpus in
  let t2 := buildAlg2Trie corpus in
  let sixth n := float64_div (float64_of_int n) (float64_of_int 6) in
  let res :=
    [{| word := "hello"; probability := sixth 3 |};
     {| word := "hero"; probability := sixth 1 |};
     {| word := "helicopter"; probability := sixth 1 |};
     {| word := "hell"; probability := sixth 1 |}] in
  (inserted corpus (root t1) ∧ inserted corpus (shapeA2 (TriesA2.root t2)) ∧
   len corpus ≤ int_max) ∧
  (∀ w, TriesA2.getFrequency t2 w = frequencyOf t1 w) ∧
  (valid_utf8 "he" →
   TrieA1.Autocomplete (sorter := insertion_SortSlice) t1 "he" 10 = Returns res →
   len res < 10 →
   (length (TriesA2.Autocomplete (sorter := insertion_SortSlice) t2 "he") < 10)%nat →
   map word res ≡ₚ TriesA2.Autocomplete (sorter := insertion_SortSlice) t2 "he").
Proof.
  intros t1 t2 sixth res.
  assert (Hins1 : inserted corpus (root t1)) by apply inserted_buildAlg1Trie.
  assert (Hins2 : inserted corpus (shapeA2 (TriesA2.root t2)))
    by apply inserted_buildAlg2Trie.
  assert (Hlen : len corpus ≤ int_max) by (vm_compute; discriminate).
  split; [by repeat split|].
  exact (benchmark_tries_return_the_same_words (sorter := insertion_SortSlice)
           corpus t1 t2 "he" 10 res Hins1 Hins2 Hlen).
Defined.


(** * The scenarios of the tests, run on the model *)

(** TestLongPrefixSingleMatch: the single completion of helico. *)
Example test_long_prefix_single_match :
  TrieA1.Autocomplete (sorter := insertion_SortSlice)
    (buildAlg1Trie ["helicopter"; "hello"; "hero"]) "helico" 5
  = Returns [{| word := "helicopter"; probability := float64_of_int 1 |}].
Proof. vm_compute. reflexivity. Qed.

(** The query of [main]: hello, inserted three times, comes first. *)
Example main_query_hello_first :
  ∃ rest,
    TrieA1.Autocomplete (sorter := insertion_SortSlice) (buildAlg1Trie corpus) "he" 3
    = Returns ({| word := "hello";
                  probability := float64_div (float64_of_int 3) (float64_of_int 6) |}
               :: rest).
Proof. eexists. vm_compute. reflexivity. Qed.

Example main_query_frequency_trie :
  ∃ rest,
    TriesA2.Autocomplete (sorter := insertion_SortSlice) (buildAlg2Trie corpus) "he"
    = "hello" :: rest ∧ length rest = 3%nat.
Proof. eexists. split; vm_compute; reflexivity. Qed.

(** With twelve words under one prefix the frequency trie returns ten. *)
Example frequency_trie_cap_reached :
  length (TriesA2.Autocomplete (sorter := insertion_SortSlice)
            (buildAlg2Trie ["a0"; "a1"; "a2"; "a3"; "a4"; "a5";
                            "a6"; "a7"; "a8"; "a9"; "aa"; "ab"]) "a") = 10%nat.
Proof. vm_compute. reflexivity. Qed.

(** The empty trie: the root is found for the empty prefix, so a negative
    count panics there too, while an unknown prefix returns before the
    slice expression. *)
Example empty_trie_counts :
  TrieA1.Autocomplete (sorter := insertion_SortSlice) NewTrieA1 "" 0 = Returns [] ∧
  TrieA1.Autocomplete (sorter := insertion_SortSlice) NewTrieA1 "" (-1) = Panics ∧
  TrieA1.Autocomplete (sorter := insertion_SortSlice) NewTrieA1 "x" (-1) = Returns [].
Proof. repeat split; vm_compute; reflexivity. Qed.
